(** * Daily Boggle: puzzle generation, dictionary index, solver and scoring

    A shallow embedding of [src/app/play/page.tsx].  JavaScript numbers that
    hold integers are carried as [Z]; the 32-bit conversions the bit operators
    perform are written out.  Strings are sequences of UTF-16 code units.
    Mutable [Set] objects are insertion-ordered lists without repetition, and
    the closure returned by [mulberry32] is a cell of an explicit store.
    Numbers that hold fractions are carried as the rationals they are, and a
    product of two of them is rounded to binary64 as the machine does. *)

From Stdlib Require Import ZArith QArith Qround Qabs Qpower Lia Lqa String Ascii.
From stdpp Require Import base list sorting.

Local Open Scope Z_scope.

(** ** 32-bit integer operators of JavaScript *)

Module JS.

Definition two32 : Z := 4294967296.
Definition two31 : Z := 2147483648.

(** ToUint32 and ToInt32 of an integral number. *)
Definition ToUint32 (x : Z) : Z := x mod two32.

Definition ToInt32 (x : Z) : Z :=
  let u := x mod two32 in
  if two31 <=? u then u - two32 else u.

(** [a ^ b], [a | b], [a & b]: both operands to int32, result an int32. *)
Definition bxor (a b : Z) : Z := ToInt32 (Z.lxor (ToInt32 a) (ToInt32 b)).
Definition bor (a b : Z) : Z := ToInt32 (Z.lor (ToInt32 a) (ToInt32 b)).
Definition band (a b : Z) : Z := ToInt32 (Z.land (ToInt32 a) (ToInt32 b)).

(** [a << n]: the count is taken modulo 32, the result is an int32. *)
Definition shl (a n : Z) : Z :=
  ToInt32 (Z.shiftl (ToInt32 a) (ToUint32 n mod 32)).

(** [a >>> n]: zero-filling shift of the uint32, the result is a uint32. *)
Definition ushr (a n : Z) : Z :=
  ToUint32 (Z.shiftr (ToUint32 a) (ToUint32 n mod 32)).

(** [Math.imul(a, b)]: product of the int32 operands, wrapped to int32. *)
Definition imul (a b : Z) : Z := ToInt32 (ToInt32 a * ToInt32 b).

(** A number in a condition: zero is false, anything else is true. *)
Definition truthy (x : Z) : bool := negb (x =? 0).

End JS.

(** ** Strings *)

(** A string is the list of its UTF-16 code units ([charCodeAt]). *)
Definition jsstring : Type := list Z.

Definition code (c : ascii) : Z := Z.of_N (N_of_ascii c).

(** The string written as a literal in the source. *)
Definition str (s : string) : jsstring := code <$> list_ascii_of_string s.

#[global] Instance jsstring_eq_dec : EqDecision jsstring := _.

(** ** Seed derivation and the generator *)

(** The body of the loop over the code units. *)
Definition hash_step (h c : Z) : Z :=
  let h := JS.imul (JS.bxor h c) 3432918353 in
  JS.bor (JS.shl h 13) (JS.ushr h 19).

Definition hash_loop (h : Z) (cs : jsstring) : Z := fold_left hash_step cs h.

Definition hashStringToSeed (s : jsstring) : Z :=
  let h := JS.bxor 1779033703 (Z.of_nat (length s)) in
  let h := hash_loop h s in
  let h := JS.imul (JS.bxor h (JS.ushr h 16)) 2246822507 in
  let h := JS.imul (JS.bxor h (JS.ushr h 13)) 3266489909 in
  JS.ushr (JS.bxor h (JS.ushr h 16)) 0.

(** One call of the closure returned by [mulberry32]: from the captured [t]
    to the new [t] and the numerator of the result.  The result itself is
    that numerator divided by 4294967296; a uint32 over 2^32 is a dyadic
    rational of at most 32 significant bits, so the binary64 quotient is
    exact and is carried as a rational. *)
Definition mulberry32_step (t : Z) : Z * Z :=
  let t := JS.bor t 0 in
  let t := JS.bor (t + 1831565813) 0 in
  let r := JS.imul (JS.bxor t (JS.ushr t 15)) (JS.bor 1 t) in
  let r := JS.bxor (r + JS.imul (JS.bxor r (JS.ushr r 7)) (JS.bor 61 r)) r in
  (t, JS.ushr (JS.bxor r (JS.ushr r 14)) 0).

Definition mulberry32_call (t : Z) : Q * Z :=
  let '(t', u) := mulberry32_step t in (Qmake u 4294967296, t').

(** [seed || 1] *)
Definition mulberry32_init (seed : Z) : Z := if seed =? 0 then 1 else seed.


(** ** Values, arrays and sets *)

(** What an array of strings can hold at run time: reading past the end of
    an array gives [undefined]. *)
Inductive jsval : Type :=
  | undefined
  | Str (s : jsstring).

#[global] Instance jsval_eq_dec : EqDecision jsval.
Proof. solve_decision. Defined.

Definition Tile : Type := jsval.
Definition Grid : Type := list Tile.

(** [a[i]] for an integral [i]. *)
Definition array_get {A} (a : list A) (i : Z) : option A :=
  if i <? 0 then None else a !! Z.to_nat i.

Definition grid_get (grid : Grid) (i : Z) : Tile :=
  default undefined (array_get grid i).

(** A value on the right of [+] next to a string. *)
Definition toString (v : jsval) : jsstring :=
  match v with
  | undefined => str "undefined"
  | Str s => s
  end.

(** The element conversion of [Array.prototype.join]. *)
Definition joinString (v : jsval) : jsstring :=
  match v with
  | undefined => []
  | Str s => s
  end.

(** [Set<string>]: the elements in insertion order, each once. *)
Module JSSet.

Definition t : Type := list jsstring.

Definition empty : t := [].

Definition has (s : t) (x : jsstring) : bool := bool_decide (x ∈ s).

Definition add (x : jsstring) (s : t) : t := if has s x then s else s ++ [x].

(** [new Set(array)] *)
Definition from_array (a : list jsstring) : t :=
  fold_left (λ s x, add x s) a empty.

(** [Array.from(set)] *)
Definition to_array (s : t) : list jsstring := s.

Definition size (s : t) : Z := Z.of_nat (length s).

End JSSet.

(** ** The generator closure and its store *)

(** A callable [() => number] whose captured variables live in [St]. *)
Definition Rng (St : Type) : Type := St → Q * St.

(** The captured [t] of every closure [mulberry32] has returned so far,
    in order of creation. *)
Definition Store : Type := list Z.

(** A call of the closure whose [t] is cell [r].  Closures come from
    [mulberry32], which allocates the cell, so the cell is always there. *)
Definition closure_call (r : nat) : Rng Store := λ σ,
  match σ !! r with
  | Some t => let '(x, t') := mulberry32_call t in (x, <[r := t']> σ)
  | None => (0%Q, σ)
  end.

(** [mulberry32(seed)] allocates a fresh [t] and returns the closure over it. *)
Definition mulberry32 (seed : Z) (σ : Store) : Rng Store * Store :=
  (closure_call (length σ), σ ++ [mulberry32_init seed]).

(** ** Binary64 arithmetic *)

(** The integer [e] with [2^e <= x < 2^(e+1)], for a positive rational. *)
Definition Qlog2 (x : Q) : Z :=
  let e := Z.log2 (Qnum x) - Z.log2 (Zpos (Qden x)) in
  if Qle_bool (Qpower 2 e) x then e else e - 1.

(** The nearest integer, and the even one of two that are equally near. *)
Definition round_half_even (x : Q) : Z :=
  let f := Qfloor x in
  match (x - inject_Z f ?= 1 # 2)%Q with
  | Lt => f
  | Gt => f + 1
  | Eq => if Z.even f then f else f + 1
  end.

(** The exponent of the unit in the last place at [x]: 53 significant bits
    from 2^-1022 up, and steps of 2^-1074 below. *)
Definition ulp_exp (x : Q) : Z := Z.max (Qlog2 (Qabs x) - 52) (-1074).

(** The binary64 number nearest to a rational, the one with the even
    significand of two that are equally near.  Magnitudes from 2^1024 up,
    which round to an infinity, are outside this model. *)
Definition round64 (x : Q) : Q :=
  if Qeq_bool x 0 then 0%Q
  else (inject_Z (round_half_even (x / Qpower 2 (ulp_exp x)))
        * Qpower 2 (ulp_exp x))%Q.

(** [a * b] on numbers: the exact product, rounded. *)
Definition fmul (a b : Q) : Q := round64 (a * b).

(** ** Grid generation *)

Definition LETTER_BAG : list jsstring :=
  str <$> [ "e"; "e"; "e"; "e"; "e"; "e"; "a"; "a"; "a"; "a"; "i"; "i"; "i";
            "o"; "o"; "o"; "n"; "n"; "r"; "r"; "r"; "t"; "t"; "t"; "l"; "l";
            "s"; "s"; "d"; "d"; "g"; "b"; "c"; "m"; "p"; "f"; "h"; "v"; "w";
            "y"; "k"; "x"; "z" ]%string.

(** [LETTER_BAG[idx]] *)
Definition bag_get (idx : Z) : jsval :=
  from_option Str undefined (array_get LETTER_BAG idx).

(** The literal 0.08.  A draw is a binary64 number and 0.08 is not one; the
    binary64 nearest to 0.08 lies above it and its predecessor below, so a
    draw is below the literal exactly when it is below 8/100. *)
Definition quChance : Q := 8 # 100.

Definition Qltb (x y : Q) : bool := negb (Qle_bool y x).

(** One round of the loop: the tile pushed and the state after its draws.
    The product [rng() * LETTER_BAG.length] is rounded to binary64 before
    [Math.floor] takes its integer part. *)
Definition generateTile {St} (rng : Rng St) (σ : St) : Tile * St :=
  let '(x, σ1) := rng σ in
  if Qltb x quChance then (Str (str "qu"), σ1)
  else
    let '(y, σ2) := rng σ1 in
    let idx := Qfloor (fmul y (inject_Z (Z.of_nat (length LETTER_BAG)))) in
    (bag_get idx, σ2).

Fixpoint generateGrid_loop {St} (rng : Rng St) (n : nat) (grid : Grid) (σ : St)
  : Grid * St :=
  match n with
  | O => (grid, σ)
  | S n' =>
      let '(tile, σ') := generateTile rng σ in
      generateGrid_loop rng n' (grid ++ [tile]) σ'
  end.

Definition generateGrid {St} (rng : Rng St) (σ : St) : Grid * St :=
  generateGrid_loop rng 16 [] σ.

(** ** The host's string operations *)

(** [String.prototype.toLowerCase] follows the Unicode case tables and
    [String.prototype.localeCompare] the collation of the host's locale;
    neither is code of this program. *)
Class Runtime : Type := {
  toLowerCase : jsstring → jsstring;
  localeCompare : jsstring → jsstring → Z;
}.

(** Code-unit order, the collation of lower-case ASCII words in the root
    locale. *)
Fixpoint lex_compare (a b : jsstring) : comparison :=
  match a, b with
  | [], [] => Eq
  | [], _ :: _ => Lt
  | _ :: _, [] => Gt
  | x :: a', y :: b' =>
      match x ?= y with
      | Eq => lex_compare a' b'
      | c => c
      end
  end.

Definition ascii_lower (c : Z) : Z :=
  if (65 <=? c) && (c <=? 90) then c + 32 else c.

(** A host for ASCII text. *)
Definition ascii_runtime : Runtime := {|
  toLowerCase := λ s, ascii_lower <$> s;
  localeCompare := λ a b,
    match lex_compare a b with Lt => -1 | Eq => 0 | Gt => 1 end;
|}.

(** ** The dictionary index *)

Definition is_az (c : Z) : Prop := 97 ≤ c ≤ 122.

#[global] Instance is_az_dec c : Decision (is_az c).
Proof. unfold is_az. apply _. Defined.

Definition normalizeWord `{Runtime} (raw : jsstring) : jsstring :=
  let onlyLetters := filter is_az (toLowerCase raw) in
  onlyLetters.

(** White space and line terminators, as [trim] removes them. *)
Definition is_space (c : Z) : bool :=
  bool_decide (c ∈ [9; 10; 11; 12; 13; 32; 160; 5760; 8232; 8233; 8239; 8287;
                    12288; 65279])
  || ((8192 <=? c) && (c <=? 8202)).

Fixpoint trimStart (s : jsstring) : jsstring :=
  match s with
  | [] => []
  | c :: s' => if is_space c then trimStart s' else s
  end.

Definition trim (s : jsstring) : jsstring :=
  rev (trimStart (rev (trimStart s))).

(** [rawText.split(/\r?\n/)]: a line ends at a line feed, and a carriage
    return just before that line feed belongs to the separator. *)
Fixpoint split_lines (s : jsstring) : list jsstring :=
  match s with
  | [] => [[]]
  | c :: s' =>
      if c =? 10 then [] :: split_lines s'
      else if (c =? 13) && bool_decide (head s' = Some 10) then split_lines s'
      else
        match split_lines s' with
        | [] => [[c]]
        | line :: lines => (c :: line) :: lines
        end
  end.

(** [/^[a-z]+$/.test(w)] *)
Definition test_az (w : jsstring) : bool :=
  bool_decide (w ≠ [] ∧ Forall is_az w).

Record Dictionary : Type := {
  words : JSSet.t;
  prefixes : JSSet.t;
}.

(** [for (let i = 1; i <= w.length; i++) prefixes.add(w.slice(0, i))] *)
Definition add_prefixes (w : jsstring) (ps : JSSet.t) : JSSet.t :=
  fold_left (λ ps i, JSSet.add (take i w) ps) (seq 1 (length w)) ps.

(** The body of the loop over the lines. *)
Definition dictionary_line `{Runtime} (d : Dictionary) (line : jsstring)
  : Dictionary :=
  let w := normalizeWord (trim line) in
  if bool_decide (w = []) || (Z.of_nat (length w) <? 3) then d
  else if negb (test_az w) then d
  else {| words := JSSet.add w (words d);
          prefixes := add_prefixes w (prefixes d) |}.

Definition buildDictionary `{Runtime} (rawText : jsstring) : Dictionary :=
  fold_left dictionary_line (split_lines rawText)
    {| words := JSSet.empty; prefixes := JSSet.empty |}.

(** ** Adjacency *)

Record Coord : Type := { row : Z; col : Z }.

Definition indexToCoord (index : Z) : Coord :=
  {| row := index / 4; col := Z.rem index 4 |}.

Definition isAdjacent (a b : Z) : bool :=
  let ac := indexToCoord a in
  let bc := indexToCoord b in
  let dr := Z.abs (row ac - row bc) in
  let dc := Z.abs (col ac - col bc) in
  if (dr =? 0) && (dc =? 0) then false
  else Z.max dr dc =? 1.

(** ** The solver *)

Record SolverData : Type := { allWords : list jsstring }.

(** The positions a loop [for (let n = 0; n < 16; n++)] runs over. *)
Definition positions : list Z := seqZ 0 16.

(** The recursion of [dfs] is bounded by [fuel]; [None] is a search that
    needed more.  [results] is the set the calls share, passed through. *)
Fixpoint dfs (grid : Grid) (dict prefixes : JSSet.t) (fuel : nat)
    (index visitedMask : Z) (current : jsstring) (results : JSSet.t)
  : option JSSet.t :=
  match fuel with
  | O => None
  | S fuel' =>
      let letter := grid_get grid index in
      let nextWord := current ++ toString letter in
      if negb (JSSet.has prefixes nextWord) then Some results
      else
        let bit := JS.shl 1 index in
        let nextMask := JS.bor visitedMask bit in
        let results :=
          if (3 <=? Z.of_nat (length nextWord)) && JSSet.has dict nextWord
          then JSSet.add nextWord results
          else results in
        fold_left
          (λ acc n,
             results ← acc;
             if JS.truthy (JS.band nextMask (JS.shl 1 n)) then Some results
             else if negb (isAdjacent index n) then Some results
             else dfs grid dict prefixes fuel' n nextMask nextWord results)
          positions (Some results)
  end.

(** [Array.prototype.sort]: the order is stable, and an element moves
    before another only when the comparator returns a negative number. *)
Section Sort.
Context {A : Type} (cmp : A → A → Z).

Fixpoint sort_insert (x : A) (l : list A) : list A :=
  match l with
  | [] => [x]
  | y :: l' => if cmp x y <? 0 then x :: l else y :: sort_insert x l'
  end.

Definition sort (l : list A) : list A :=
  fold_left (λ acc x, sort_insert x acc) l [].
End Sort.

(** The comparator given to [sort] in [solveGrid]. *)
Definition compareWords `{Runtime} (a b : jsstring) : Z :=
  if negb (Z.of_nat (length b) =? Z.of_nat (length a))
  then Z.of_nat (length b) - Z.of_nat (length a)
  else localeCompare a b.

Definition solveGrid `{Runtime} (grid : Grid) (dict prefixes : JSSet.t)
  : option SolverData :=
  results ←
    fold_left
      (λ acc i, results ← acc; dfs grid dict prefixes 16 i 0 [] results)
      positions (Some JSSet.empty);
  Some {| allWords := sort compareWords (JSSet.to_array results) |}.

(** ** The page: the memoized puzzle and the handlers *)

(** The value of the [useMemo] over (puzzleId, dict, prefixes). *)
Record Puzzle : Type := {
  grid : option Grid;
  solver : option SolverData;
  validWordSet : option JSSet.t;
}.

Definition noPuzzle : Puzzle :=
  {| grid := None; solver := None; validWordSet := None |}.

(** The grid of a puzzle identifier: seed, generator, sixteen tiles. *)
Definition puzzleGrid (id : jsstring) (σ : Store) : Grid * Store :=
  let seed := hashStringToSeed id in
  let '(rng, σ) := mulberry32 seed σ in
  generateGrid rng σ.

(** [None] only when the solver ran out of fuel. *)
Definition playMemo `{Runtime} (puzzleId : option jsstring)
    (dict prefixes : option JSSet.t) (σ : Store) : option (Puzzle * Store) :=
  match puzzleId, dict, prefixes with
  | Some id, Some dict, Some prefixes =>
      if bool_decide (id = []) then Some (noPuzzle, σ)
      else
        let '(g, σ) := puzzleGrid id σ in
        s ← solveGrid g dict prefixes;
        let validSet := JSSet.from_array (allWords s) in
        Some ({| grid := Some g; solver := Some s;
                 validWordSet := Some validSet |}, σ)
  | _, _, _ => Some (noPuzzle, σ)
  end.

Inductive Status : Type := new | duplicate | invalid.

Record Submission : Type := {
  word : jsstring;
  delta : Z;
  status : Status;
}.

(** The state the handlers read and set. *)
Record Game : Type := {
  selected : list Z;
  score : Z;
  foundWords : JSSet.t;
  submissions : list Submission;
  timeLeft : Z;
  running : bool;
  finished : bool;
}.

(** What the handlers read and never set. *)
Record Page : Type := {
  puzzle : Puzzle;
  dictLoaded : bool;
  gameReady : bool;
  restoredResult : bool;
}.

Definition GAME_SECONDS : Z := 60.

Definition initialGame : Game :=
  {| selected := []; score := 0; foundWords := JSSet.empty;
     submissions := []; timeLeft := GAME_SECONDS;
     running := false; finished := false |}.

Definition setSelected (sel : list Z) (g : Game) : Game :=
  {| selected := sel; score := score g; foundWords := foundWords g;
     submissions := submissions g; timeLeft := timeLeft g;
     running := running g; finished := finished g |}.

(** The tiles of the selection joined with the empty separator, and the
    empty string without a grid or a selection. *)
Definition currentWord (p : Page) (g : Game) : jsstring :=
  match grid (puzzle p) with
  | None => []
  | Some gr =>
      if bool_decide (selected g = []) then []
      else concat ((λ i, joinString (grid_get gr i)) <$> selected g)
  end.

(** [selected.indexOf(index)] *)
Fixpoint indexOf_from (l : list Z) (x : Z) (i : Z) : Z :=
  match l with
  | [] => -1
  | y :: l' => if y =? x then i else indexOf_from l' x (i + 1)
  end.

Definition indexOf (l : list Z) (x : Z) : Z := indexOf_from l x 0.

Definition handleTileClick (p : Page) (index : Z) (g : Game) : Game :=
  if negb (running g) || finished g then g
  else if negb (bool_decide (is_Some (grid (puzzle p)))) then g
  else
    let sel := selected g in
    let existingIndex := indexOf sel index in
    if negb (existingIndex =? -1) then
      if existingIndex =? Z.of_nat (length sel) - 1
      then setSelected (take (length sel - 1) sel) g
      else setSelected (take (Z.to_nat (existingIndex + 1)) sel) g
    else if Z.of_nat (length sel) =? 0 then setSelected [index] g
    else
      match last sel with
      | Some l =>
          if negb (isAdjacent l index) then g
          else setSelected (sel ++ [index]) g
      | None => g
      end.

Definition handleClear (g : Game) : Game := setSelected [] g.

Definition tooShort : jsstring := str "(too short)".

Definition handleSubmit `{Runtime} (p : Page) (g : Game) : Game :=
  if negb (running g) || finished g then g
  else
    match solver (puzzle p), validWordSet (puzzle p) with
    | Some _, Some valid =>
        let cur := currentWord p g in
        let w := normalizeWord cur in
        if Z.of_nat (length w) <? 3 then
          {| selected := [];
             score := Z.max 0 (score g - 1);
             foundWords := foundWords g;
             submissions :=
               {| word := if bool_decide (cur = []) then tooShort else cur;
                  delta := -1; status := invalid |} :: submissions g;
             timeLeft := timeLeft g;
             running := running g; finished := finished g |}
        else
          let '(d, st) :=
            if JSSet.has (foundWords g) w then (-1, duplicate)
            else if JSSet.has valid w then (Z.of_nat (length w) - 2, new)
            else (-1, invalid) in
          {| selected := [];
             score := Z.max 0 (score g + d);
             foundWords :=
               match st with
               | new => JSSet.add w (foundWords g)
               | _ => foundWords g
               end;
             submissions :=
               {| word := w; delta := d; status := st |} :: submissions g;
             timeLeft := timeLeft g;
             running := running g; finished := finished g |}
    | _, _ => g
    end.

Definition handleStart (p : Page) (g : Game) : Game :=
  if negb (bool_decide (is_Some (grid (puzzle p))))
     || negb (dictLoaded p) || negb (gameReady p) then g
  else if restoredResult p then g
  else if running g || finished g then g
  else
    {| selected := []; score := 0; foundWords := JSSet.empty;
       submissions := []; timeLeft := GAME_SECONDS;
       running := true; finished := false |}.

(** One period of the interval timer. *)
Definition tick (g : Game) : Game :=
  if negb (running g) || finished g then g
  else if timeLeft g <=? 1 then
    {| selected := selected g; score := score g; foundWords := foundWords g;
       submissions := submissions g; timeLeft := 0;
       running := false; finished := true |}
  else
    {| selected := selected g; score := score g; foundWords := foundWords g;
       submissions := submissions g; timeLeft := timeLeft g - 1;
       running := running g; finished := finished g |}.

Inductive Event : Type :=
  | TileClick (index : Z)
  | Clear
  | Submit
  | Start
  | Tick.

Definition handle `{Runtime} (p : Page) (e : Event) (g : Game) : Game :=
  match e with
  | TileClick index => handleTileClick p index g
  | Clear => handleClear g
  | Submit => handleSubmit p g
  | Start => handleStart p g
  | Tick => tick g
  end.

(** The states a game passes through from its first render by the
    handlers and the timer, when no stored result is restored. *)
Inductive reachable `{Runtime} (p : Page) : Game → Prop :=
  | reachable_init : reachable p initialGame
  | reachable_step g e : reachable p g → reachable p (handle p e g).

(** ** Notions the properties are stated with *)

(** The results of [n] successive calls of a generator. *)
Fixpoint draws {St} (rng : Rng St) (n : nat) (σ : St) : list Q :=
  match n with
  | O => []
  | S n' => let '(x, σ') := rng σ in x :: draws rng n' σ'
  end.

Definition in_unit_interval (x : Q) : Prop := (0 <= x)%Q ∧ (x < 1)%Q.

(** A binary64 number: an integer of at most 53 bits scaled by a power of
    two in the exponent range.  An arithmetic operation whose exact result is
    such a number returns it. *)
Definition binary64 (x : Q) : Prop :=
  ∃ m e : Z, Z.abs m < 2 ^ 53 ∧ -1074 ≤ e ≤ 971
             ∧ (x == inject_Z m * Qpower 2 e)%Q.

Definition position (i : Z) : Prop := 0 ≤ i < 16.

Fixpoint adjacent_chain (p : list Z) : Prop :=
  match p with
  | [] => True
  | a :: p' =>
      match p' with
      | [] => True
      | b :: _ => isAdjacent a b = true ∧ adjacent_chain p'
      end
  end.

(** A path: distinct positions, each adjacent to the one before it. *)
Record is_path (p : list Z) : Prop := {
  path_positions : Forall position p;
  path_distinct : NoDup p;
  path_adjacent : adjacent_chain p;
}.

(** The letters of the tiles along a path, in order. *)
Definition spell (grid : Grid) (p : list Z) : jsstring :=
  concat ((λ i, toString (grid_get grid i)) <$> p).

Definition traceable (grid : Grid) (w : jsstring) : Prop :=
  ∃ p, is_path p ∧ spell grid p = w.

(** Longer words first, words of one length in code-unit order. *)
Definition word_before (a b : jsstring) : Prop :=
  (length b < length a)%nat ∨ (length a = length b ∧ lex_compare a b = Lt).


(** Two generators that stay in step: related states give the same number
    and related states again. *)
Definition in_step {S1 S2} (R : S1 → S2 → Prop) (rng1 : Rng S1) (rng2 : Rng S2)
  : Prop :=
  ∀ a b, R a b → fst (rng1 a) = fst (rng2 b) ∧ R (snd (rng1 a)) (snd (rng2 b)).

Definition holds (r : nat) (σ : Store) (t : Z) : Prop := σ !! r = Some t.

(** A tile that generation can push without reading past the letter bag. *)
Definition defined_tile (tile : Tile) : Prop :=
  tile = Str (str "qu")
  ∨ ∃ idx s, 0 ≤ idx < 43 ∧ LETTER_BAG !! Z.to_nat idx = Some s ∧ tile = Str s.

(** What every accepted word satisfies. *)
Record accepted (d : Dictionary) (w : jsstring) : Prop := {
  accepted_length : (3 ≤ length w)%nat;
  accepted_letters : Forall is_az w;
  accepted_prefixes : ∀ i, (1 ≤ i ≤ length w)%nat → take i w ∈ prefixes d;
}.

Definition dictionary_ok (d : Dictionary) : Prop :=
  (∀ w, w ∈ words d → accepted d w) ∧ NoDup (words d).

Definition low16 (m : Z) : Prop := 0 ≤ m < 65536.

(** [mask] has exactly the bits of the positions in [p]. *)
Definition mask_of (mask : Z) (p : list Z) : Prop :=
  low16 mask ∧ ∀ n, position n → Z.testbit mask n = true ↔ n ∈ p.

(** A loop over an optional accumulator: once a round returns [None], so
    does the loop. *)
Definition fold_bind {A B : Type} (f : A → B → option A) (l : list B)
    (acc : option A) : option A :=
  fold_left (λ acc n, a ← acc; f a n) l acc.

(** A word the solver may report: in the word set, of three letters or more,
    and spelled by a path. *)
Definition findable (grid : Grid) (dict : JSSet.t) (w : jsstring) : Prop :=
  w ∈ dict ∧ (3 ≤ length w)%nat ∧ traceable grid w.

(** What a call of [dfs] does to the shared result set. *)
Record extends (grid : Grid) (dict : JSSet.t) (results out : JSSet.t) : Prop := {
  extends_keeps : results ⊆ out;
  extends_NoDup : NoDup results → NoDup out;
  extends_sound : ∀ w, w ∈ out → w ∈ results ∨ findable grid dict w;
}.

(** One round of the loop over the neighbours in [dfs]. *)
Definition dfs_next (grid : Grid) (dict prefixes : JSSet.t) (fuel : nat)
    (index nextMask : Z) (nextWord : jsstring) (results : JSSet.t) (n : Z)
  : option JSSet.t :=
  if JS.truthy (JS.band nextMask (JS.shl 1 n)) then Some results
  else if negb (isAdjacent index n) then Some results
  else dfs grid dict prefixes fuel n nextMask nextWord results.

(** The result set after [dfs] has tested [nextWord] against the word set. *)
Definition dfs_record (dict : JSSet.t) (nextWord : jsstring)
    (results : JSSet.t) : JSSet.t :=
  if (3 <=? Z.of_nat (length nextWord)) && JSSet.has dict nextWord
  then JSSet.add nextWord results
  else results.

(** ** Sample data *)

(** Three lines, the second with a capital and a hyphen, the third after a
    carriage return and a line feed. *)
Definition sampleText : jsstring :=
  str "cat" ++ [10] ++ str "Ca-ts" ++ [13; 10] ++ str " act ".

Definition sampleDictionary : Dictionary := @buildDictionary ascii_runtime sampleText.

(** The letters c, a, t, s on the first row, then x everywhere. *)
Definition sampleGrid : Grid :=
  Str <$> (str <$> ["c"; "a"; "t"; "s"; "x"; "x"; "x"; "x";
                    "x"; "x"; "x"; "x"; "x"; "x"; "x"; "x"]%string).

(** A run of the handlers over a list of events. *)
Definition run `{Runtime} (p : Page) (events : list Event) (g : Game) : Game :=
  fold_left (λ g e, handle p e g) events g.

(** The puzzle of one day with a dictionary of three words. *)
Definition playId : jsstring := str "2024-01-15-v1".

Definition playText : jsstring :=
  str "are" ++ [10] ++ str "ear" ++ [10] ++ str "bed".

Definition playDictionary : Dictionary := @buildDictionary ascii_runtime playText.

Definition playMemoized : option (Puzzle * Store) :=
  @playMemo ascii_runtime (Some playId) (Some (words playDictionary))
    (Some (prefixes playDictionary)) [].

Definition playPuzzle : Puzzle := from_option fst noPuzzle playMemoized.

Definition playStore : Store := from_option snd [] playMemoized.

Definition playSolver : SolverData :=
  default {| allWords := [] |} (solver playPuzzle).

Definition playPage : Page :=
  {| puzzle := playPuzzle; dictLoaded := true; gameReady := true;
     restoredResult := false |}.

(** The game started and the tiles a, r, e selected. *)
Definition playSelected : Game :=
  @run ascii_runtime playPage [Start; TileClick 2; TileClick 6; TileClick 5]
    initialGame.

(** The selection submitted. *)
Definition playSubmitted : Game := @run ascii_runtime playPage [Submit] playSelected.

(** ** A host with another collation *)





(** ** The stored result and the restore effect *)

(** A result as the page keeps it in storage under the key of the puzzle,
    typed as the interface [GameResult] declares it.  What is read back may
    lack its [submissions]. *)
Module GameResult.
Record t : Type := {
  score : Z;
  foundWords : list jsstring;
  submissions : option (list Submission);
}.
End GameResult.

(** What the restore effect finds under the key of the puzzle: nothing; an
    item that does not parse, or that has no numeric score or no array of
    found words; or a result it takes. *)
Inductive Stored : Type :=
  | no_item
  | unusable
  | usable (r : GameResult.t).

(** The restore effect on the state of the game.  It runs when the name has
    been entered and the puzzle is known, before anything can start a
    game. *)
Definition restore (stored : Stored) (g : Game) : Game :=
  match stored with
  | no_item =>
      {| selected := selected g; score := score g; foundWords := foundWords g;
         submissions := submissions g; timeLeft := timeLeft g;
         running := false; finished := false |}
  | unusable =>
      {| selected := selected g; score := score g; foundWords := foundWords g;
         submissions := submissions g; timeLeft := timeLeft g;
         running := running g; finished := false |}
  | usable r =>
      {| selected := selected g;
         score := GameResult.score r;
         foundWords := JSSet.from_array (GameResult.foundWords r);
         submissions := default [] (GameResult.submissions r);
         timeLeft := timeLeft g;
         running := false; finished := true |}
  end.

(** Whether the effect leaves a result in [restoredResult]. *)
Definition restored (stored : Stored) : bool :=
  match stored with
  | usable _ => true
  | _ => false
  end.

(** The states of a visit of the page: the restore effect runs once, on the
    first state, and the handlers and the timer follow; [restoredResult] is
    what the effect has left.  The states of [reachable] are those of a
    visit that restores nothing. *)
Inductive visited `{Runtime} (p : Page) (stored : Stored) : Game → Prop :=
  | visited_restore :
      restoredResult p = restored stored →
      visited p stored (restore stored initialGame)
  | visited_step g e : visited p stored g → visited p stored (handle p e g).

(** A result in storage with a score of 3, one found word and no
    submissions. *)
Definition playStored : GameResult.t :=
  {| GameResult.score := 3; GameResult.foundWords := [str "bed"];
     GameResult.submissions := None |}.


(** ** Notions for the further properties *)

(** A host whose [toLowerCase] leaves lower-case ASCII words as they are. *)
Definition fixes_lowercase `{Runtime} : Prop :=
  ∀ s, Forall is_az s → toLowerCase s = s.

(** The lines of a word list written out with a line separator. *)
Fixpoint join_lines (sep : jsstring) (lines : list jsstring) : jsstring :=
  match lines with
  | [] => []
  | [line] => line
  | line :: rest => line ++ sep ++ join_lines sep rest
  end.

(** A line separator: a line feed, alone or after a carriage return. *)
Definition line_separator (sep : jsstring) : Prop := sep = [10] ∨ sep = [13; 10].

(** A word as the index keeps it: lower-case letters, three or more. *)
Definition clean_word (w : jsstring) : Prop :=
  Forall is_az w ∧ (3 ≤ length w)%nat.

#[global] Instance clean_word_dec w : Decision (clean_word w).
Proof. unfold clean_word. apply _. Defined.

(** The state of a generator after [k] calls. *)
Fixpoint advance {St} (rng : Rng St) (k : nat) (σ : St) : St :=
  match k with
  | O => σ
  | S k' => advance rng k' (snd (rng σ))
  end.

(** The number of [qu] tiles of a grid. *)
Definition qu_count (grid : Grid) : nat :=
  length (filter (λ tile, tile = Str (str "qu")) grid).

(** One letter a-z other than q. *)
Definition plain_letter (s : jsstring) : bool :=
  match s with
  | [c] => bool_decide (is_az c ∧ c ≠ 113)
  | _ => false
  end.

(** A tile as generation makes them: [qu], or one letter other than q. *)
Definition letter_tile (tile : Tile) : Prop :=
  tile = Str (str "qu") ∨ ∃ c, tile = Str [c] ∧ is_az c ∧ c ≠ 113.

(** The offsets the solver lists as [dirs]. *)
Definition dirs : list Z := [-5; -4; -3; -1; 1; 3; 4; 5].

(** An event the page can raise: a click is on a tile of the grid. *)
Definition grid_event (e : Event) : Prop :=
  match e with
  | TileClick index => position index
  | _ => True
  end.

#[global] Instance Status_eq_dec : EqDecision Status.
Proof. solve_decision. Defined.

#[global] Instance Event_eq_dec : EqDecision Event.
Proof. solve_decision. Defined.

(** The points of a set of found words: for each word its length less 2. *)
Definition found_points (found : list jsstring) : Z :=
  foldr (λ w acc, Z.of_nat (length w) - 2 + acc) 0 found.

(** The words of the submissions recorded as new, oldest first. *)
Definition new_words (subs : list Submission) : list jsstring :=
  rev (word <$> filter (λ s, status s = new) subs).

(** The number of timer periods among some events. *)
Definition ticks (events : list Event) : Z :=
  Z.of_nat (length (filter (λ e, e = Tick) events)).

(** ** Notions for the course of a game *)

(** The score replayed from the submissions, which are kept newest first:
    each delta added in turn, the sum kept at 0 or above. *)
Definition replay (subs : list Submission) : Z :=
  foldr (λ sub acc, Z.max 0 (acc + delta sub)) 0 subs.

(** A submission as [handleSubmit] records them: a new word of three letters
    or more earns its length less 2, anything else costs a point. *)
Definition well_scored (sub : Submission) : Prop :=
  match status sub with
  | new => (3 ≤ length (word sub))%nat
           ∧ delta sub = Z.of_nat (length (word sub)) - 2
  | _ => delta sub = -1
  end.

(** What the score, the found words and the submissions keep between them. *)
Record consistent (g : Game) : Prop := {
  consistent_score : score g = replay (submissions g);
  consistent_found : foundWords g = new_words (submissions g);
  consistent_distinct : NoDup (foundWords g);
  consistent_scored : Forall well_scored (submissions g);
}.

(** The clock of a game: whether it runs, whether it is over, and the
    seconds left. *)
Definition clock (g : Game) : bool * bool * Z :=
  (running g, finished g, timeLeft g).

(** The game of the sample puzzle after sixty periods of the timer. *)
Definition playFinished : Game :=
  @run ascii_runtime playPage (replicate 60 Tick) playSubmitted.

(** The grid of the sample puzzle. *)
Definition playGrid : Grid := default [] (grid playPuzzle).

(** The calls of the source behind the tiles of a grid: one for a [qu]
    tile, two for any other. *)
Definition calls (grid : Grid) : nat :=
  foldr (λ (tile : Tile) n,
           ((if decide (tile = Str (str "qu")) then 1 else 2) + n)%nat)
        0%nat grid.

(** The tile at position [i] of [grid] is the one the draws of its position
    give.  The first draw of the position is made in the state [σi] of the
    source after the calls behind the tiles before [i]: the tile is [qu] when
    that draw is below 0.08, and otherwise the entry of the letter bag at
    the floor of the product of the second draw with 43, an index from 0 to
    42. *)
Definition drawn {St} (rng : Rng St) (σ : St) (grid : Grid) (i : nat) : Prop :=
  let σi := advance rng (calls (take i grid)) σ in
  let x := fst (rng σi) in
  let y := fst (rng (snd (rng σi))) in
  let idx := Qfloor (fmul y (inject_Z 43)) in
  ((x < quChance)%Q → grid !! i = Some (Str (str "qu")))
  ∧ (¬ (x < quChance)%Q →
     0 ≤ idx < 43
     ∧ ∃ s, LETTER_BAG !! Z.to_nat idx = Some s ∧ grid !! i = Some (Str s)).

(** * Properties *)

(** A decidable statement about given data, settled by evaluation. *)
Ltac by_computation :=
  match goal with
  | |- ?P => apply (bool_decide_eq_true_1 P); vm_compute; reflexivity
  end.

(** ** Adjacency *)

Lemma position_cases (n : Z) :
  position n → n ∈ positions.
Proof.
  unfold position, positions. intros Hn. apply elem_of_seqZ. lia.
Qed.

Lemma positions_position (n : Z) : n ∈ positions → position n.
Proof.
  unfold position, positions. intros Hn. apply elem_of_seqZ in Hn. lia.
Qed.

(** C7: on the positions 0..15, [isAdjacent a b] holds exactly when [a] and
    [b] differ and the larger of the row distance and the column distance is
    1; it is symmetric and irreflexive. *)
Theorem isAdjacent_chebyshev (a b : Z) :
  position a → position b →
  (isAdjacent a b = true ↔
     a ≠ b ∧ Z.max (Z.abs (a / 4 - b / 4)) (Z.abs (a mod 4 - b mod 4)) = 1)
  ∧ isAdjacent a b = isAdjacent b a
  ∧ isAdjacent a a = false.
Proof.
  intros Ha Hb. unfold position in *.
  assert (Hra : Z.rem a 4 = a mod 4) by (apply Z.rem_mod_nonneg; lia).
  assert (Hrb : Z.rem b 4 = b mod 4) by (apply Z.rem_mod_nonneg; lia).
  unfold isAdjacent, indexToCoord; cbn [row col].
  rewrite Hra, Hrb.
  pose proof (Z.div_mod a 4 ltac:(lia)) as Ea.
  pose proof (Z.div_mod b 4 ltac:(lia)) as Eb.
  pose proof (Z.mod_pos_bound a 4 ltac:(lia)) as Ma.
  pose proof (Z.mod_pos_bound b 4 ltac:(lia)) as Mb.
  split; [split|split].
  - intros H. destruct (_ && _) eqn:E; [discriminate|].
    apply andb_false_iff in E. apply Z.eqb_eq in H. split; [|exact H].
    intros ->. rewrite !Z.sub_diag in E. destruct E; discriminate.
  - intros [Hne Hmax]. destruct (_ && _) eqn:E.
    + apply andb_true_iff in E as [E1 E2]. lia.
    + apply Z.eqb_eq. exact Hmax.
  - replace (b / 4 - a / 4) with (- (a / 4 - b / 4)) by lia.
    replace (b mod 4 - a mod 4) with (- (a mod 4 - b mod 4)) by lia.
    rewrite !Z.abs_opp. reflexivity.
  - rewrite !Z.sub_diag. reflexivity.
Qed.

Lemma isAdjacent_chebyshev_witness :
  (position 5 ∧ position 10)
  ∧ ((isAdjacent 5 10 = true ↔
        5 ≠ 10 ∧ Z.max (Z.abs (5 / 4 - 10 / 4)) (Z.abs (5 mod 4 - 10 mod 4)) = 1)
     ∧ isAdjacent 5 10 = isAdjacent 10 5
     ∧ isAdjacent 5 5 = false).
Proof.
  split.
  - unfold position. split; lia.
  - apply (isAdjacent_chebyshev 5 10); unfold position; lia.
Defined.

(** ** The 32-bit operators *)

Lemma ToUint32_range (x : Z) : 0 ≤ JS.ToUint32 x < JS.two32.
Proof. unfold JS.ToUint32, JS.two32. apply Z.mod_pos_bound. lia. Qed.

Lemma ToInt32_range (x : Z) : - JS.two31 ≤ JS.ToInt32 x < JS.two31.
Proof.
  unfold JS.ToInt32.
  pose proof (ToUint32_range x) as H. unfold JS.ToUint32 in H.
  unfold JS.two31, JS.two32 in *.
  destruct (_ <=? _) eqn:E; lia.
Qed.

Lemma ToInt32_small (x : Z) : 0 ≤ x < JS.two31 → JS.ToInt32 x = x.
Proof.
  intros H. unfold JS.ToInt32, JS.two31, JS.two32 in *.
  rewrite Z.mod_small by lia.
  destruct (_ <=? _) eqn:E; lia.
Qed.

Lemma ushr_range (a n : Z) : 0 ≤ JS.ushr a n < JS.two32.
Proof. apply ToUint32_range. Qed.

(** ** Seed and generator *)

Lemma hashStringToSeed_uint32 (s : jsstring) :
  0 ≤ hashStringToSeed s < 4294967296.
Proof. unfold hashStringToSeed. apply ushr_range. Qed.

Lemma mulberry32_call_range (t : Z) : in_unit_interval (fst (mulberry32_call t)).
Proof.
  unfold mulberry32_call.
  destruct (mulberry32_step t) as [t' u] eqn:E. cbn [fst].
  assert (Hu : 0 ≤ u < 4294967296).
  { unfold mulberry32_step in E. injection E as _ <-. apply ushr_range. }
  unfold in_unit_interval, Qle, Qlt. cbn. lia.
Qed.

(** The numbers of the generator and their products with the length of the
    letter bag are binary64 numbers: the quotient by 2^32 and the product
    with 43 lose nothing. *)
Lemma mulberry32_call_exact (t : Z) :
  binary64 (fst (mulberry32_call t))
  ∧ binary64 (fst (mulberry32_call t) * inject_Z (Z.of_nat (length LETTER_BAG))).
Proof.
  unfold mulberry32_call.
  destruct (mulberry32_step t) as [t' u] eqn:E. cbn [fst].
  assert (Hu : 0 ≤ u < 4294967296).
  { unfold mulberry32_step in E. injection E as _ <-. apply ushr_range. }
  change (Z.of_nat (length LETTER_BAG)) with 43.
  split.
  - exists u, (-32). split; [lia|]. split; [lia|].
    change (Qpower 2 (-32)) with (1 # 4294967296)%Q.
    unfold Qeq. cbn. lia.
  - exists (u * 43), (-32). split; [lia|]. split; [lia|].
    change (Qpower 2 (-32)) with (1 # 4294967296)%Q.
    unfold Qeq. cbn. lia.
Qed.

Lemma closure_call_range (r : nat) (σ : Store) :
  in_unit_interval (fst (closure_call r σ)).
Proof.
  unfold closure_call. destruct (σ !! r) as [t|].
  - pose proof (mulberry32_call_range t) as H.
    destruct (mulberry32_call t). exact H.
  - cbn. unfold in_unit_interval, Qle, Qlt. cbn. lia.
Qed.

Lemma draws_range {St} (rng : Rng St) :
  (∀ σ, in_unit_interval (fst (rng σ))) →
  ∀ n σ, Forall in_unit_interval (draws rng n σ).
Proof.
  intros Hrng n. induction n as [|n IH]; intros σ; cbn.
  - constructor.
  - specialize (Hrng σ). destruct (rng σ) as [x σ']. constructor; auto.
Qed.

(** *** Closures and the store *)

Lemma closure_call_in_step (r : nat) :
  in_step (holds r) (closure_call r) mulberry32_call.
Proof.
  intros σ t Hcell. unfold holds in *. unfold closure_call. rewrite Hcell.
  destruct (mulberry32_call t) as [x t']. cbn [fst snd]. split; [reflexivity|].
  apply list_lookup_insert_eq. eapply lookup_lt_Some; eauto.
Qed.

Lemma mulberry32_holds (seed : Z) (σ : Store) :
  holds (length σ) (snd (mulberry32 seed σ)) (mulberry32_init seed).
Proof.
  unfold holds, mulberry32. cbn [snd].
  apply list_lookup_middle. reflexivity.
Qed.

Section InStep.
Context {S1 S2 : Type} (R : S1 → S2 → Prop).
Context (rng1 : Rng S1) (rng2 : Rng S2).
Hypothesis Hstep : in_step R rng1 rng2.

Lemma draws_in_step (n : nat) :
  ∀ a b, R a b → draws rng1 n a = draws rng2 n b.
Proof.
  induction n as [|n IH]; intros a b Hab; cbn; [reflexivity|].
  destruct (Hstep a b Hab) as [Hx Hs].
  destruct (rng1 a) as [x a'], (rng2 b) as [y b']. cbn [fst snd] in *.
  subst y. f_equal. apply IH, Hs.
Qed.

Lemma generateTile_in_step (a : S1) (b : S2) :
  R a b →
  fst (generateTile rng1 a) = fst (generateTile rng2 b)
  ∧ R (snd (generateTile rng1 a)) (snd (generateTile rng2 b)).
Proof.
  intros Hab. unfold generateTile.
  destruct (Hstep a b Hab) as [Hx Hs].
  destruct (rng1 a) as [x a'], (rng2 b) as [x' b']. cbn [fst snd] in *.
  subst x'. destruct (Qltb x quChance); [split; [reflexivity|exact Hs]|].
  destruct (Hstep a' b' Hs) as [Hy Hs'].
  destruct (rng1 a') as [y a''], (rng2 b') as [y' b'']. cbn [fst snd] in *.
  subst y'. split; [reflexivity|exact Hs'].
Qed.

Lemma generateGrid_loop_in_step (n : nat) :
  ∀ grid a b, R a b →
    fst (generateGrid_loop rng1 n grid a) = fst (generateGrid_loop rng2 n grid b).
Proof.
  induction n as [|n IH]; intros grid a b Hab; cbn; [reflexivity|].
  destruct (generateTile_in_step a b Hab) as [Ht Hs].
  destruct (generateTile rng1 a) as [t a'], (generateTile rng2 b) as [t' b'].
  cbn [fst snd] in *. subst t'. apply IH, Hs.
Qed.
End InStep.

(** The grid of an identifier, whatever closures the store already holds, is
    the grid the generator yields from the seed of that identifier. *)
Lemma puzzleGrid_pure (id : jsstring) (σ : Store) :
  fst (puzzleGrid id σ)
  = fst (generateGrid mulberry32_call (mulberry32_init (hashStringToSeed id))).
Proof.
  unfold puzzleGrid, generateGrid.
  pose proof (mulberry32_holds (hashStringToSeed id) σ) as Hcell.
  unfold mulberry32 in *. cbn [snd] in Hcell.
  eapply generateGrid_loop_in_step; [apply closure_call_in_step|exact Hcell].
Qed.

Lemma generateGrid_loop_length {St} (rng : Rng St) (n : nat) :
  ∀ grid σ, length (fst (generateGrid_loop rng n grid σ)) = (length grid + n)%nat.
Proof.
  induction n as [|n IH]; intros grid σ; cbn; [lia|].
  destruct (generateTile rng σ) as [t σ']. rewrite IH, length_app. cbn. lia.
Qed.

(** C1: the seed of an identifier is a 32-bit unsigned integer fixed by the
    identifier, and the grid generated for it has sixteen tiles and is the
    same in every evaluation: it does not depend on the closures created and
    advanced before, in particular not on an earlier evaluation of the same
    pipeline. *)
Theorem puzzleGrid_deterministic (id : jsstring) (σ1 σ2 : Store) :
  0 ≤ hashStringToSeed id < 4294967296
  ∧ fst (puzzleGrid id σ1) = fst (puzzleGrid id σ2)
  ∧ fst (puzzleGrid id (snd (puzzleGrid id σ1))) = fst (puzzleGrid id σ1)
  ∧ length (fst (puzzleGrid id σ1)) = 16%nat.
Proof.
  split; [apply hashStringToSeed_uint32|].
  split; [rewrite !puzzleGrid_pure; reflexivity|].
  split; [rewrite !puzzleGrid_pure; reflexivity|].
  rewrite puzzleGrid_pure. unfold generateGrid.
  rewrite generateGrid_loop_length. reflexivity.
Qed.

Lemma draws_length {St} (rng : Rng St) (n : nat) :
  ∀ σ, length (draws rng n σ) = n.
Proof.
  induction n as [|n IH]; intros σ; cbn; [reflexivity|].
  destruct (rng σ). cbn. f_equal. apply IH.
Qed.

(** C9: every number the closure of [mulberry32 seed] returns lies in
    [0, 1), for every seed and every number of calls; the numbers are those
    the step function yields from [seed || 1]. *)
Theorem mulberry32_range (seed : Z) (σ : Store) (n : nat) :
  let rng := fst (mulberry32 seed σ) in
  let σ' := snd (mulberry32 seed σ) in
  Forall in_unit_interval (draws rng n σ')
  ∧ length (draws rng n σ') = n
  ∧ draws rng n σ' = draws mulberry32_call n (mulberry32_init seed).
Proof.
  intros rng σ'. split; [|split].
  - apply draws_range. intros σ0. apply closure_call_range.
  - apply draws_length.
  - eapply draws_in_step; [apply closure_call_in_step|].
    apply mulberry32_holds.
Qed.

(** ** Binary64 rounding *)

Lemma pow2_pos (e : Z) : (0 < Qpower 2 e)%Q.
Proof. apply Qpower_0_lt. reflexivity. Qed.

Lemma pow2_inject (e : Z) : 0 ≤ e → (Qpower 2 e == inject_Z (2 ^ e))%Q.
Proof. intros He. symmetry. apply (Zpower_Qpower 2 e He). Qed.

Lemma pow2_add (a b : Z) : (Qpower 2 (a + b) == Qpower 2 a * Qpower 2 b)%Q.
Proof. apply Qpower_plus. discriminate. Qed.

Lemma pow2_le (a b : Z) : a ≤ b → (Qpower 2 a <= Qpower 2 b)%Q.
Proof. intros H. apply Qpower_le_compat_l; [exact H|discriminate]. Qed.

Lemma pow2_lt_inv (a b : Z) : (Qpower 2 a < Qpower 2 b)%Q → a < b.
Proof. intros H. apply (Qpower_lt_compat_l_inv 2); [exact H|reflexivity]. Qed.

(** A positive fraction lies between the powers of two next to the
    difference of the binary lengths of its numerator and denominator. *)
Lemma Qlog2_bounds (x : Q) :
  (0 < x)%Q →
  let e := Z.log2 (Qnum x) - Z.log2 (Zpos (Qden x)) in
  (Qpower 2 (e - 1) <= x)%Q ∧ (x < Qpower 2 (e + 1))%Q.
Proof.
  intros Hx e. destruct x as [n d]. cbn [Qnum Qden] in e.
  assert (Hn : 0 < n) by (unfold Qlt in Hx; cbn in Hx; lia).
  pose proof (Z.log2_spec n Hn) as Ha.
  pose proof (Z.log2_spec (Zpos d) (Pos2Z.is_pos d)) as Hb.
  pose proof (Z.log2_nonneg n) as Ha0.
  pose proof (Z.log2_nonneg (Zpos d)) as Hb0.
  set (a := Z.log2 n) in *. set (b := Z.log2 (Zpos d)) in *.
  assert (Hpa : 0 < 2 ^ a) by (apply Z.pow_pos_nonneg; lia).
  assert (Hpb : 0 < 2 ^ b) by (apply Z.pow_pos_nonneg; lia).
  rewrite (Z.pow_succ_r 2 a Ha0) in Ha. rewrite (Z.pow_succ_r 2 b Hb0) in Hb.
  clearbody a b.
  split.
  - replace (e - 1) with (a + - (b + 1)) by (unfold e; lia).
    rewrite pow2_add, Qpower_opp, (pow2_inject a Ha0), (pow2_inject (b + 1)) by lia.
    apply Qle_shift_div_r.
    + rewrite <- (pow2_inject (b + 1)) by lia. apply pow2_pos.
    + rewrite Z.add_1_r, (Z.pow_succ_r 2 b Hb0).
      unfold Qle, Qmult, inject_Z. cbn [Qnum Qden].
      rewrite Pos.mul_1_r. nia.
  - replace (e + 1) with ((a + 1) + - b) by (unfold e; lia).
    rewrite pow2_add, Qpower_opp, (pow2_inject (a + 1)), (pow2_inject b Hb0) by lia.
    apply Qlt_shift_div_l.
    + rewrite <- (pow2_inject b Hb0). apply pow2_pos.
    + rewrite Z.add_1_r, (Z.pow_succ_r 2 a Ha0).
      unfold Qlt, Qmult, inject_Z. cbn [Qnum Qden].
      rewrite Pos.mul_1_r. nia.
Qed.

(** [Qlog2 x] is the integer [e] with [2^e <= x < 2^(e+1)]. *)
Lemma Qlog2_spec (x : Q) :
  (0 < x)%Q → (Qpower 2 (Qlog2 x) <= x)%Q ∧ (x < Qpower 2 (Qlog2 x + 1))%Q.
Proof.
  intros Hx. destruct (Qlog2_bounds x Hx) as [Hlo Hhi]. unfold Qlog2.
  set (e := Z.log2 (Qnum x) - Z.log2 (Zpos (Qden x))) in *.
  destruct (Qle_bool (Qpower 2 e) x) eqn:E.
  - apply Qle_bool_iff in E. auto.
  - split; [exact Hlo|]. replace (e - 1 + 1) with e by lia.
    apply Qnot_le_lt. intros H. apply Qle_bool_iff in H. congruence.
Qed.

Lemma round_half_even_near (q : Q) :
  (q - (1 # 2) <= inject_Z (round_half_even q))%Q
  ∧ (inject_Z (round_half_even q) <= q + (1 # 2))%Q.
Proof.
  unfold round_half_even.
  pose proof (Qfloor_le q) as Hlo. pose proof (Qlt_floor q) as Hhi.
  set (f := Qfloor q) in *. rewrite inject_Z_plus in Hhi.
  change (inject_Z 1) with 1%Q in Hhi.
  destruct (q - inject_Z f ?= 1 # 2)%Q eqn:E.
  - apply Qeq_alt in E. destruct (Z.even f).
    + split; lra.
    + rewrite inject_Z_plus. change (inject_Z 1) with 1%Q. split; lra.
  - apply Qlt_alt in E. split; lra.
  - apply Qgt_alt in E. rewrite inject_Z_plus. change (inject_Z 1) with 1%Q.
    split; lra.
Qed.

Lemma round_half_even_Z (q : Q) (k : Z) :
  (q == inject_Z k)%Q → round_half_even q = k.
Proof.
  intros Hq. unfold round_half_even.
  assert (Hf : Qfloor q = k) by (rewrite Hq; apply Qfloor_Z).
  rewrite Hf. destruct (q - inject_Z k ?= 1 # 2)%Q eqn:E.
  - apply Qeq_alt in E. lra.
  - reflexivity.
  - apply Qgt_alt in E. lra.
Qed.

(** The error of rounding is at most half a unit in the last place. *)
Lemma round64_near (x : Q) :
  (x - Qpower 2 (ulp_exp x) * (1 # 2) <= round64 x)%Q
  ∧ (round64 x <= x + Qpower 2 (ulp_exp x) * (1 # 2))%Q.
Proof.
  pose proof (pow2_pos (ulp_exp x)) as Hs. unfold round64.
  destruct (Qeq_bool x 0) eqn:E.
  - apply Qeq_bool_iff in E. split; lra.
  - set (s := Qpower 2 (ulp_exp x)) in *.
    destruct (round_half_even_near (x / s)) as [Hlo Hhi].
    set (r := inject_Z (round_half_even (x / s))) in *.
    assert (Hq : (x / s * s == x)%Q) by (field; lra).
    split.
    + apply (Qmult_le_compat_r _ _ s) in Hlo; [|lra].
      assert (Hd : ((x / s - (1 # 2)) * s == x - s * (1 # 2))%Q) by (field; lra).
      lra.
    + apply (Qmult_le_compat_r _ _ s) in Hhi; [|lra].
      assert (Hd : ((x / s + (1 # 2)) * s == x + s * (1 # 2))%Q) by (field; lra).
      lra.
Qed.

Lemma Qabs_nonneg_eq (x : Q) : (0 <= x)%Q → Qabs x = x.
Proof.
  destruct x as [n d]. unfold Qle, Qabs. cbn. intros H.
  rewrite Z.abs_eq by lia. reflexivity.
Qed.

(** Below [2^k] the unit in the last place is at most [2^(k-53)]. *)
Lemma ulp_exp_below (x : Q) (k : Z) :
  (0 < x)%Q → (x < Qpower 2 k)%Q → -1021 ≤ k → ulp_exp x ≤ k - 53.
Proof.
  intros Hx Hk Hmin. unfold ulp_exp. rewrite (Qabs_nonneg_eq x) by lra.
  destruct (Qlog2_spec x Hx) as [Hlo _].
  assert (Hlt : Qlog2 x < k).
  { apply pow2_lt_inv. lra. }
  lia.
Qed.

(** A binary64 number rounds to itself. *)
Lemma round64_exact (x : Q) : binary64 x → (round64 x == x)%Q.
Proof.
  intros (m & e & Hm & He & Hx). unfold round64.
  destruct (Qeq_bool x 0) eqn:Eb; [apply Qeq_bool_iff in Eb; lra|].
  assert (Hnz : ¬ (x == 0)%Q).
  { intros Hz. apply Qeq_bool_iff in Hz. congruence. }
  assert (Habs : (0 < Qabs x)%Q).
  { destruct (Q_dec x 0) as [[Hneg|Hpos]|Hz]; [| |contradiction].
    - apply Qabs_case; intros; lra.
    - apply Qabs_case; intros; lra. }
  destruct (Qlog2_spec (Qabs x) Habs) as [Hlo _].
  pose proof (pow2_pos e) as Hpe.
  assert (Hu : ulp_exp x ≤ e).
  { unfold ulp_exp. apply Z.max_lub; [|lia].
    assert (Hlt : Qlog2 (Qabs x) < 53 + e); [|lia].
    apply pow2_lt_inv. eapply Qle_lt_trans; [exact Hlo|].
    rewrite Hx, Qabs_Qmult, (Qabs_pos (Qpower 2 e)) by lra.
    rewrite pow2_add. apply Qmult_lt_compat_r; [exact Hpe|].
    change (Qpower 2 53) with (inject_Z (2 ^ 53)).
    change (Qabs (inject_Z m)) with (inject_Z (Z.abs m)).
    rewrite <- Zlt_Qlt. exact Hm. }
  set (u := ulp_exp x) in *. pose proof (pow2_pos u) as Hpu.
  assert (Hq : (x / Qpower 2 u == inject_Z (m * 2 ^ (e - u)))%Q).
  { rewrite inject_Z_mult, <- (pow2_inject (e - u)) by lia.
    rewrite Hx. unfold Z.sub. rewrite pow2_add, Qpower_opp. field. lra. }
  rewrite (round_half_even_Z _ _ Hq).
  rewrite inject_Z_mult, <- (pow2_inject (e - u)) by lia.
  rewrite Hx. unfold Z.sub. rewrite pow2_add, Qpower_opp. field. lra.
Qed.

(** Between two neighbours on the grid of step [2^-k] that are at least
    [2^52] steps from 0 there is no binary64 number: one below [N * 2^-k] is
    at most [(N - 1) * 2^-k]. *)
Lemma binary64_step (x : Q) (N k : Z) :
  2 ^ 52 ≤ N - 1 → binary64 x →
  (x < inject_Z N * Qpower 2 (- k))%Q →
  (x <= inject_Z (N - 1) * Qpower 2 (- k))%Q.
Proof.
  intros HN (m & e & Hm & He & Hx) Hlt. rewrite Hx in *. clear Hx.
  pose proof (pow2_pos e) as Hs. pose proof (pow2_pos (- k)) as Hk.
  destruct (Z.le_gt_cases (- k) e) as [Hbig|Hsmall].
  - assert (Hm2 : (inject_Z m * Qpower 2 e
                   == inject_Z (m * 2 ^ (e + k)) * Qpower 2 (- k))%Q).
    { rewrite inject_Z_mult, <- (pow2_inject (e + k)) by lia.
      replace e with ((e + k) + - k) at 1 by lia.
      rewrite pow2_add. ring. }
    rewrite Hm2 in *. set (K := m * 2 ^ (e + k)) in *.
    apply Qmult_lt_r in Hlt; [|exact Hk].
    apply Qmult_le_compat_r; [|lra].
    rewrite <- Zlt_Qlt in Hlt. rewrite <- Zle_Qle. lia.
  - assert (Hp : (Qpower 2 e <= Qpower 2 (- k - 1))%Q) by (apply pow2_le; lia).
    assert (Hhalf : (Qpower 2 (- k - 1) * inject_Z 2 == Qpower 2 (- k))%Q).
    { replace (- k) with ((- k - 1) + 1) at 2 by lia. rewrite pow2_add.
      change (Qpower 2 1) with (inject_Z 2). reflexivity. }
    assert (Hm' : (inject_Z m <= inject_Z (2 ^ 53))%Q)
      by (rewrite <- Zle_Qle; lia).
    assert (HN' : (inject_Z (2 ^ 52) <= inject_Z (N - 1))%Q)
      by (rewrite <- Zle_Qle; exact HN).
    change (inject_Z (2 ^ 53)) with (9007199254740992 # 1)%Q in Hm'.
    change (inject_Z (2 ^ 52)) with (4503599627370496 # 1)%Q in HN'.
    change (inject_Z 2) with (2 # 1)%Q in Hhalf.
    set (s := Qpower 2 (- k - 1)) in *. set (t := Qpower 2 (- k)) in *.
    assert (Hs1 : (0 < s)%Q) by apply pow2_pos.
    apply Qle_trans with ((4503599627370496 # 1) * t)%Q;
      [|apply Qmult_le_compat_r; lra].
    destruct (Qlt_le_dec (inject_Z m) 0) as [Hneg|Hpos].
    + apply Qle_trans with 0%Q.
      * rewrite <- (Qmult_0_l (Qpower 2 e)). apply Qmult_le_compat_r; lra.
      * apply Qmult_le_0_compat; lra.
    + apply Qle_trans with (inject_Z m * s)%Q.
      * rewrite !(Qmult_comm (inject_Z m)). apply Qmult_le_compat_r; lra.
      * apply Qle_trans with ((9007199254740992 # 1) * s)%Q.
        -- apply Qmult_le_compat_r; lra.
        -- rewrite <- Hhalf. lra.
Qed.

(** A binary64 number below 1 is at most [1 - 2^-53]. *)
Lemma binary64_below_one (y : Q) :
  binary64 y → (y < 1)%Q → (y <= 1 - (1 # 9007199254740992))%Q.
Proof.
  intros Hy H1.
  pose proof (binary64_step y (2 ^ 53) 53 ltac:(lia) Hy) as Hstep.
  change (Qpower 2 (Z.opp 53)) with (1 # 9007199254740992)%Q in Hstep.
  change (inject_Z (2 ^ 53)) with (9007199254740992 # 1)%Q in Hstep.
  change (inject_Z (2 ^ 53 - 1)) with (9007199254740991 # 1)%Q in Hstep.
  lra.
Qed.

(** ** Grid generation *)

Lemma Qltb_lt (x y : Q) : Qltb x y = true ↔ (x < y)%Q.
Proof.
  unfold Qltb. rewrite negb_true_iff, <- not_true_iff_false, Qle_bool_iff.
  split; [apply Qnot_le_lt|apply Qlt_not_le].
Qed.

Lemma LETTER_BAG_length : length LETTER_BAG = 43%nat.
Proof. reflexivity. Qed.

(** The index into the letter bag is in bounds: the product of a binary64
    number below 1 with 43 is at most 43 - 43 * 2^-53, more than half a unit
    in the last place below 43, so it rounds to a number below 43. *)
Lemma bag_index_range (y : Q) :
  in_unit_interval y → binary64 y →
  0 ≤ Qfloor (fmul y (inject_Z (Z.of_nat (length LETTER_BAG)))) < 43.
Proof.
  intros [H0 H1] Hbin. pose proof (binary64_below_one y Hbin H1) as Hy.
  rewrite LETTER_BAG_length. change (inject_Z (Z.of_nat 43)) with (43 # 1)%Q.
  unfold fmul. set (x := (y * (43 # 1))%Q).
  assert (Hx0 : (0 <= x)%Q) by (unfold x; lra).
  assert (Hx1 : (x <= 43 - (43 # 9007199254740992))%Q) by (unfold x; lra).
  destruct (round64_near x) as [Hlo Hhi].
  assert (Hround : (0 <= round64 x)%Q ∧ (round64 x < 43)%Q).
  { destruct (Qeq_dec x 0) as [Hz|Hnz].
    - unfold round64. rewrite (proj2 (Qeq_bool_iff x 0) Hz). split; lra.
    - assert (Hpos : (0 < x)%Q) by lra.
      assert (Hu : ulp_exp x ≤ -47).
      { apply (ulp_exp_below x 6 Hpos); [|lia].
        change (Qpower 2 6) with (64 # 1)%Q. lra. }
      pose proof (pow2_le _ _ Hu) as Hs.
      change (Qpower 2 (-47)) with (1 # 140737488355328)%Q in Hs.
      pose proof (pow2_pos (ulp_exp x)) as Hs0.
      split; [|lra].
      unfold round64.
      destruct (Qeq_bool x 0) eqn:Eb; [exfalso; apply Hnz, Qeq_bool_iff, Eb|].
      apply Qmult_le_0_compat; [|lra].
      destruct (round_half_even_near (x / Qpower 2 (ulp_exp x))) as [Hr _].
      assert (Hq : (0 <= x / Qpower 2 (ulp_exp x))%Q).
      { apply Qle_shift_div_l; lra. }
      change 0%Q with (inject_Z 0). rewrite <- Zle_Qle.
      apply Z.lt_succ_r, Z.nle_gt. intros Hneg.
      assert (Hr' : (inject_Z (round_half_even (x / Qpower 2 (ulp_exp x)))
                     <= inject_Z (-1))%Q) by (rewrite <- Zle_Qle; lia).
      change (inject_Z (-1)) with (-1 # 1)%Q in Hr'. lra. }
  destruct Hround as [Hr0 Hr1]. split.
  - change 0 with (Qfloor 0). apply Qfloor_resp_le, Hr0.
  - rewrite Zlt_Qlt. eapply Qle_lt_trans; [apply Qfloor_le|].
    change (inject_Z 43) with (43 # 1)%Q. exact Hr1.
Qed.

(** The literal 0.08 is the binary64 number 5764607523034235 / 2^56, just
    above 8/100; a binary64 number is below the one exactly when it is below
    the other. *)
Lemma quChance_literal (x : Q) :
  binary64 x → (x < round64 (8 # 100))%Q ↔ (x < quChance)%Q.
Proof.
  intros Hx.
  assert (Hc : (round64 (8 # 100) == 5764607523034235 # 72057594037927936)%Q).
  { apply Qeq_bool_iff. vm_compute. reflexivity. }
  rewrite Hc. unfold quChance. split; [|intros; lra].
  intros Hlt.
  pose proof (binary64_step x 5764607523034235 56 ltac:(lia) Hx) as Hstep.
  change (Qpower 2 (Z.opp 56)) with (1 # 72057594037927936)%Q in Hstep.
  change (inject_Z 5764607523034235) with (5764607523034235 # 1)%Q in Hstep.
  change (inject_Z (5764607523034235 - 1)) with (5764607523034234 # 1)%Q in Hstep.
  lra.
Qed.

(** On the numbers of the generator the product with 43 is exact: rounding
    changes nothing there. *)
Lemma fmul_mulberry32_exact (t : Z) :
  (fmul (fst (mulberry32_call t)) (inject_Z (Z.of_nat (length LETTER_BAG)))
   == fst (mulberry32_call t) * inject_Z (Z.of_nat (length LETTER_BAG)))%Q.
Proof. unfold fmul. apply round64_exact, mulberry32_call_exact. Qed.

(** The number nearest to one tenth, and two numbers half way between
    neighbours, which go to the even one. *)
Example round64_tenth :
  Qred (round64 (1 # 10)) = (3602879701896397 # 36028797018963968)%Q.
Proof. vm_compute. reflexivity. Qed.

Example round64_ties :
  Qred (round64 (9007199254740993 # 1)) = (9007199254740992 # 1)%Q
  ∧ Qred (round64 (9007199254740995 # 1)) = (9007199254740996 # 1)%Q.
Proof. split; vm_compute; reflexivity. Qed.

(** A draw whose exact product with 43 is below 42 and rounds to 42: the
    index is the floor of the rounded product. *)
Example fmul_rounds_up :
  Qfloor ((549858094039421 # 562949953421312) * inject_Z 43) = 41
  ∧ Qfloor (fmul (549858094039421 # 562949953421312) (inject_Z 43)) = 42.
Proof. split; vm_compute; reflexivity. Qed.

Lemma bag_get_defined (idx : Z) :
  0 ≤ idx < 43 →
  ∃ s, LETTER_BAG !! Z.to_nat idx = Some s ∧ bag_get idx = Str s.
Proof.
  intros H. unfold bag_get, array_get.
  destruct (idx <? 0) eqn:E; [lia|].
  destruct (LETTER_BAG !! Z.to_nat idx) as [s|] eqn:El.
  - exists s. split; reflexivity.
  - apply lookup_ge_None in El. rewrite LETTER_BAG_length in El. lia.
Qed.

Lemma bag_get_not_qu (idx : Z) : bag_get idx ≠ Str (str "qu").
Proof.
  unfold bag_get, array_get. destruct (idx <? 0); [discriminate|].
  destruct (LETTER_BAG !! Z.to_nat idx) as [s|] eqn:E; [|discriminate].
  cbn. intros [= ->]. apply list_elem_of_lookup_2 in E. revert E.
  apply (bool_decide_eq_true_1 (str "qu" ∉ LETTER_BAG)). reflexivity.
Qed.

Lemma generateTile_draws {St} (rng : Rng St) (σ : St) :
  (fst (generateTile rng σ) = Str (str "qu")
   ∧ snd (generateTile rng σ) = advance rng 1 σ)
  ∨ (fst (generateTile rng σ) ≠ Str (str "qu")
     ∧ snd (generateTile rng σ) = advance rng 2 σ).
Proof.
  unfold generateTile. cbn [advance].
  destruct (rng σ) as [x σ1]. cbn [snd].
  destruct (Qltb x quChance); [left; split; reflexivity|].
  destruct (rng σ1) as [y σ2]. right. cbn [fst snd].
  split; [apply bag_get_not_qu|reflexivity].
Qed.

Lemma advance_add {St} (rng : Rng St) (a b : nat) (σ : St) :
  advance rng (a + b) σ = advance rng b (advance rng a σ).
Proof.
  revert σ. induction a as [|a IH]; intros σ; [reflexivity|]. cbn. apply IH.
Qed.

Lemma calls_snoc (grid : Grid) (tile : Tile) :
  calls (grid ++ [tile])
  = (calls grid + (if decide (tile = Str (str "qu")) then 1 else 2))%nat.
Proof.
  unfold calls. induction grid as [|t grid IH]; cbn [app foldr].
  - destruct (decide (tile = Str (str "qu"))); lia.
  - rewrite IH. destruct (decide (tile = Str (str "qu"))); lia.
Qed.

Section GenerateGrid.
Context {St : Type} (rng : Rng St).
Hypothesis Hrng : ∀ σ, in_unit_interval (fst (rng σ)).
Hypothesis Hbin : ∀ σ, binary64 (fst (rng σ)).

Lemma generateTile_qu (σ : St) :
  (fst (rng σ) < quChance)%Q → fst (generateTile rng σ) = Str (str "qu").
Proof.
  intros H. apply Qltb_lt in H. unfold generateTile.
  destruct (rng σ) as [x σ1]. cbn [fst] in H. rewrite H. reflexivity.
Qed.

Lemma generateTile_letter (σ : St) :
  ¬ (fst (rng σ) < quChance)%Q →
  ∃ idx s,
    idx = Qfloor (fmul (fst (rng (snd (rng σ)))) (inject_Z 43))
    ∧ 0 ≤ idx < 43
    ∧ LETTER_BAG !! Z.to_nat idx = Some s
    ∧ fst (generateTile rng σ) = Str s.
Proof.
  intros H. rewrite <- Qltb_lt in H. apply not_true_is_false in H.
  unfold generateTile.
  destruct (rng σ) as [x σ1]. cbn [fst snd] in *. rewrite H.
  pose proof (Hrng σ1) as Hy. pose proof (Hbin σ1) as Hb64.
  destruct (rng σ1) as [y σ2]. cbn [fst] in *.
  pose proof (bag_index_range y Hy Hb64) as Hidx.
  destruct (bag_get_defined _ Hidx) as (s & Hs & Hb).
  exists (Qfloor (fmul y (inject_Z (Z.of_nat (length LETTER_BAG))))), s.
  split; [reflexivity|]. split; [exact Hidx|]. split; [exact Hs|exact Hb].
Qed.

Lemma generateTile_defined (σ : St) : defined_tile (fst (generateTile rng σ)).
Proof.
  destruct (Qlt_le_dec (fst (rng σ)) quChance) as [H|H].
  - left. apply generateTile_qu, H.
  - right. apply Qle_not_lt in H.
    destruct (generateTile_letter σ H) as (idx & s & _ & ? & ? & ?).
    exists idx, s. auto.
Qed.

Lemma generateGrid_loop_defined (n : nat) :
  ∀ grid σ, Forall defined_tile grid →
            Forall defined_tile (fst (generateGrid_loop rng n grid σ)).
Proof.
  induction n as [|n IH]; intros grid σ Hg; cbn; [exact Hg|].
  pose proof (generateTile_defined σ) as Ht.
  destruct (generateTile rng σ) as [t σ']. apply IH.
  apply Forall_app. split; [exact Hg|]. constructor; [exact Ht|constructor].
Qed.

(** The tile a round pushes is the one the draws of the round give. *)
Lemma generateTile_drawn (σ σ0 : St) (grid : Grid) (i : nat) :
  σ0 = advance rng (calls (take i grid)) σ →
  grid !! i = Some (fst (generateTile rng σ0)) →
  drawn rng σ grid i.
Proof.
  intros -> Htile. unfold drawn. cbv zeta. split.
  - intros Hx. rewrite (generateTile_qu _ Hx) in Htile. exact Htile.
  - intros Hx.
    destruct (generateTile_letter _ Hx) as (idx & s & -> & Hidx & Hs & Ht).
    split; [exact Hidx|]. exists s. split; [exact Hs|].
    rewrite Ht in Htile. exact Htile.
Qed.

(** The loop keeps the tiles it was given and pushes, position by position,
    the tile the draws of the position give. *)
Lemma generateGrid_loop_drawn (σ : St) (n : nat) :
  ∀ (grid0 : Grid) (σ0 : St),
    σ0 = advance rng (calls grid0) σ →
    take (length grid0) (fst (generateGrid_loop rng n grid0 σ0)) = grid0
    ∧ ∀ i, (length grid0 ≤ i < length grid0 + n)%nat →
           drawn rng σ (fst (generateGrid_loop rng n grid0 σ0)) i.
Proof.
  induction n as [|n IH]; intros grid0 σ0 Hσ0; cbn [generateGrid_loop].
  - cbn [fst]. split; [apply firstn_all|]. intros i Hi. lia.
  - pose proof (generateTile_draws rng σ0) as Hdraws.
    destruct (generateTile rng σ0) as [tile σ1] eqn:Et. cbn [fst snd] in Hdraws.
    destruct (IH (grid0 ++ [tile]) σ1) as [Hkeep Hnew].
    { rewrite calls_snoc, advance_add, <- Hσ0.
      destruct Hdraws as [[-> ->]|[Hne ->]].
      - rewrite decide_True by reflexivity. reflexivity.
      - rewrite decide_False by exact Hne. reflexivity. }
    set (out := fst (generateGrid_loop rng n (grid0 ++ [tile]) σ1)) in *.
    rewrite length_app in Hkeep, Hnew. cbn [length] in Hkeep, Hnew.
    assert (Hpre : take (length grid0) out = grid0).
    { transitivity (take (length grid0) (take (length grid0 + 1) out)).
      - rewrite take_take. f_equal. lia.
      - rewrite Hkeep. apply take_app_length. }
    split; [exact Hpre|]. intros i Hi.
    destruct (decide (i = length grid0)) as [->|Hne]; [|apply Hnew; lia].
    apply (generateTile_drawn σ σ0).
    + rewrite Hpre. exact Hσ0.
    + rewrite Et. cbn [fst].
      rewrite <- (lookup_take_lt out (length grid0 + 1)) by lia.
      rewrite Hkeep. apply list_lookup_middle. reflexivity.
Qed.
End GenerateGrid.

(** C8: with a source whose every draw is a binary64 number in [0, 1),
    [generateGrid] returns sixteen tiles, none of them undefined, and the
    tile of each position is the one its draws give: [qu] when the first
    draw of the position is below 0.08, and otherwise the entry of the letter
    bag at the floor of the product of the second draw with 43, which is an
    index from 0 to 42. *)
Theorem generateGrid_total {St : Type} (rng : Rng St) (σ : St) :
  (∀ σ, in_unit_interval (fst (rng σ))) →
  (∀ σ, binary64 (fst (rng σ))) →
  length (fst (generateGrid rng σ)) = 16%nat
  ∧ Forall (λ tile, tile ≠ undefined) (fst (generateGrid rng σ))
  ∧ ∀ i, (i < 16)%nat → drawn rng σ (fst (generateGrid rng σ)) i.
Proof.
  intros Hrng Hbin.
  split; [|split].
  - unfold generateGrid. rewrite generateGrid_loop_length. reflexivity.
  - assert (Hdef : Forall defined_tile (fst (generateGrid rng σ))).
    { apply generateGrid_loop_defined; [exact Hrng|exact Hbin|constructor]. }
    eapply Forall_impl; [exact Hdef|].
    intros tile [->|(idx & s & _ & _ & ->)]; discriminate.
  - intros i Hi. unfold generateGrid.
    apply (generateGrid_loop_drawn rng Hrng Hbin σ 16 [] σ); [reflexivity|].
    cbn [length]. lia.
Qed.

Lemma mulberry32_call_binary64 (t : Z) : binary64 (fst (mulberry32_call t)).
Proof. apply mulberry32_call_exact. Qed.

Lemma generateGrid_total_witness :
  ((∀ t, in_unit_interval (fst (mulberry32_call t)))
   ∧ (∀ t, binary64 (fst (mulberry32_call t))))
  ∧ length (fst (generateGrid mulberry32_call 1)) = 16%nat
  ∧ Forall (λ tile, tile ≠ undefined) (fst (generateGrid mulberry32_call 1))
  ∧ ∀ i, (i < 16)%nat →
         drawn mulberry32_call 1 (fst (generateGrid mulberry32_call 1)) i.
Proof.
  split; [split; [exact mulberry32_call_range|exact mulberry32_call_binary64]|].
  exact (generateGrid_total mulberry32_call 1 mulberry32_call_range
           mulberry32_call_binary64).
Defined.

(** ** Sets *)

Lemma has_true (s : JSSet.t) (x : jsstring) : JSSet.has s x = true ↔ x ∈ s.
Proof. unfold JSSet.has. apply bool_decide_eq_true. Qed.

Lemma has_false (s : JSSet.t) (x : jsstring) : JSSet.has s x = false ↔ x ∉ s.
Proof. unfold JSSet.has. apply bool_decide_eq_false. Qed.

Lemma elem_of_add (x y : jsstring) (s : JSSet.t) :
  y ∈ JSSet.add x s ↔ y = x ∨ y ∈ s.
Proof.
  unfold JSSet.add. destruct (JSSet.has s x) eqn:E.
  - apply has_true in E. split; [auto|]. intros [->|]; assumption.
  - rewrite elem_of_app, list_elem_of_singleton. tauto.
Qed.

Lemma add_NoDup (x : jsstring) (s : JSSet.t) : NoDup s → NoDup (JSSet.add x s).
Proof.
  intros Hs. unfold JSSet.add. destruct (JSSet.has s x) eqn:E; [exact Hs|].
  apply has_false in E. apply NoDup_app. split; [exact Hs|].
  split; [|apply NoDup_singleton].
  intros y Hy Hy'. apply list_elem_of_singleton in Hy'. subst y. contradiction.
Qed.

Lemma add_subseteq (x : jsstring) (s : JSSet.t) : s ⊆ JSSet.add x s.
Proof. intros y Hy. apply elem_of_add. auto. Qed.

(** Membership after a loop of insertions. *)
Lemma elem_of_fold_add {A} (f : A → jsstring) (l : list A) :
  ∀ (s : JSSet.t) (y : jsstring),
    y ∈ fold_left (λ s i, JSSet.add (f i) s) l s ↔ y ∈ s ∨ ∃ i, i ∈ l ∧ y = f i.
Proof.
  induction l as [|i l IH]; intros s y; cbn.
  - split; [auto|]. intros [?|(i & Hi & _)]; [assumption|].
    apply not_elem_of_nil in Hi. contradiction.
  - rewrite IH, elem_of_add. split.
    + intros [[->|?]|(j & Hj & ->)]; eauto using list_elem_of_here, list_elem_of_further.
    + intros [?|(j & Hj & ->)]; [auto|].
      apply elem_of_cons in Hj as [->|Hj]; eauto.
Qed.

Lemma fold_add_NoDup {A} (f : A → jsstring) (l : list A) :
  ∀ s : JSSet.t, NoDup s → NoDup (fold_left (λ s i, JSSet.add (f i) s) l s).
Proof.
  induction l as [|i l IH]; intros s Hs; cbn; [exact Hs|].
  apply IH, add_NoDup, Hs.
Qed.

Lemma elem_of_from_array (a : list jsstring) (y : jsstring) :
  y ∈ JSSet.from_array a ↔ y ∈ a.
Proof.
  unfold JSSet.from_array. rewrite (elem_of_fold_add (λ x, x)).
  unfold JSSet.empty. split.
  - intros [H|(i & Hi & ->)]; [|exact Hi]. apply not_elem_of_nil in H. contradiction.
  - intros H. right. exists y. auto.
Qed.

(** ** The dictionary index *)

Lemma elem_of_add_prefixes (w : jsstring) (ps : JSSet.t) (y : jsstring) :
  y ∈ add_prefixes w ps ↔
  y ∈ ps ∨ ∃ i, (1 ≤ i ≤ length w)%nat ∧ y = take i w.
Proof.
  unfold add_prefixes. rewrite (elem_of_fold_add (λ i, take i w)).
  split; (intros [?|(i & Hi & ->)]; [left; assumption|right; exists i]).
  - apply elem_of_seq in Hi. split; [lia|reflexivity].
  - split; [|reflexivity]. apply elem_of_seq. lia.
Qed.

Lemma normalizeWord_letters `{Runtime} (raw : jsstring) :
  Forall is_az (normalizeWord raw).
Proof.
  unfold normalizeWord. apply Forall_forall. intros c Hc.
  apply list_elem_of_filter in Hc. tauto.
Qed.

Lemma dictionary_line_ok `{Runtime} (d : Dictionary) (line : jsstring) :
  dictionary_ok d → dictionary_ok (dictionary_line d line).
Proof.
  intros [Hacc Hnd]. unfold dictionary_line.
  set (w := normalizeWord (trim line)).
  destruct (bool_decide (w = []) || (Z.of_nat (length w) <? 3)) eqn:E1;
    [split; assumption|].
  destruct (negb (test_az w)) eqn:E2; [split; assumption|].
  apply orb_false_iff in E1 as [_ Hlen]. apply Z.ltb_ge in Hlen.
  split; cbn [words prefixes].
  - intros v Hv. apply elem_of_add in Hv as [->|Hv].
    + split; cbn [prefixes].
      * lia.
      * apply normalizeWord_letters.
      * intros i Hi. apply elem_of_add_prefixes. right. exists i. auto.
    + destruct (Hacc v Hv) as [? ? Hp]. split; cbn [prefixes]; auto.
      intros i Hi. apply elem_of_add_prefixes. left. auto.
  - apply add_NoDup, Hnd.
Qed.

Lemma buildDictionary_ok `{Runtime} (rawText : jsstring) :
  dictionary_ok (buildDictionary rawText).
Proof.
  unfold buildDictionary.
  assert (Hinit : dictionary_ok {| words := JSSet.empty; prefixes := JSSet.empty |}).
  { split; cbn; [|apply NoDup_nil_2].
    intros w Hw. apply not_elem_of_nil in Hw. contradiction. }
  revert Hinit. generalize {| words := JSSet.empty; prefixes := JSSet.empty |}.
  induction (split_lines rawText) as [|line lines IH]; intros d Hd; cbn;
    [exact Hd|].
  apply IH, dictionary_line_ok, Hd.
Qed.

(** C5: in the index built from any text, every prefix of every word, from
    the first letter to the whole word, is in the prefix set; so every word
    is in the prefix set. *)
Theorem buildDictionary_prefix_closed `{Runtime} (rawText w : jsstring) :
  w ∈ words (buildDictionary rawText) →
  (∀ i, (1 ≤ i ≤ length w)%nat → take i w ∈ prefixes (buildDictionary rawText))
  ∧ w ∈ prefixes (buildDictionary rawText).
Proof.
  intros Hw. destruct (buildDictionary_ok rawText) as [Hacc _].
  destruct (Hacc w Hw) as [Hlen _ Hp]. split; [exact Hp|].
  rewrite <- (firstn_all w). apply Hp. lia.
Qed.

Lemma buildDictionary_prefix_closed_witness :
  str "cats" ∈ words (@buildDictionary ascii_runtime sampleText)
  ∧ (∀ i, (1 ≤ i ≤ length (str "cats"))%nat →
          take i (str "cats") ∈ prefixes (@buildDictionary ascii_runtime sampleText))
  ∧ str "cats" ∈ prefixes (@buildDictionary ascii_runtime sampleText).
Proof.
  assert (Hw : str "cats" ∈ words (@buildDictionary ascii_runtime sampleText))
    by by_computation.
  split; [exact Hw|].
  exact (@buildDictionary_prefix_closed ascii_runtime sampleText (str "cats") Hw).
Defined.

(** ** The visited mask *)

Lemma shl_1 (n : Z) : position n → JS.shl 1 n = 2 ^ n.
Proof.
  intros Hn. apply position_cases in Hn. unfold positions in Hn.
  vm_compute in Hn. repeat (apply elem_of_cons in Hn as [->|Hn]; [reflexivity|]).
  apply not_elem_of_nil in Hn. contradiction.
Qed.

Lemma pow2_position (n : Z) : position n → 0 < 2 ^ n < 65536.
Proof.
  intros Hn. unfold position in Hn. split; [apply Z.pow_pos_nonneg; lia|].
  change 65536 with (2 ^ 16). apply Z.pow_lt_mono_r; lia.
Qed.

Lemma low16_high_bit (m i : Z) : low16 m → 16 ≤ i → Z.testbit m i = false.
Proof.
  intros Hm Hi. unfold low16 in Hm.
  rewrite <- (Z.mod_small m (2 ^ 16)) by (change (2 ^ 16) with 65536; lia).
  apply Z.mod_pow2_bits_high. lia.
Qed.

Lemma low16_intro (m : Z) :
  (∀ i, 16 ≤ i → Z.testbit m i = false) → 0 ≤ m → low16 m.
Proof.
  intros Hbits Hm. unfold low16. split; [exact Hm|].
  assert (E : m mod 2 ^ 16 = m).
  { apply Z.bits_inj'. intros i Hi. rewrite Z.testbit_mod_pow2 by lia.
    destruct (i <? 16) eqn:Ei; [reflexivity|].
    apply Z.ltb_ge in Ei. rewrite Hbits by lia. reflexivity. }
  rewrite <- E. change 65536 with (2 ^ 16). apply Z.mod_pos_bound. lia.
Qed.

Lemma ToInt32_low16 (m : Z) : low16 m → JS.ToInt32 m = m.
Proof.
  intros Hm. apply ToInt32_small. unfold low16, JS.two31 in *. lia.
Qed.

Lemma bor_bit (m i : Z) :
  low16 m → position i →
  low16 (JS.bor m (JS.shl 1 i))
  ∧ ∀ n, 0 ≤ n →
         Z.testbit (JS.bor m (JS.shl 1 i)) n = Z.testbit m n || (i =? n).
Proof.
  intros Hm Hi. rewrite (shl_1 i Hi).
  pose proof (pow2_position i Hi) as Hp.
  assert (Hbits : ∀ n, 0 ≤ n →
            Z.testbit (Z.lor m (2 ^ i)) n = Z.testbit m n || (i =? n)).
  { intros n Hn. rewrite Z.lor_spec, Z.pow2_bits_eqb by (unfold position in Hi; lia).
    reflexivity. }
  assert (Hlow : low16 (Z.lor m (2 ^ i))).
  { apply low16_intro.
    - intros k Hk. rewrite Hbits by lia. rewrite (low16_high_bit m k Hm Hk).
      unfold position in Hi. destruct (i =? k) eqn:E; [lia|reflexivity].
    - apply Z.lor_nonneg. unfold low16 in Hm. lia. }
  unfold JS.bor. rewrite (ToInt32_low16 m Hm).
  rewrite (ToInt32_low16 (2 ^ i)) by (unfold low16; lia).
  rewrite (ToInt32_low16 _ Hlow). split; [exact Hlow|exact Hbits].
Qed.

Lemma band_bit (m n : Z) :
  low16 m → position n →
  JS.truthy (JS.band m (JS.shl 1 n)) = Z.testbit m n.
Proof.
  intros Hm Hn. rewrite (shl_1 n Hn).
  pose proof (pow2_position n Hn) as Hp.
  unfold JS.band. rewrite (ToInt32_low16 m Hm).
  rewrite (ToInt32_low16 (2 ^ n)) by (unfold low16; lia).
  assert (E : Z.land m (2 ^ n) = if Z.testbit m n then 2 ^ n else 0).
  { apply Z.bits_inj'. intros k Hk.
    rewrite Z.land_spec, Z.pow2_bits_eqb by (unfold position in Hn; lia).
    destruct (n =? k) eqn:Enk.
    - apply Z.eqb_eq in Enk. subst k. rewrite andb_true_r.
      destruct (Z.testbit m n); [|apply eq_sym, Z.bits_0].
      apply eq_sym, Z.pow2_bits_true. lia.
    - rewrite andb_false_r. destruct (Z.testbit m n); [|apply eq_sym, Z.bits_0].
      apply eq_sym, Z.pow2_bits_false. apply Z.eqb_neq. exact Enk. }
  rewrite E. unfold JS.truthy. destruct (Z.testbit m n).
  - rewrite ToInt32_low16 by (unfold low16; lia).
    apply negb_true_iff, Z.eqb_neq. lia.
  - reflexivity.
Qed.

Lemma mask_of_nil : mask_of 0 [].
Proof.
  split; [unfold low16; lia|]. intros n _. rewrite Z.bits_0. split; [discriminate|].
  intros H. apply not_elem_of_nil in H. contradiction.
Qed.

Lemma mask_of_snoc (mask : Z) (p : list Z) (i : Z) :
  mask_of mask p → position i →
  mask_of (JS.bor mask (JS.shl 1 i)) (p ++ [i]).
Proof.
  intros [Hlow Hbits] Hi. destruct (bor_bit mask i Hlow Hi) as [Hlow' Hbits'].
  split; [exact Hlow'|]. intros n Hn.
  rewrite Hbits' by (unfold position in Hn; lia).
  rewrite orb_true_iff, (Hbits n Hn), elem_of_app, list_elem_of_singleton, Z.eqb_eq.
  split; (intros [?|?]; [left; assumption|right; congruence]).
Qed.

Lemma mask_test (mask : Z) (p : list Z) (n : Z) :
  mask_of mask p → position n →
  JS.truthy (JS.band mask (JS.shl 1 n)) = true ↔ n ∈ p.
Proof.
  intros [Hlow Hbits] Hn. rewrite (band_bit mask n Hlow Hn). apply Hbits, Hn.
Qed.

(** ** Paths *)

Lemma adjacent_chain_tail (a : Z) (p : list Z) :
  adjacent_chain (a :: p) → adjacent_chain p.
Proof. destruct p as [|b p]; cbn; tauto. Qed.

Lemma adjacent_chain_app_r (p q : list Z) :
  adjacent_chain (p ++ q) → adjacent_chain q.
Proof.
  induction p as [|a p IH]; [tauto|]. intros H. apply IH.
  apply (adjacent_chain_tail a). exact H.
Qed.

Lemma adjacent_chain_snoc (p : list Z) (a n : Z) :
  adjacent_chain (p ++ [a]) → isAdjacent a n = true →
  adjacent_chain ((p ++ [a]) ++ [n]).
Proof.
  intros Hc Ha. induction p as [|b p IH]; cbn in *; [auto|].
  destruct (p ++ [a]) as [|c q] eqn:E.
  - destruct p; discriminate.
  - cbn. destruct Hc as [Hbc Hc]. split; [exact Hbc|]. apply IH, Hc.
Qed.

Lemma is_path_single (i : Z) : position i → is_path [i].
Proof.
  intros Hi. split; cbn; [|apply NoDup_singleton|exact I].
  constructor; [exact Hi|constructor].
Qed.

Lemma is_path_snoc (p : list Z) (a n : Z) :
  is_path (p ++ [a]) → position n → n ∉ p ++ [a] → isAdjacent a n = true →
  is_path ((p ++ [a]) ++ [n]).
Proof.
  intros [Hpos Hnd Hadj] Hn Hfresh Han. split.
  - apply Forall_app. split; [exact Hpos|]. constructor; [exact Hn|constructor].
  - apply NoDup_app. split; [exact Hnd|]. split; [|apply NoDup_singleton].
    intros x Hx Hx'. apply list_elem_of_singleton in Hx'. subst x. contradiction.
  - apply adjacent_chain_snoc; assumption.
Qed.

Lemma is_path_app_r (p q : list Z) : is_path (p ++ q) → is_path q.
Proof.
  intros [Hpos Hnd Hadj]. split.
  - apply Forall_app in Hpos. tauto.
  - apply NoDup_app in Hnd. tauto.
  - eapply adjacent_chain_app_r, Hadj.
Qed.

Lemma adjacent_chain_app_l (p q : list Z) :
  adjacent_chain (p ++ q) → adjacent_chain p.
Proof.
  induction p as [|a p IH]; intros H; [exact I|].
  destruct p as [|b p]; [exact I|]. cbn in H |- *.
  destruct H as [Hab H]. split; [exact Hab|]. apply IH, H.
Qed.

Lemma is_path_app_l (p q : list Z) : is_path (p ++ q) → is_path p.
Proof.
  intros [Hpos Hnd Hadj]. split.
  - apply Forall_app in Hpos. tauto.
  - apply NoDup_app in Hnd. tauto.
  - eapply adjacent_chain_app_l, Hadj.
Qed.

Lemma is_path_length (p : list Z) : is_path p → (length p ≤ 16)%nat.
Proof.
  intros [Hpos Hnd _].
  change 16%nat with (length positions).
  apply submseteq_length, NoDup_submseteq; [exact Hnd|].
  intros x Hx. apply position_cases. rewrite Forall_forall in Hpos. auto.
Qed.

Lemma spell_app (grid : Grid) (p q : list Z) :
  spell grid (p ++ q) = spell grid p ++ spell grid q.
Proof. unfold spell. rewrite fmap_app, concat_app. reflexivity. Qed.

Lemma spell_snoc (grid : Grid) (p : list Z) (i : Z) :
  spell grid (p ++ [i]) = spell grid p ++ toString (grid_get grid i).
Proof. rewrite spell_app. unfold spell at 2. cbn. rewrite app_nil_r. reflexivity. Qed.

(** ** Loops over an optional accumulator *)

Section FoldBind.
Context {A B : Type} (f : A → B → option A).

Lemma fold_bind_None (l : list B) : fold_bind f l None = None.
Proof. induction l as [|n l IH]; [reflexivity|exact IH]. Qed.

Lemma fold_bind_cons (n : B) (l : list B) (a : A) :
  fold_bind f (n :: l) (Some a) = fold_bind f l (f a n).
Proof. reflexivity. Qed.

Lemma fold_bind_inv (I : A → Prop) (l : list B) :
  (∀ a n a', n ∈ l → I a → f a n = Some a' → I a') →
  ∀ a out, I a → fold_bind f l (Some a) = Some out → I out.
Proof.
  induction l as [|n l IH]; intros Hstep a out Ha Hout.
  - injection Hout as <-. exact Ha.
  - rewrite fold_bind_cons in Hout. destruct (f a n) as [a'|] eqn:E.
    + apply (IH (λ a0 m a1 Hm, Hstep a0 m a1 (list_elem_of_further _ _ _ Hm)) a');
        [|exact Hout].
      apply (Hstep a n a'); [apply list_elem_of_here|exact Ha|exact E].
    + rewrite fold_bind_None in Hout. discriminate.
Qed.

Lemma fold_bind_total (l : list B) :
  (∀ a n, n ∈ l → is_Some (f a n)) →
  ∀ a, is_Some (fold_bind f l (Some a)).
Proof.
  induction l as [|n l IH]; intros Hstep a.
  - eexists. reflexivity.
  - rewrite fold_bind_cons.
    destruct (Hstep a n (list_elem_of_here _ _)) as [a' ->].
    apply IH. intros a0 m Hm. apply Hstep, list_elem_of_further, Hm.
Qed.

(** One round establishes [Q], the others keep it. *)
Lemma fold_bind_hit (Q : A → Prop) (n0 : B) (l : list B) :
  n0 ∈ l →
  (∀ a a', f a n0 = Some a' → Q a') →
  (∀ a n a', n ∈ l → Q a → f a n = Some a' → Q a') →
  ∀ a out, fold_bind f l (Some a) = Some out → Q out.
Proof.
  intros Hin Hhit. induction l as [|n l IH]; intros Hkeep a out Hout.
  - apply not_elem_of_nil in Hin. contradiction.
  - rewrite fold_bind_cons in Hout. destruct (f a n) as [a'|] eqn:E.
    + assert (Hkeep' : ∀ a0 m a1, m ∈ l → Q a0 → f a0 m = Some a1 → Q a1).
      { intros a0 m a1 Hm. apply Hkeep, list_elem_of_further, Hm. }
      apply elem_of_cons in Hin as [->|Hin].
      * apply (fold_bind_inv Q l Hkeep' a'); [|exact Hout].
        apply (Hhit a a' E).
      * apply (IH Hin Hkeep' a' out Hout).
    + rewrite fold_bind_None in Hout. discriminate.
Qed.
End FoldBind.

(** ** The search *)

Section Search.
Context (grid : Grid) (dict prefixes : JSSet.t).

Lemma dfs_unfold (fuel : nat) (index mask : Z) (current : jsstring)
    (results : JSSet.t) :
  dfs grid dict prefixes (S fuel) index mask current results =
  let nextWord := current ++ toString (grid_get grid index) in
  if negb (JSSet.has prefixes nextWord) then Some results
  else
    fold_bind (dfs_next grid dict prefixes fuel index (JS.bor mask (JS.shl 1 index)) nextWord)
      positions (Some (dfs_record dict nextWord results)).
Proof. reflexivity. Qed.

Lemma extends_refl (results : JSSet.t) : extends grid dict results results.
Proof. split; auto. Qed.

Lemma extends_trans (a b c : JSSet.t) :
  extends grid dict a b → extends grid dict b c → extends grid dict a c.
Proof.
  intros [K1 N1 S1] [K2 N2 S2]. split.
  - intros x Hx. auto.
  - auto.
  - intros w Hw. destruct (S2 w Hw) as [Hb|Hf]; [auto|right; exact Hf].
Qed.

Lemma dfs_record_extends (p : list Z) (results : JSSet.t) :
  is_path p →
  extends grid dict results (dfs_record dict (spell grid p) results).
Proof.
  intros Hp. unfold dfs_record.
  destruct (_ && _) eqn:E; [|apply extends_refl].
  apply andb_true_iff in E as [Hlen Hin].
  apply Z.leb_le in Hlen. apply has_true in Hin. split.
  - apply add_subseteq.
  - apply add_NoDup.
  - intros w Hw. apply elem_of_add in Hw as [->|Hw]; [right|left; exact Hw].
    split; [exact Hin|]. split; [lia|]. exists p. auto.
Qed.

(** The neighbour a round recurses into continues the path. *)
Lemma dfs_next_path (p : list Z) (index mask n : Z) :
  is_path (p ++ [index]) → mask_of mask p → n ∈ positions →
  JS.truthy (JS.band (JS.bor mask (JS.shl 1 index)) (JS.shl 1 n)) = false →
  negb (isAdjacent index n) = false →
  is_path ((p ++ [index]) ++ [n])
  ∧ mask_of (JS.bor mask (JS.shl 1 index)) (p ++ [index]).
Proof.
  intros Hp Hmask Hn Hbit Hadj.
  apply positions_position in Hn.
  assert (Hi : position index).
  { destruct Hp as [Hpos _ _]. apply Forall_app in Hpos as [_ Hpos].
    inversion Hpos; assumption. }
  pose proof (mask_of_snoc mask p index Hmask Hi) as Hmask'.
  split; [|exact Hmask'].
  apply is_path_snoc; [exact Hp|exact Hn| |].
  - intros Hin. apply (mask_test _ _ n Hmask' Hn) in Hin. congruence.
  - apply negb_false_iff in Hadj. exact Hadj.
Qed.

Lemma dfs_extends (fuel : nat) :
  ∀ (p : list Z) (index mask : Z) (results out : JSSet.t),
    is_path (p ++ [index]) → mask_of mask p →
    dfs grid dict prefixes fuel index mask (spell grid p) results = Some out →
    extends grid dict results out.
Proof.
  induction fuel as [|fuel IH]; intros p index mask results out Hp Hmask Hout;
    [discriminate|].
  rewrite dfs_unfold in Hout. cbv zeta in Hout.
  rewrite <- spell_snoc in Hout.
  destruct (negb (JSSet.has prefixes (spell grid (p ++ [index])))).
  { injection Hout as <-. apply extends_refl. }
  eapply extends_trans; [apply (dfs_record_extends (p ++ [index])), Hp|].
  revert Hout. apply fold_bind_inv; [|apply extends_refl].
  intros a n a' Hn Ha Hstep. eapply extends_trans; [exact Ha|].
  unfold dfs_next in Hstep.
  destruct (JS.truthy _) eqn:Hbit; [injection Hstep as <-; apply extends_refl|].
  destruct (negb _) eqn:Hadj; [injection Hstep as <-; apply extends_refl|].
  destruct (dfs_next_path p index mask n Hp Hmask Hn Hbit Hadj) as [Hp' Hmask'].
  exact (IH (p ++ [index]) n _ a a' Hp' Hmask' Hstep).
Qed.

Lemma dfs_total (fuel : nat) :
  ∀ (p : list Z) (index mask : Z) (current : jsstring) (results : JSSet.t),
    is_path (p ++ [index]) → mask_of mask p →
    (16 ≤ fuel + length p)%nat →
    is_Some (dfs grid dict prefixes fuel index mask current results).
Proof.
  induction fuel as [|fuel IH]; intros p index mask current results Hp Hmask Hfuel.
  - apply is_path_length in Hp. rewrite length_app in Hp. cbn in *. lia.
  - rewrite dfs_unfold. cbv zeta.
    destruct (negb _); [eexists; reflexivity|].
    apply fold_bind_total. intros a n Hn. unfold dfs_next.
    destruct (JS.truthy _) eqn:Hbit; [eexists; reflexivity|].
    destruct (negb (isAdjacent index n)) eqn:Hadj; [eexists; reflexivity|].
    destruct (dfs_next_path p index mask n Hp Hmask Hn Hbit Hadj) as [Hp' Hmask'].
    apply (IH (p ++ [index])); [exact Hp'|exact Hmask'|].
    rewrite length_app. cbn. lia.
Qed.

(** A path whose every step spells a member of the prefix set is followed
    to its end, and its word is recorded when the word set has it. *)
Lemma dfs_complete (fuel : nat) :
  ∀ (ext p : list Z) (index mask : Z) (results out : JSSet.t),
    is_path ((p ++ [index]) ++ ext) → mask_of mask p →
    (∀ k, spell grid ((p ++ [index]) ++ take k ext) ∈ prefixes) →
    spell grid ((p ++ [index]) ++ ext) ∈ dict →
    (3 ≤ length (spell grid ((p ++ [index]) ++ ext)))%nat →
    dfs grid dict prefixes fuel index mask (spell grid p) results = Some out →
    spell grid ((p ++ [index]) ++ ext) ∈ out.
Proof.
  induction fuel as [|fuel IH];
    intros ext p index mask results out Hp Hmask Hpre Hdict Hlen Hout;
    [discriminate|].
  pose proof (is_path_app_l _ _ Hp) as Hp0.
  rewrite dfs_unfold in Hout. cbv zeta in Hout.
  rewrite <- spell_snoc in Hout.
  pose proof (Hpre 0%nat) as H0. rewrite take_0, app_nil_r in H0.
  apply has_true in H0. rewrite H0 in Hout. cbn [negb] in Hout.
  assert (Hkeep : ∀ (a : JSSet.t) (n : Z) (a' : JSSet.t) (w : jsstring),
             n ∈ positions → w ∈ a →
             dfs_next grid dict prefixes fuel index (JS.bor mask (JS.shl 1 index))
               (spell grid (p ++ [index])) a n = Some a' → w ∈ a').
  { intros a n a' w Hn Hw Hstep. unfold dfs_next in Hstep.
    destruct (JS.truthy _) eqn:Hbit; [injection Hstep as <-; exact Hw|].
    destruct (negb _) eqn:Hadj; [injection Hstep as <-; exact Hw|].
    destruct (dfs_next_path p index mask n Hp0 Hmask Hn Hbit Hadj) as [Hp' Hmask'].
    destruct (dfs_extends fuel (p ++ [index]) n _ a a' Hp' Hmask' Hstep) as [K _ _].
    apply K, Hw. }
  destruct ext as [|n ext].
  - rewrite app_nil_r in *.
    revert Hout. apply (fold_bind_inv _ (λ a, spell grid (p ++ [index]) ∈ a)).
    + intros a n a' Hn Ha Hstep. exact (Hkeep a n a' _ Hn Ha Hstep).
    + unfold dfs_record.
      assert (Hlen' : (3 <=? Z.of_nat (length (spell grid (p ++ [index])))) = true)
        by (apply Z.leb_le; lia).
      rewrite Hlen'. apply has_true in Hdict. rewrite Hdict. cbn.
      apply elem_of_add. auto.
  - replace ((p ++ [index]) ++ n :: ext) with (((p ++ [index]) ++ [n]) ++ ext)
      in * by (rewrite <- !app_assoc; reflexivity).
    pose proof (is_path_app_l _ _ Hp) as Hpn.
    assert (Hn : n ∈ positions).
    { destruct Hpn as [Hpos _ _]. apply Forall_app in Hpos as [_ Hpos].
      inversion Hpos; subst. apply position_cases. assumption. }
    assert (Hin : position index).
    { destruct Hp0 as [Hpos _ _]. apply Forall_app in Hpos as [_ Hpos].
      inversion Hpos; assumption. }
    pose proof (mask_of_snoc mask p index Hmask Hin) as Hmask'.
    revert Hout.
    apply (fold_bind_hit _
             (λ a, spell grid (((p ++ [index]) ++ [n]) ++ ext) ∈ a) n);
      [exact Hn| |].
    + intros a a' Hstep. unfold dfs_next in Hstep.
      assert (Hbit : JS.truthy
                (JS.band (JS.bor mask (JS.shl 1 index)) (JS.shl 1 n)) = false).
      { apply not_true_is_false. intros Hbit.
        apply (mask_test _ _ n Hmask' (positions_position n Hn)) in Hbit.
        destruct Hpn as [_ Hnd _]. apply NoDup_app in Hnd as (_ & Hnd & _).
        apply (Hnd n Hbit). apply list_elem_of_here. }
      assert (Hadj : isAdjacent index n = true).
      { destruct Hpn as [_ _ Hadj]. rewrite <- app_assoc in Hadj.
        apply adjacent_chain_app_r in Hadj. cbn in Hadj. tauto. }
      rewrite Hbit, Hadj in Hstep. cbn [negb] in Hstep.
      apply (IH ext (p ++ [index]) n (JS.bor mask (JS.shl 1 index)) a a');
        try assumption.
      intros k. specialize (Hpre (S k)). cbn [take] in Hpre.
      replace ((p ++ [index]) ++ n :: take k ext)
        with (((p ++ [index]) ++ [n]) ++ take k ext) in Hpre
        by (rewrite <- !app_assoc; reflexivity).
      exact Hpre.
    + intros a m a' Hm Ha Hstep. exact (Hkeep a m a' _ Hm Ha Hstep).
Qed.
End Search.

(** ** Sorting *)

Section SortFacts.
Context {A : Type} (cmp : A → A → Z).

Lemma sort_insert_Permutation (x : A) (l : list A) :
  sort_insert cmp x l ≡ₚ x :: l.
Proof.
  induction l as [|y l IH]; cbn; [reflexivity|].
  destruct (cmp x y <? 0); [reflexivity|].
  rewrite IH. apply Permutation_swap.
Qed.

Lemma sort_fold_Permutation (l : list A) :
  ∀ acc, fold_left (λ acc x, sort_insert cmp x acc) l acc ≡ₚ l ++ acc.
Proof.
  induction l as [|x l IH]; intros acc; cbn; [reflexivity|].
  rewrite IH, sort_insert_Permutation. symmetry. apply Permutation_middle.
Qed.

Lemma sort_Permutation (l : list A) : sort cmp l ≡ₚ l.
Proof. unfold sort. rewrite sort_fold_Permutation, app_nil_r. reflexivity. Qed.

(** An order [R] on the elements that satisfy [C], decided by [cmp]. *)
Context (R : relation A) (C : A → Prop).
Hypothesis R_trans : ∀ a b c, R a b → R b c → R a c.
Hypothesis R_total : ∀ a b, C a → C b → a ≠ b → R a b ∨ R b a.
Hypothesis cmp_R : ∀ a b, C a → C b → cmp a b < 0 ↔ R a b.



End SortFacts.

(** A comparator that puts the larger key first keeps the keys in
    descending order, whatever it answers on equal keys. *)
Section SortKey.
Context {A : Type} (cmp : A → A → Z) (key : A → nat).
Hypothesis cmp_larger : ∀ a b, (key b < key a)%nat → cmp a b < 0.
Hypothesis cmp_smaller : ∀ a b, (key a < key b)%nat → ¬ cmp a b < 0.

Lemma sort_insert_key (x : A) (l : list A) :
  StronglySorted (λ a b, (key b ≤ key a)%nat) l →
  StronglySorted (λ a b, (key b ≤ key a)%nat) (sort_insert cmp x l).
Proof.
  induction l as [|y l IH]; intros Hsorted; cbn.
  - repeat constructor.
  - inversion Hsorted as [|? ? Hs Hall]; subst.
    destruct (cmp x y <? 0) eqn:E.
    + apply Z.ltb_lt in E.
      assert (Hyx : (key y ≤ key x)%nat).
      { destruct (le_lt_dec (key y) (key x)) as [Hle|Hlt]; [exact Hle|].
        exfalso. exact (cmp_smaller x y Hlt E). }
      constructor; [exact Hsorted|]. constructor; [exact Hyx|].
      eapply Forall_impl; [exact Hall|]. intros z Hz. cbn in *. lia.
    + apply Z.ltb_ge in E.
      assert (Hxy : (key x ≤ key y)%nat).
      { destruct (le_lt_dec (key x) (key y)) as [Hle|Hlt]; [exact Hle|].
        pose proof (cmp_larger x y Hlt). lia. }
      constructor; [apply IH, Hs|].
      rewrite sort_insert_Permutation. constructor; assumption.
Qed.

Lemma sort_key (l : list A) :
  StronglySorted (λ a b, (key b ≤ key a)%nat) (sort cmp l).
Proof.
  unfold sort. generalize (@nil A) (SSorted_nil (λ a b : A, (key b ≤ key a)%nat)).
  induction l as [|x l IH]; intros acc Hacc; cbn; [exact Hacc|].
  apply IH, sort_insert_key, Hacc.
Qed.
End SortKey.

(** *** The order of the words *)






Lemma word_before_irrefl (a : jsstring) : ¬ word_before a a.
Proof.
  unfold word_before. intros [H|[_ H]]; [lia|].
  assert (E : lex_compare a a = Eq).
  { clear H. induction a as [|x a IH]; cbn; [reflexivity|].
    rewrite Z.compare_refl. exact IH. }
  congruence.
Qed.


(** ** The solver *)

Lemma solveGrid_unfold `{Runtime} (grid : Grid) (dict prefixes : JSSet.t) :
  solveGrid grid dict prefixes =
  results ← fold_bind (λ r i, dfs grid dict prefixes 16 i 0 [] r) positions
              (Some JSSet.empty);
  Some {| allWords := sort compareWords (JSSet.to_array results) |}.
Proof. reflexivity. Qed.

(** The searches from the sixteen positions return, and what they leave in
    the result set. *)
Lemma search_results (grid : Grid) (dict prefixes : JSSet.t) :
  ∃ results,
    fold_bind (λ r i, dfs grid dict prefixes 16 i 0 [] r) positions
      (Some JSSet.empty) = Some results
    ∧ extends grid dict [] results
    ∧ ∀ i ext,
        is_path (i :: ext) →
        (∀ k, spell grid (i :: take k ext) ∈ prefixes) →
        spell grid (i :: ext) ∈ dict →
        (3 ≤ length (spell grid (i :: ext)))%nat →
        spell grid (i :: ext) ∈ results.
Proof.
  assert (Hstart : ∀ i, i ∈ positions → is_path ([] ++ [i])).
  { intros i Hi. apply is_path_single, positions_position, Hi. }
  destruct (fold_bind_total (λ r i, dfs grid dict prefixes 16 i 0 [] r) positions)
    with (a := JSSet.empty) as [results Hres].
  { intros a i Hi. apply (dfs_total grid dict prefixes 16 [] i 0 [] a);
      [apply Hstart, Hi|apply mask_of_nil|cbn; lia]. }
  assert (Hext : ∀ a i a', i ∈ positions →
            dfs grid dict prefixes 16 i 0 [] a = Some a' → extends grid dict a a').
  { intros a i a' Hi Hstep.
    apply (dfs_extends grid dict prefixes 16 [] i 0 a a');
      [apply Hstart, Hi|apply mask_of_nil|exact Hstep]. }
  exists results. split; [exact Hres|]. split.
  - revert Hres. apply fold_bind_inv; [|apply extends_refl].
    intros a i a' Hi Ha Hstep. eapply extends_trans; [exact Ha|].
    apply (Hext a i a' Hi Hstep).
  - intros i ext Hp Hpre Hdict Hlen.
    assert (Hi : i ∈ positions).
    { destruct Hp as [Hpos _ _]. inversion Hpos; subst.
      apply position_cases. assumption. }
    revert Hres.
    apply (fold_bind_hit _ (λ a, spell grid (i :: ext) ∈ a) i); [exact Hi| |].
    + intros a a' Hstep.
      apply (dfs_complete grid dict prefixes 16 ext [] i 0 a a');
        [exact Hp|apply mask_of_nil|exact Hpre|exact Hdict|exact Hlen|exact Hstep].
    + intros a j a' Hj Ha Hstep.
      destruct (Hext a j a' Hj Hstep) as [K _ _]. apply K, Ha.
Qed.

Lemma solveGrid_results `{Runtime} (grid : Grid) (dict prefixes : JSSet.t) :
  ∃ results,
    solveGrid grid dict prefixes
    = Some {| allWords := sort compareWords (JSSet.to_array results) |}
    ∧ fold_bind (λ r i, dfs grid dict prefixes 16 i 0 [] r) positions
        (Some JSSet.empty) = Some results.
Proof.
  destruct (search_results grid dict prefixes) as (results & Hres & _).
  exists results. rewrite solveGrid_unfold, Hres. split; reflexivity.
Qed.

Lemma elem_of_allWords `{Runtime} (results : JSSet.t) (w : jsstring) :
  w ∈ sort compareWords (JSSet.to_array results) ↔ w ∈ results.
Proof. rewrite sort_Permutation. reflexivity. Qed.

(** Every word of the solver's list is in the word set, has three letters or
    more and is spelled by a path. *)
Lemma solveGrid_findable `{Runtime} (grid : Grid) (dict prefixes : JSSet.t) :
  ∃ s, solveGrid grid dict prefixes = Some s
       ∧ ∀ w, w ∈ allWords s → findable grid dict w.
Proof.
  destruct (search_results grid dict prefixes) as (results & Hres & [_ _ Hs] & _).
  eexists. rewrite solveGrid_unfold, Hres. split; [reflexivity|].
  cbn [allWords]. intros w Hw. apply (proj1 (elem_of_allWords results w)) in Hw.
  destruct (Hs w Hw) as [Hnil|Hf]; [|exact Hf].
  apply not_elem_of_nil in Hnil. contradiction.
Qed.

Lemma grid_get_position (grid : Grid) (i : Z) :
  length grid = 16%nat → position i → is_Some (array_get grid i).
Proof.
  intros Hlen Hi. unfold array_get, position in *.
  destruct (i <? 0) eqn:E; [lia|].
  apply lookup_lt_is_Some. lia.
Qed.

(** C2: on a grid of sixteen tiles, with any word set and any prefix set,
    [solveGrid] returns a list, and every word of it is in the word set and
    is spelled by the tiles along a path of distinct positions of the grid,
    each adjacent to the one before. *)
Theorem solveGrid_sound `{Runtime} (grid : Grid) (dict prefixes : JSSet.t) :
  length grid = 16%nat →
  ∃ s, solveGrid grid dict prefixes = Some s
       ∧ ∀ w, w ∈ allWords s →
              w ∈ dict
              ∧ ∃ p, Forall position p ∧ NoDup p ∧ adjacent_chain p
                     ∧ Forall (λ i, is_Some (array_get grid i)) p
                     ∧ spell grid p = w.
Proof.
  intros Hlen. destruct (solveGrid_findable grid dict prefixes) as (s & Hs & Hf).
  exists s. split; [exact Hs|]. intros w Hw.
  destruct (Hf w Hw) as (Hd & _ & p & [Hpos Hnd Hadj] & Hsp).
  split; [exact Hd|]. exists p. repeat split; try assumption.
  eapply Forall_impl; [exact Hpos|]. intros i. apply grid_get_position, Hlen.
Qed.

Lemma solveGrid_sound_witness :
  length sampleGrid = 16%nat
  ∧ ∃ s, @solveGrid ascii_runtime sampleGrid (words sampleDictionary)
           (prefixes sampleDictionary) = Some s
         ∧ ∀ w, w ∈ allWords s →
                w ∈ words sampleDictionary
                ∧ ∃ p, Forall position p ∧ NoDup p ∧ adjacent_chain p
                       ∧ Forall (λ i, is_Some (array_get sampleGrid i)) p
                       ∧ spell sampleGrid p = w.
Proof.
  split; [reflexivity|].
  exact (@solveGrid_sound ascii_runtime sampleGrid (words sampleDictionary)
           (prefixes sampleDictionary) eq_refl).
Defined.

(** *** Completeness *)

(** Tiles that hold the empty string add nothing to a word: a path may be
    taken to start on a tile with a letter. *)
Lemma path_from_letter (grid : Grid) (p : list Z) :
  is_path p → spell grid p ≠ [] →
  ∃ i ext, is_path (i :: ext)
           ∧ spell grid (i :: ext) = spell grid p
           ∧ toString (grid_get grid i) ≠ [].
Proof.
  induction p as [|i p IH]; intros Hp Hne; [contradiction|].
  destruct (decide (toString (grid_get grid i) = [])) as [E|E].
  - assert (Hsp : spell grid (i :: p) = spell grid p).
    { unfold spell. cbn. rewrite E. reflexivity. }
    rewrite Hsp in *. apply IH; [|exact Hne].
    apply (is_path_app_r [i] p Hp).
  - exists i, p. auto.
Qed.

(** The letters along the first steps of a path begin its word. *)
Lemma spell_take (grid : Grid) (p : list Z) (k : nat) :
  spell grid (take k p)
  = take (length (spell grid (take k p))) (spell grid p).
Proof.
  rewrite <- (take_drop k p) at 3. rewrite spell_app.
  rewrite take_app_length. reflexivity.
Qed.

Lemma solveGrid_finds `{Runtime} (grid : Grid) (dict prefixes : JSSet.t)
    (w : jsstring) :
  (3 ≤ length w)%nat →
  (∀ i, (1 ≤ i ≤ length w)%nat → take i w ∈ prefixes) →
  w ∈ dict → traceable grid w →
  ∃ s, solveGrid grid dict prefixes = Some s ∧ w ∈ allWords s.
Proof.
  intros Hlen Hpre Hdict (p & Hp & Hsp).
  destruct (search_results grid dict prefixes) as (results & Hres & _ & Hfind).
  eexists. rewrite solveGrid_unfold, Hres. split; [reflexivity|].
  cbn [allWords]. apply elem_of_allWords.
  destruct (path_from_letter grid p Hp) as (i & ext & Hpi & Hspi & Hi).
  { rewrite Hsp. intros ->. cbn in Hlen. lia. }
  rewrite <- Hsp, <- Hspi. apply Hfind.
  - exact Hpi.
  - intros k. change (i :: take k ext) with (take (S k) (i :: ext)).
    rewrite spell_take, Hspi, Hsp. apply Hpre. split.
    + cbn [take]. unfold spell. cbn. rewrite length_app.
      destruct (toString (grid_get grid i)); [contradiction|cbn; lia].
    + rewrite <- Hsp, <- Hspi. rewrite <- (take_drop (S k) (i :: ext)) at 2.
      rewrite spell_app, length_app. lia.
  - rewrite Hspi, Hsp. exact Hdict.
  - rewrite Hspi, Hsp. exact Hlen.
Qed.

(** C3: on a grid of sixteen tiles and with the index built from any text,
    every word of the word set that some path of distinct, adjacent
    positions spells is in the list [solveGrid] returns. *)
Theorem solveGrid_complete `{Runtime} (grid : Grid) (rawText w : jsstring)
    (p : list Z) :
  length grid = 16%nat →
  w ∈ words (buildDictionary rawText) →
  Forall position p → NoDup p → adjacent_chain p → spell grid p = w →
  ∃ s, solveGrid grid (words (buildDictionary rawText))
         (prefixes (buildDictionary rawText)) = Some s
       ∧ w ∈ allWords s.
Proof.
  intros _ Hw Hpos Hnd Hadj Hsp.
  destruct (buildDictionary_ok rawText) as [Hacc _].
  destruct (Hacc w Hw) as [Hlen _ Hpre].
  apply solveGrid_finds; [exact Hlen|exact Hpre|exact Hw|].
  exists p. split; [split; assumption|exact Hsp].
Qed.

Lemma solveGrid_complete_witness :
  (length sampleGrid = 16%nat
   ∧ str "cats" ∈ words (@buildDictionary ascii_runtime sampleText)
   ∧ Forall position [0; 1; 2; 3] ∧ NoDup [0; 1; 2; 3]
   ∧ adjacent_chain [0; 1; 2; 3]
   ∧ spell sampleGrid [0; 1; 2; 3] = str "cats")
  ∧ ∃ s, @solveGrid ascii_runtime sampleGrid
           (words (@buildDictionary ascii_runtime sampleText))
           (prefixes (@buildDictionary ascii_runtime sampleText)) = Some s
         ∧ str "cats" ∈ allWords s.
Proof.
  assert (Hw : str "cats" ∈ words (@buildDictionary ascii_runtime sampleText))
    by by_computation.
  assert (Hpos : Forall position [0; 1; 2; 3]).
  { repeat constructor; unfold position; lia. }
  assert (Hnd : NoDup [0; 1; 2; 3]) by by_computation.
  assert (Hadj : adjacent_chain [0; 1; 2; 3]).
  { cbn. auto. }
  split; [repeat split; auto|].
  exact (@solveGrid_complete ascii_runtime sampleGrid sampleText (str "cats")
           [0; 1; 2; 3] eq_refl Hw Hpos Hnd Hadj eq_refl).
Defined.

(** *** Ordering *)

(** On every host and with any word set, the list has no word twice and
    no word before a longer one. *)
Lemma solveGrid_longest_first `{Runtime} (grid : Grid) (dict prefixes : JSSet.t) :
  ∃ s, solveGrid grid dict prefixes = Some s
       ∧ NoDup (allWords s)
       ∧ StronglySorted (λ a b, (length b ≤ length a)%nat) (allWords s).
Proof.
  destruct (search_results grid dict prefixes) as (results & Hres & [_ Hnd _] & _).
  eexists. rewrite solveGrid_unfold, Hres. split; [reflexivity|].
  cbn [allWords]. split.
  - rewrite sort_Permutation. apply Hnd, NoDup_nil_2.
  - apply sort_key; intros a b Hlen; unfold compareWords.
    + destruct (negb _) eqn:E; [lia|].
      apply negb_false_iff, Z.eqb_eq in E. lia.
    + destruct (negb _) eqn:E; [lia|].
      apply negb_false_iff, Z.eqb_eq in E. lia.
Qed.





(** The example of the ordering: cat, cats, bat come out as cats, bat, cat. *)
Example sort_example :
  sort (@compareWords ascii_runtime) (str <$> ["cat"; "cats"; "bat"]%string)
  = str <$> ["cats"; "bat"; "cat"]%string.
Proof. reflexivity. Qed.

(** ** Scoring *)

(** The four cases of an outcome: the one at hand holds by computation, the
    others contradict what is known of the word. *)
Ltac scoring_cases :=
  repeat match goal with
         | |- _ ∧ _ => split
         | |- _ → _ => intros
         end;
  first [reflexivity | lia | contradiction].

(** C4: a submission made while the game runs, with [w] the normalized
    candidate, records one outcome: invalid with delta -1 when [w] has fewer
    than three letters; otherwise duplicate with delta -1 when [w] was found
    before; otherwise new with delta length - 2 when [w] is in the solver's
    list; otherwise invalid with delta -1.  The score becomes the old score
    plus the delta, and 0 if that is negative. *)
Theorem handleSubmit_scoring `{Runtime} (p : Page) (g : Game) (s : SolverData) :
  running g = true → finished g = false →
  solver (puzzle p) = Some s →
  validWordSet (puzzle p) = Some (JSSet.from_array (allWords s)) →
  let w := normalizeWord (currentWord p g) in
  let g' := handleSubmit p g in
  ∃ sub,
    submissions g' = sub :: submissions g
    ∧ score g' = Z.max 0 (score g + delta sub)
    ∧ ((length w < 3)%nat → status sub = invalid ∧ delta sub = -1)
    ∧ ((3 ≤ length w)%nat → w ∈ foundWords g →
       status sub = duplicate ∧ delta sub = -1)
    ∧ ((3 ≤ length w)%nat → w ∉ foundWords g → w ∈ allWords s →
       status sub = new ∧ delta sub = Z.of_nat (length w) - 2)
    ∧ ((3 ≤ length w)%nat → w ∉ foundWords g → w ∉ allWords s →
       status sub = invalid ∧ delta sub = -1).
Proof.
  intros Hrun Hfin Hsolver Hvalid w g'. subst g'. unfold handleSubmit.
  rewrite Hrun, Hfin, Hsolver, Hvalid. cbn [negb orb]. fold w.
  destruct (Z.of_nat (length w) <? 3) eqn:Hlen.
  { apply Z.ltb_lt in Hlen. eexists. cbn.
    split; [reflexivity|]. split; [reflexivity|]. scoring_cases. }
  apply Z.ltb_ge in Hlen.
  destruct (JSSet.has (foundWords g) w) eqn:Hfound.
  { apply has_true in Hfound. eexists. cbn.
    split; [reflexivity|]. split; [reflexivity|]. scoring_cases. }
  apply has_false in Hfound.
  destruct (JSSet.has (JSSet.from_array (allWords s)) w) eqn:Hin.
  - apply has_true in Hin. rewrite elem_of_from_array in Hin. eexists. cbn.
    split; [reflexivity|]. split; [reflexivity|]. scoring_cases.
  - apply has_false in Hin. rewrite elem_of_from_array in Hin. eexists. cbn.
    split; [reflexivity|]. split; [reflexivity|]. scoring_cases.
Qed.

Lemma handleSubmit_scoring_witness :
  (running playSelected = true
   ∧ finished playSelected = false
   ∧ solver (puzzle playPage) = Some playSolver
   ∧ validWordSet (puzzle playPage)
     = Some (JSSet.from_array (allWords playSolver)))
  ∧ ∃ sub,
      submissions (@handleSubmit ascii_runtime playPage playSelected)
      = sub :: submissions playSelected
      ∧ score (@handleSubmit ascii_runtime playPage playSelected)
        = Z.max 0 (score playSelected + delta sub)
      ∧ status sub = new
      ∧ delta sub = 1.
Proof.
  assert (H1 : running playSelected = true) by (vm_compute; reflexivity).
  assert (H2 : finished playSelected = false) by (vm_compute; reflexivity).
  assert (H3 : solver (puzzle playPage) = Some playSolver)
    by (vm_compute; reflexivity).
  assert (H4 : validWordSet (puzzle playPage)
               = Some (JSSet.from_array (allWords playSolver)))
    by (vm_compute; reflexivity).
  split; [auto|].
  pose proof (@handleSubmit_scoring ascii_runtime playPage playSelected
                playSolver H1 H2 H3 H4) as Hs.
  cbv zeta in Hs. destruct Hs as (sub & Hsub & Hscore & _ & _ & Hnew & _).
  exists sub. split; [exact Hsub|]. split; [exact Hscore|].
  apply Hnew; by_computation.
Defined.

(** ** Found words *)

Lemma handleTileClick_foundWords (p : Page) (index : Z) (g : Game) :
  foundWords (handleTileClick p index g) = foundWords g.
Proof.
  unfold handleTileClick, setSelected.
  repeat match goal with
         | |- context [if ?b then _ else _] => destruct b
         | |- context [match ?o with Some _ => _ | None => _ end] => destruct o
         end; reflexivity.
Qed.

Lemma tick_foundWords (g : Game) : foundWords (tick g) = foundWords g.
Proof.
  unfold tick.
  repeat match goal with
         | |- context [if ?b then _ else _] => destruct b
         end; reflexivity.
Qed.

Lemma handleStart_foundWords (p : Page) (g : Game) :
  foundWords (handleStart p g) = foundWords g
  ∨ foundWords (handleStart p g) = JSSet.empty.
Proof.
  unfold handleStart.
  repeat match goal with
         | |- context [if ?b then _ else _] => destruct b
         end; auto.
Qed.

Lemma handleSubmit_foundWords `{Runtime} (p : Page) (g : Game) (w : jsstring) :
  w ∈ foundWords (handleSubmit p g) →
  w ∈ foundWords g
  ∨ ∃ valid, validWordSet (puzzle p) = Some valid ∧ w ∈ valid.
Proof.
  unfold handleSubmit.
  destruct (negb (running g) || finished g); [auto|].
  destruct (solver (puzzle p)) as [s|]; [|auto].
  destruct (validWordSet (puzzle p)) as [valid|]; [|auto].
  destruct (Z.of_nat _ <? 3); [auto|].
  destruct (JSSet.has (foundWords g) _); [auto|].
  destruct (JSSet.has valid _) eqn:Hin; [|auto].
  cbn. intros Hw. apply elem_of_add in Hw as [->|Hw]; [|auto].
  right. exists valid. split; [reflexivity|]. apply has_true, Hin.
Qed.

(** Every found word is in the set of valid words. *)
Lemma reachable_foundWords `{Runtime} (p : Page) (g : Game) :
  reachable p g →
  ∀ w, w ∈ foundWords g →
       ∃ valid, validWordSet (puzzle p) = Some valid ∧ w ∈ valid.
Proof.
  induction 1 as [|g e Hg IH]; intros w Hw.
  - apply not_elem_of_nil in Hw. contradiction.
  - destruct e as [index| | | |]; cbn [handle] in Hw.
    + rewrite handleTileClick_foundWords in Hw. auto.
    + auto.
    + apply handleSubmit_foundWords in Hw as [Hw|Hw]; auto.
    + destruct (handleStart_foundWords p g) as [E|E]; rewrite E in Hw; [auto|].
      apply not_elem_of_nil in Hw. contradiction.
    + rewrite tick_foundWords in Hw. auto.
Qed.

(** What the memo holds when it holds a set of valid words. *)
Lemma playMemo_valid `{Runtime} (id : option jsstring)
    (dict prefixes : option JSSet.t) (σ σ' : Store) (pz : Puzzle)
    (valid : JSSet.t) :
  playMemo id dict prefixes σ = Some (pz, σ') →
  validWordSet pz = Some valid →
  ∃ i d pf s,
    id = Some i ∧ dict = Some d ∧ prefixes = Some pf
    ∧ grid pz = Some (fst (puzzleGrid i σ))
    ∧ solveGrid (fst (puzzleGrid i σ)) d pf = Some s
    ∧ solver pz = Some s
    ∧ valid = JSSet.from_array (allWords s).
Proof.
  unfold playMemo. intros Hmemo Hvalid.
  destruct id as [i|], dict as [d|], prefixes as [pf|];
    try (injection Hmemo as <- _; discriminate).
  destruct (bool_decide (i = [])); [injection Hmemo as <- _; discriminate|].
  destruct (puzzleGrid i σ) as [gr σ1] eqn:Eg.
  destruct (solveGrid gr d pf) as [s|] eqn:Es; [|discriminate].
  cbn in Hmemo. injection Hmemo as <- _. cbn in Hvalid. injection Hvalid as <-.
  exists i, d, pf, s. rewrite Eg. cbn [fst grid solver].
  repeat split; try reflexivity. exact Es.
Qed.

(** C10: in every state a game reaches from its first render, under the
    puzzle of the memo, each found word is in the list the solver returned
    for the grid of the puzzle, so it is a word of the word set spelled by a
    path on that grid. *)
Theorem foundWords_solvable `{Runtime} (id : option jsstring)
    (dict prefixes : option JSSet.t) (σ σ' : Store) (p : Page) (g : Game)
    (w : jsstring) :
  playMemo id dict prefixes σ = Some (puzzle p, σ') →
  reachable p g →
  w ∈ foundWords g →
  ∃ gr d pf s,
    grid (puzzle p) = Some gr ∧ dict = Some d ∧ prefixes = Some pf
    ∧ solveGrid gr d pf = Some s
    ∧ validWordSet (puzzle p) = Some (JSSet.from_array (allWords s))
    ∧ w ∈ allWords s
    ∧ w ∈ d
    ∧ traceable gr w.
Proof.
  intros Hmemo Hreach Hw.
  destruct (reachable_foundWords p g Hreach w Hw) as (valid & Hvalid & Hin).
  destruct (playMemo_valid id dict prefixes σ σ' (puzzle p) valid Hmemo Hvalid)
    as (i & d & pf & s & -> & -> & -> & Hgrid & Hsolve & _ & ->).
  rewrite elem_of_from_array in Hin.
  destruct (solveGrid_findable (fst (puzzleGrid i σ)) d pf) as (s' & Hs' & Hf).
  rewrite Hsolve in Hs'. injection Hs' as <-.
  destruct (Hf w Hin) as (Hd & _ & Htr).
  exists (fst (puzzleGrid i σ)), d, pf, s. auto 10.
Qed.

Lemma reachable_run `{Runtime} (p : Page) (events : list Event) :
  ∀ g, reachable p g → reachable p (run p events g).
Proof.
  induction events as [|e events IH]; intros g Hg; [exact Hg|].
  apply IH. constructor. exact Hg.
Qed.

Lemma foundWords_solvable_witness :
  (@playMemo ascii_runtime (Some playId) (Some (words playDictionary))
     (Some (prefixes playDictionary)) [] = Some (puzzle playPage, playStore)
   ∧ @reachable ascii_runtime playPage playSubmitted
   ∧ str "are" ∈ foundWords playSubmitted)
  ∧ ∃ gr d pf s,
      grid (puzzle playPage) = Some gr
      ∧ Some (words playDictionary) = Some d
      ∧ Some (prefixes playDictionary) = Some pf
      ∧ @solveGrid ascii_runtime gr d pf = Some s
      ∧ validWordSet (puzzle playPage) = Some (JSSet.from_array (allWords s))
      ∧ str "are" ∈ allWords s
      ∧ str "are" ∈ d
      ∧ traceable gr (str "are").
Proof.
  assert (Hm : @playMemo ascii_runtime (Some playId) (Some (words playDictionary))
                 (Some (prefixes playDictionary)) []
               = Some (puzzle playPage, playStore)) by (vm_compute; reflexivity).
  assert (Hr : @reachable ascii_runtime playPage playSubmitted).
  { unfold playSubmitted, playSelected. do 2 apply reachable_run. constructor. }
  assert (Hw : str "are" ∈ foundWords playSubmitted) by by_computation.
  split; [auto|].
  exact (@foundWords_solvable ascii_runtime (Some playId)
           (Some (words playDictionary)) (Some (prefixes playDictionary))
           [] playStore playPage playSubmitted (str "are") Hm Hr Hw).
Defined.

(** ** Evaluations *)

Example hashStringToSeed_playId : hashStringToSeed playId = 3140140472.
Proof. reflexivity. Qed.

Example hashStringToSeed_empty : hashStringToSeed [] = 167010153.
Proof. reflexivity. Qed.

(** The first number from seed 0 is that from seed 1. *)
Example mulberry32_first :
  draws mulberry32_call 1 (mulberry32_init 0) = [2693262067 # 4294967296].
Proof. reflexivity. Qed.

Example puzzleGrid_playId :
  fst (puzzleGrid playId [])
  = Str <$> (str <$> ["b"; "d"; "a"; "qu"; "qu"; "e"; "r"; "i";
                      "qu"; "qu"; "e"; "i"; "k"; "s"; "z"; "c"]%string).
Proof. vm_compute. reflexivity. Qed.

Example buildDictionary_sampleText :
  sampleDictionary
  = {| words := str <$> ["cat"; "cats"; "act"]%string;
       prefixes := str <$> ["c"; "ca"; "cat"; "cats"; "a"; "ac"; "act"]%string |}.
Proof. vm_compute. reflexivity. Qed.

(** A source that always returns 549858094039421 / 2^49: the product with
    43 rounds up to 42, so every tile is the last entry of the letter bag. *)
Example generateGrid_rounded_index :
  fst (generateGrid (λ σ : unit, ((549858094039421 # 562949953421312)%Q, σ)) tt)
  = replicate 16 (Str (str "z")).
Proof. vm_compute. reflexivity. Qed.

(** On the first row c, a, t, s the tiles c and t are not adjacent, so no
    path spells act. *)
Example solveGrid_sampleGrid :
  @solveGrid ascii_runtime sampleGrid (words sampleDictionary)
    (prefixes sampleDictionary)
  = Some {| allWords := str <$> ["cats"; "cat"]%string |}.
Proof. vm_compute. reflexivity. Qed.

Example solveGrid_playId :
  allWords playSolver = str <$> ["are"; "bed"; "ear"]%string.
Proof. vm_compute. reflexivity. Qed.

Example playSubmitted_score :
  score playSubmitted = 1 ∧ foundWords playSubmitted = [str "are"].
Proof. vm_compute. split; reflexivity. Qed.

(** * Further properties *)

(** ** The dictionary index, line by line *)

Lemma test_az_letters (w : jsstring) :
  w ≠ [] → Forall is_az w → test_az w = true.
Proof. intros Hne Hw. apply bool_decide_eq_true. auto. Qed.

(** What a line does to the index: nothing, or its normalized word and the
    prefixes of that word.  The test against the pattern never rejects. *)
Lemma dictionary_line_cases `{Runtime} (d : Dictionary) (line : jsstring) :
  let w := normalizeWord (trim line) in
  ((length w < 3)%nat ∧ dictionary_line d line = d)
  ∨ ((3 ≤ length w)%nat
     ∧ dictionary_line d line
       = {| words := JSSet.add w (words d);
            prefixes := add_prefixes w (prefixes d) |}).
Proof.
  intros w. unfold dictionary_line. fold w.
  destruct (Z.of_nat (length w) <? 3) eqn:Hlen.
  - left. apply Z.ltb_lt in Hlen. rewrite orb_true_r. split; [lia|reflexivity].
  - right. apply Z.ltb_ge in Hlen.
    assert (Hne : w ≠ []) by (intros E; rewrite E in Hlen; cbn in Hlen; lia).
    rewrite (bool_decide_eq_false_2 _ Hne). cbn [orb].
    rewrite (test_az_letters w Hne (normalizeWord_letters (trim line))).
    split; [lia|reflexivity].
Qed.

Lemma fold_dictionary_line_words `{Runtime} (lines : list jsstring) :
  ∀ d w,
    w ∈ words (fold_left dictionary_line lines d) ↔
    w ∈ words d
    ∨ ∃ line, line ∈ lines ∧ normalizeWord (trim line) = w ∧ (3 ≤ length w)%nat.
Proof.
  induction lines as [|line lines IH]; intros d w; cbn [fold_left].
  - split; [auto|]. intros [?|(l & Hl & _)]; [assumption|].
    apply not_elem_of_nil in Hl. contradiction.
  - rewrite IH. destruct (dictionary_line_cases d line) as [[Hlen ->]|[Hlen ->]].
    + split.
      * intros [?|(l & Hl & ?)]; [auto|]. right. exists l.
        split; [apply list_elem_of_further, Hl|assumption].
      * intros [?|(l & Hl & Hw & Hlw)]; [auto|].
        apply elem_of_cons in Hl as [->|Hl]; [subst w; lia|].
        right. exists l. auto.
    + cbn [words]. rewrite elem_of_add. split.
      * intros [[->|?]|(l & Hl & ?)]; [|auto|].
        -- right. exists line. split; [apply list_elem_of_here|auto].
        -- right. exists l. split; [apply list_elem_of_further, Hl|assumption].
      * intros [?|(l & Hl & Hw & Hlw)]; [auto|].
        apply elem_of_cons in Hl as [->|Hl]; [auto|].
        right. exists l. auto.
Qed.

(** X1: the word set holds exactly the normalized lines of three letters or
    more: a word is in it when, and only when, some line of the text, trimmed,
    lower-cased and stripped of everything but a-z, is that word and has at
    least three letters. *)
Theorem buildDictionary_words `{Runtime} (rawText w : jsstring) :
  w ∈ words (buildDictionary rawText) ↔
  ∃ line, line ∈ split_lines rawText
          ∧ normalizeWord (trim line) = w ∧ (3 ≤ length w)%nat.
Proof.
  unfold buildDictionary. rewrite fold_dictionary_line_words. cbn [words].
  split; [|auto]. intros [Hnil|?]; [|assumption].
  apply not_elem_of_nil in Hnil. contradiction.
Qed.

Lemma fold_dictionary_line_prefixes `{Runtime} (lines : list jsstring) :
  ∀ d,
    (∀ p, p ∈ prefixes d →
          ∃ w i, w ∈ words d ∧ (1 ≤ i ≤ length w)%nat ∧ p = take i w) →
    ∀ p, p ∈ prefixes (fold_left dictionary_line lines d) →
         ∃ w i, w ∈ words (fold_left dictionary_line lines d)
                ∧ (1 ≤ i ≤ length w)%nat ∧ p = take i w.
Proof.
  induction lines as [|line lines IH]; intros d Hd; cbn [fold_left]; [exact Hd|].
  apply IH. destruct (dictionary_line_cases d line) as [[_ ->]|[_ ->]];
    [exact Hd|].
  cbn [words prefixes]. intros p Hp.
  apply elem_of_add_prefixes in Hp as [Hp|(i & Hi & ->)].
  - destruct (Hd p Hp) as (w & i & Hw & Hi & ->).
    exists w, i. split; [apply elem_of_add; auto|auto].
  - eexists _, i. split; [apply elem_of_add; left; reflexivity|auto].
Qed.

(** X2: the prefix set holds nothing but prefixes of accepted words: every
    member is the first i letters, for some i of at least 1, of a word of the
    word set; the empty string is never a member. *)
Theorem buildDictionary_prefixes_of_words `{Runtime} (rawText p : jsstring) :
  p ∈ prefixes (buildDictionary rawText) →
  p ≠ []
  ∧ ∃ w i, w ∈ words (buildDictionary rawText)
           ∧ (1 ≤ i ≤ length w)%nat ∧ p = take i w.
Proof.
  intros Hp.
  assert (H0 : ∃ w i, w ∈ words (buildDictionary rawText)
                      ∧ (1 ≤ i ≤ length w)%nat ∧ p = take i w).
  { revert p Hp. unfold buildDictionary. apply fold_dictionary_line_prefixes.
    cbn. intros p Hp. apply not_elem_of_nil in Hp. contradiction. }
  split; [|exact H0]. destruct H0 as (w & i & _ & Hi & ->).
  destruct w as [|c w]; [cbn in Hi; lia|].
  destruct i as [|i]; [lia|]. discriminate.
Qed.

Lemma buildDictionary_prefixes_of_words_witness :
  str "ca" ∈ prefixes (@buildDictionary ascii_runtime sampleText)
  ∧ str "ca" ≠ []
  ∧ ∃ w i, w ∈ words (@buildDictionary ascii_runtime sampleText)
           ∧ (1 ≤ i ≤ length w)%nat ∧ str "ca" = take i w.
Proof.
  assert (Hp : str "ca" ∈ prefixes (@buildDictionary ascii_runtime sampleText))
    by by_computation.
  split; [exact Hp|].
  exact (@buildDictionary_prefixes_of_words ascii_runtime sampleText (str "ca") Hp).
Defined.

(** *** A clean word list *)

Lemma is_az_not_space (c : Z) : is_az c → is_space c = false.
Proof.
  unfold is_az, is_space. intros Hc.
  apply orb_false_iff. split.
  - apply bool_decide_eq_false. intros Hin.
    repeat (apply elem_of_cons in Hin as [->|Hin]; [lia|]).
    apply not_elem_of_nil in Hin. contradiction.
  - apply andb_false_iff. left. apply Z.leb_gt. lia.
Qed.

Lemma trimStart_letters (w : jsstring) : Forall is_az w → trimStart w = w.
Proof.
  intros Hw. destruct Hw as [|c w Hc Hw]; [reflexivity|].
  cbn. rewrite (is_az_not_space c Hc). reflexivity.
Qed.

Lemma trim_letters (w : jsstring) : Forall is_az w → trim w = w.
Proof.
  intros Hw. unfold trim. rewrite (trimStart_letters w Hw).
  rewrite trimStart_letters by (apply Forall_rev, Hw).
  apply rev_involutive.
Qed.

Lemma normalizeWord_letters_id `{Runtime} (w : jsstring) :
  fixes_lowercase → Forall is_az w → normalizeWord w = w.
Proof.
  intros Hfix Hw. unfold normalizeWord. cbv zeta. rewrite (Hfix w Hw).
  clear Hfix. induction Hw as [|c w Hc Hw IH]; [reflexivity|].
  unfold jsstring in *. rewrite filter_cons_True by exact Hc. f_equal. exact IH.
Qed.

Lemma split_lines_letters (w : jsstring) :
  Forall is_az w → split_lines w = [w].
Proof.
  induction 1 as [|c w Hc Hw IH]; [reflexivity|].
  cbn [split_lines]. unfold is_az in Hc.
  destruct (c =? 10) eqn:E10; [lia|].
  destruct (c =? 13) eqn:E13; [lia|].
  cbn [andb]. rewrite IH. reflexivity.
Qed.

Lemma split_lines_app (w sep rest : jsstring) :
  Forall is_az w → line_separator sep →
  split_lines (w ++ sep ++ rest) = w :: split_lines rest.
Proof.
  intros Hw Hsep. induction Hw as [|c w Hc Hw IH].
  - destruct Hsep as [->| ->]; reflexivity.
  - cbn [app split_lines]. unfold is_az in Hc.
    destruct (c =? 10) eqn:E10; [lia|].
    destruct (c =? 13) eqn:E13; [lia|].
    cbn [andb]. rewrite IH. reflexivity.
Qed.

Lemma split_join_lines (sep : jsstring) (ws : list jsstring) :
  line_separator sep → Forall (Forall is_az) ws → ws ≠ [] →
  split_lines (join_lines sep ws) = ws.
Proof.
  intros Hsep Hws. induction Hws as [|w ws Hw Hws IH]; intros Hne;
    [contradiction|].
  destruct ws as [|w' ws].
  - cbn. apply split_lines_letters, Hw.
  - change (join_lines sep (w :: w' :: ws))
      with (w ++ sep ++ join_lines sep (w' :: ws)).
    rewrite (split_lines_app w sep _ Hw Hsep), IH by discriminate. reflexivity.
Qed.

Lemma fold_dictionary_line_clean `{Runtime} (ws : list jsstring) :
  fixes_lowercase → Forall clean_word ws →
  ∀ d, NoDup (words d ++ ws) →
       words (fold_left dictionary_line ws d) = words d ++ ws.
Proof.
  intros Hfix Hws. induction Hws as [|w ws [Hw Hlen] Hws IH]; intros d Hnd;
    cbn [fold_left]; [rewrite app_nil_r; reflexivity|].
  destruct (dictionary_line_cases d w) as [[Hshort _]|[_ Eline]];
    rewrite (trim_letters w Hw), (normalizeWord_letters_id w Hfix Hw) in *;
    [lia|].
  rewrite Eline.
  assert (Hfresh : w ∉ words d).
  { apply NoDup_app in Hnd as (_ & Hdis & _). intros Hin.
    apply (Hdis w Hin). apply list_elem_of_here. }
  assert (Eadd : JSSet.add w (words d) = words d ++ [w]).
  { unfold JSSet.add. apply has_false in Hfresh. rewrite Hfresh. reflexivity. }
  rewrite IH; cbn [words]; rewrite Eadd, <- app_assoc; [reflexivity|exact Hnd].
Qed.

(** X3: a word list of distinct lower-case words of three letters or more,
    one to a line, lines ended by LF or by CR LF, is indexed as it stands: the
    word set holds those words and no others, in the order of the list (on a
    host whose [toLowerCase] leaves lower-case ASCII unchanged). *)
Theorem buildDictionary_clean_list `{Runtime} (sep : jsstring)
    (ws : list jsstring) :
  fixes_lowercase → line_separator sep →
  Forall clean_word ws → NoDup ws →
  JSSet.to_array (words (buildDictionary (join_lines sep ws))) = ws.
Proof.
  intros Hfix Hsep Hws Hnd. unfold buildDictionary, JSSet.to_array.
  destruct ws as [|w ws].
  { cbn [join_lines split_lines fold_left].
    destruct (dictionary_line_cases
                {| words := JSSet.empty; prefixes := JSSet.empty |} [])
      as [[_ ->]|[Hlen _]]; [reflexivity|].
    change (trim []) with (@nil Z) in Hlen.
    rewrite (normalizeWord_letters_id [] Hfix (Forall_nil_2 _)) in Hlen.
    cbn in Hlen. lia. }
  rewrite split_join_lines; [|exact Hsep| |discriminate].
  - rewrite fold_dictionary_line_clean; [reflexivity|exact Hfix|exact Hws|exact Hnd].
  - eapply Forall_impl; [exact Hws|]. intros v [Hv _]. exact Hv.
Qed.

Lemma ascii_runtime_fixes_lowercase : @fixes_lowercase ascii_runtime.
Proof.
  intros s Hs. cbn. induction Hs as [|c s Hc Hs IH]; [reflexivity|].
  cbn. rewrite IH. f_equal. unfold ascii_lower, is_az in *.
  destruct (65 <=? c) eqn:E1; destruct (c <=? 90) eqn:E2; cbn; try reflexivity.
  lia.
Qed.

Lemma buildDictionary_clean_list_witness :
  (@fixes_lowercase ascii_runtime ∧ line_separator [13; 10]
   ∧ Forall clean_word (str <$> ["are"; "ear"; "bed"]%string)
   ∧ NoDup (str <$> ["are"; "ear"; "bed"]%string))
  ∧ JSSet.to_array
      (words (@buildDictionary ascii_runtime
                (join_lines [13; 10] (str <$> ["are"; "ear"; "bed"]%string))))
    = str <$> ["are"; "ear"; "bed"]%string.
Proof.
  assert (Hsep : line_separator [13; 10]) by (right; reflexivity).
  assert (Hws : Forall clean_word (str <$> ["are"; "ear"; "bed"]%string))
    by by_computation.
  assert (Hnd : NoDup (str <$> ["are"; "ear"; "bed"]%string)) by by_computation.
  split; [auto using ascii_runtime_fixes_lowercase|].
  exact (@buildDictionary_clean_list ascii_runtime [13; 10] _
           ascii_runtime_fixes_lowercase Hsep Hws Hnd).
Defined.

(** ** What the solver reports, whatever the sets *)

(** A call of [dfs] adds only members of the prefix set. *)
Lemma dfs_in_prefixes (grid : Grid) (dict prefixes : JSSet.t) (fuel : nat) :
  ∀ (index mask : Z) (current : jsstring) (results out : JSSet.t),
    dfs grid dict prefixes fuel index mask current results = Some out →
    ∀ w, w ∈ out → w ∈ results ∨ w ∈ prefixes.
Proof.
  induction fuel as [|fuel IH]; intros index mask current results out Hout;
    [discriminate|].
  rewrite dfs_unfold in Hout. cbv zeta in Hout.
  destruct (negb _) eqn:Hpre; [injection Hout as <-; auto|].
  apply negb_false_iff, has_true in Hpre.
  revert Hout.
  apply (fold_bind_inv _ (λ a, ∀ w, w ∈ a → w ∈ results ∨ w ∈ prefixes)).
  - intros a n a' _ Ha Hstep w Hw. unfold dfs_next in Hstep.
    destruct (JS.truthy _); [injection Hstep as <-; auto|].
    destruct (negb (isAdjacent index n)); [injection Hstep as <-; auto|].
    destruct (IH _ _ _ _ _ Hstep w Hw) as [Hin|Hin]; auto.
  - intros w Hw. unfold dfs_record in Hw.
    destruct (_ && _); [|auto].
    apply elem_of_add in Hw as [->|Hw]; auto.
Qed.

Lemma search_in_prefixes (grid : Grid) (dict prefixes results : JSSet.t) :
  fold_bind (λ r i, dfs grid dict prefixes 16 i 0 [] r) positions
    (Some JSSet.empty) = Some results →
  ∀ w, w ∈ results → w ∈ prefixes.
Proof.
  intros Hres w Hw.
  assert (H : w ∈ JSSet.empty ∨ w ∈ prefixes).
  { revert Hres w Hw.
    apply (fold_bind_inv _ (λ a, ∀ w, w ∈ a → w ∈ JSSet.empty ∨ w ∈ prefixes));
      [|auto].
    intros a i a' _ Ha Hstep w Hw.
    destruct (dfs_in_prefixes _ _ _ _ _ _ _ _ _ Hstep w Hw) as [Hin|Hin]; auto. }
  destruct H as [H|H]; [|exact H]. apply not_elem_of_nil in H. contradiction.
Qed.

(** X4: for any grid, word set and prefix set, every word [solveGrid]
    reports has three letters or more and is a member of both the word set
    and the prefix set: a word of the word set that the prefix set lacks is
    never reported. *)
Theorem solveGrid_reports `{Runtime} (grid : Grid) (dict prefixes : JSSet.t) :
  ∃ s, solveGrid grid dict prefixes = Some s
       ∧ ∀ w, w ∈ allWords s →
              (3 ≤ length w)%nat ∧ w ∈ dict ∧ w ∈ prefixes.
Proof.
  destruct (search_results grid dict prefixes) as (results & Hres & [_ _ Hs] & _).
  eexists. rewrite solveGrid_unfold, Hres. split; [reflexivity|].
  cbn [allWords]. intros w Hw. rewrite elem_of_allWords in Hw.
  pose proof (search_in_prefixes _ _ _ _ Hres w Hw) as Hpre.
  destruct (Hs w Hw) as [Hnil|(Hd & Hlen & _)]; [|auto].
  apply not_elem_of_nil in Hnil. contradiction.
Qed.

Lemma sort_nil_inv {A} (cmp : A → A → Z) (l : list A) :
  (∀ x, x ∉ l) → sort cmp l = [].
Proof.
  intros Hl. destruct l as [|x l]; [reflexivity|].
  exfalso. apply (Hl x), list_elem_of_here.
Qed.

(** X5: with an empty prefix set or an empty word set, as the page installs
    when the dictionary cannot be loaded, [solveGrid] returns the empty list
    on every grid. *)
Theorem solveGrid_empty_dictionary `{Runtime} (grid : Grid)
    (dict prefixes : JSSet.t) :
  dict = JSSet.empty ∨ prefixes = JSSet.empty →
  solveGrid grid dict prefixes = Some {| allWords := [] |}.
Proof.
  intros Hempty.
  destruct (search_results grid dict prefixes) as (results & Hres & [_ _ Hs] & _).
  rewrite solveGrid_unfold, Hres. cbn. f_equal. f_equal.
  apply sort_nil_inv. intros w Hw.
  pose proof (search_in_prefixes _ _ _ _ Hres w Hw) as Hpre.
  destruct (Hs w Hw) as [Hnil|(Hd & _)].
  - apply not_elem_of_nil in Hnil. contradiction.
  - destruct Hempty as [-> | ->]; eapply not_elem_of_nil; eassumption.
Qed.

Lemma solveGrid_empty_dictionary_witness :
  (JSSet.empty = JSSet.empty ∨ JSSet.empty = JSSet.empty)
  ∧ @solveGrid ascii_runtime sampleGrid JSSet.empty JSSet.empty
    = Some {| allWords := [] |}.
Proof.
  split; [left; reflexivity|].
  exact (@solveGrid_empty_dictionary ascii_runtime sampleGrid JSSet.empty
           JSSet.empty (or_introl eq_refl)).
Defined.

(** ** The generator as a counter *)

Lemma ToInt32_mod (x y : Z) :
  x mod JS.two32 = y mod JS.two32 → JS.ToInt32 x = JS.ToInt32 y.
Proof. intros E. unfold JS.ToInt32. rewrite E. reflexivity. Qed.

Lemma ToInt32_congr (x : Z) : JS.ToInt32 x mod JS.two32 = x mod JS.two32.
Proof.
  unfold JS.ToInt32, JS.two32, JS.two31.
  destruct (_ <=? _).
  - rewrite <- (Z.mod_add (x mod 4294967296 - 4294967296) 1 4294967296) by lia.
    replace (x mod 4294967296 - 4294967296 + 1 * 4294967296)
      with (x mod 4294967296) by lia.
    apply Z.mod_mod. lia.
  - apply Z.mod_mod. lia.
Qed.

Lemma bor_0 (x : Z) : JS.bor x 0 = JS.ToInt32 x.
Proof.
  unfold JS.bor. change (JS.ToInt32 0) with 0. rewrite Z.lor_0_r.
  apply ToInt32_mod, ToInt32_congr.
Qed.

(** A call adds the constant to [t] modulo 2^32, and its result is read off
    the new [t]. *)
Lemma mulberry32_step_next (t : Z) :
  fst (mulberry32_step t) = JS.ToInt32 (t + 1831565813).
Proof.
  unfold mulberry32_step. cbn [fst]. rewrite !bor_0.
  apply ToInt32_mod. rewrite Z.add_mod, ToInt32_congr, <- Z.add_mod;
    unfold JS.two32; lia.
Qed.

Lemma mulberry32_step_congr (t t' : Z) :
  t mod JS.two32 = t' mod JS.two32 → mulberry32_step t = mulberry32_step t'.
Proof.
  intros E. unfold mulberry32_step. rewrite !bor_0.
  rewrite (ToInt32_mod t t' E). reflexivity.
Qed.

Lemma mulberry32_call_congr (t t' : Z) :
  t mod JS.two32 = t' mod JS.two32 → mulberry32_call t = mulberry32_call t'.
Proof.
  intros E. unfold mulberry32_call. rewrite (mulberry32_step_congr t t' E).
  reflexivity.
Qed.

Lemma mulberry32_call_next (t : Z) :
  snd (mulberry32_call t) mod JS.two32 = (t + 1831565813) mod JS.two32.
Proof.
  unfold mulberry32_call. pose proof (mulberry32_step_next t) as E.
  destruct (mulberry32_step t) as [t' u]. cbn [fst snd] in *. subst t'.
  apply ToInt32_congr.
Qed.

Lemma draws_mulberry32_from (n : nat) :
  ∀ (t : Z) (j : nat),
    draws mulberry32_call n t
    = (λ k, fst (mulberry32_call
                   (t + Z.of_nat (k - j) * 1831565813))) <$> seq j n.
Proof.
  induction n as [|n IH]; intros t j; [reflexivity|].
  cbn [draws seq fmap list_fmap].
  destruct (mulberry32_call t) as [x t'] eqn:E.
  rewrite Nat.sub_diag, Z.mul_0_l, Z.add_0_r, E. cbn [fst]. f_equal.
  rewrite (IH t' (S j)). apply list_fmap_ext. intros i k Hk.
  apply lookup_seq in Hk as [-> _].
  f_equal. apply mulberry32_call_congr.
  pose proof (mulberry32_call_next t) as Hn. rewrite E in Hn. cbn [snd] in Hn.
  replace (t + Z.of_nat (S j + i - j) * 1831565813)
    with ((t + 1831565813) + Z.of_nat (S j + i - S j) * 1831565813) by lia.
  rewrite Z.add_mod, Hn, <- Z.add_mod; unfold JS.two32; lia.
Qed.

(** X6: the generator is a counter modulo 2^32 read through a fixed mixing
    function: its k-th number (from 0) is the first number of the generator
    started at t + k * 0x6d2b79f5, and two starting values that agree modulo
    2^32 give the same numbers; so the numbers repeat after 2^32 calls. *)
Theorem mulberry32_counter (t : Z) (n : nat) :
  draws mulberry32_call n t
  = (λ k, fst (mulberry32_call (t + Z.of_nat k * 1831565813))) <$> seq 0 n
  ∧ (∀ t', t mod 4294967296 = t' mod 4294967296 →
           draws mulberry32_call n t = draws mulberry32_call n t')
  ∧ (∀ j, fst (mulberry32_call (t + (j + 4294967296) * 1831565813))
          = fst (mulberry32_call (t + j * 1831565813))).
Proof.
  split; [|split].
  - rewrite (draws_mulberry32_from n t 0). apply list_fmap_ext.
    intros i k Hk. rewrite Nat.sub_0_r. reflexivity.
  - intros t' E. rewrite (draws_mulberry32_from n t 0), (draws_mulberry32_from n t' 0).
    apply list_fmap_ext. intros i k _. f_equal. apply mulberry32_call_congr.
    unfold JS.two32. rewrite Z.add_mod, E, <- Z.add_mod by lia. reflexivity.
  - intros j. apply (f_equal fst), mulberry32_call_congr. unfold JS.two32.
    replace (t + (j + 4294967296) * 1831565813)
      with (t + j * 1831565813 + 1831565813 * 4294967296) by lia.
    apply Z.mod_add. lia.
Qed.

(** ** The draws a grid takes *)

Lemma qu_count_snoc (grid : Grid) (tile : Tile) :
  qu_count (grid ++ [tile])
  = (qu_count grid + (if decide (tile = Str (str "qu")) then 1 else 0))%nat.
Proof.
  unfold qu_count, Grid, Tile in *. rewrite filter_app, length_app. f_equal.
  destruct (decide (tile = Str (str "qu"))) as [E|E].
  - rewrite filter_cons_True by exact E. reflexivity.
  - rewrite filter_cons_False by exact E. reflexivity.
Qed.

Lemma generateGrid_loop_draws {St} (rng : Rng St) (n : nat) :
  ∀ (grid : Grid) (σ : St),
    ∃ q, (q ≤ n)%nat
         ∧ qu_count (fst (generateGrid_loop rng n grid σ)) = (qu_count grid + q)%nat
         ∧ snd (generateGrid_loop rng n grid σ) = advance rng (2 * n - q) σ.
Proof.
  induction n as [|n IH]; intros grid σ.
  - exists 0%nat. cbn [generateGrid_loop fst snd].
    split; [lia|]. split; [apply eq_sym, Nat.add_0_r|reflexivity].
  - cbn [generateGrid_loop].
    destruct (generateTile_draws rng σ) as [[Ht Hs]|[Ht Hs]];
      destruct (generateTile rng σ) as [tile σ']; cbn [fst snd] in Ht, Hs;
      destruct (IH (grid ++ [tile]) σ') as (q & Hq & Hc & Hadv);
      rewrite qu_count_snoc in Hc.
    + exists (S q). rewrite decide_True in Hc by exact Ht.
      split; [lia|]. split; [lia|].
      rewrite Hadv, Hs, <- advance_add. f_equal. lia.
    + exists q. rewrite decide_False in Hc by exact Ht.
      split; [lia|]. split; [lia|].
      rewrite Hadv, Hs, <- advance_add. f_equal. lia.
Qed.

(** X7: [generateGrid] calls its source once for a [qu] tile and twice for
    any other tile: with q tiles [qu] in the grid it has made 32 - q calls,
    between 16 and 32, and leaves the source in the state after that many
    calls.  No tile read from the letter bag is [qu]. *)
Theorem generateGrid_draws {St} (rng : Rng St) (σ : St) :
  let grid := fst (generateGrid rng σ) in
  (qu_count grid ≤ 16)%nat
  ∧ snd (generateGrid rng σ) = advance rng (32 - qu_count grid) σ.
Proof.
  intros grid. subst grid. unfold generateGrid.
  destruct (generateGrid_loop_draws rng 16 [] σ) as (q & Hq & Hc & Hadv).
  change (qu_count []) with 0%nat in Hc. rewrite Hc, Hadv.
  split; [lia|]. f_equal.
Qed.

(** ** The letters of a generated grid *)

Lemma LETTER_BAG_plain : Forall (λ s, plain_letter s = true) LETTER_BAG.
Proof. by_computation. Qed.

Lemma defined_tile_letter (tile : Tile) : defined_tile tile → letter_tile tile.
Proof.
  intros [->|(idx & s & _ & Hs & ->)]; [left; reflexivity|right].
  apply list_elem_of_lookup_2 in Hs.
  pose proof (proj1 (Forall_forall _ _) LETTER_BAG_plain s Hs) as Hp.
  destruct s as [|c [|? ?]]; try discriminate.
  apply bool_decide_eq_true in Hp. exists c. tauto.
Qed.

Lemma puzzleGrid_letter_tiles (id : jsstring) (σ : Store) :
  Forall letter_tile (fst (puzzleGrid id σ)).
Proof.
  rewrite puzzleGrid_pure.
  eapply Forall_impl; [|exact defined_tile_letter].
  apply generateGrid_loop_defined;
    [exact mulberry32_call_range|exact mulberry32_call_binary64|constructor].
Qed.

(** X8: every tile of the grid of a puzzle identifier is [qu] or a single
    letter a-z other than q: the letter q occurs only in the tile [qu], and
    the letters along any positions of the grid are all a-z. *)
Theorem puzzleGrid_letters (id : jsstring) (σ : Store) (p : list Z) :
  Forall letter_tile (fst (puzzleGrid id σ))
  ∧ (Forall position p → Forall is_az (spell (fst (puzzleGrid id σ)) p)).
Proof.
  pose proof (puzzleGrid_letter_tiles id σ) as Htiles.
  split; [exact Htiles|]. intros Hp.
  unfold spell. apply Forall_concat, Forall_fmap.
  eapply Forall_impl; [exact Hp|]. intros i Hi. cbv beta.
  assert (Hlen : length (fst (puzzleGrid id σ)) = 16%nat).
  { rewrite puzzleGrid_pure. unfold generateGrid.
    rewrite generateGrid_loop_length. reflexivity. }
  destruct (grid_get_position _ i Hlen Hi) as [tile Htile].
  unfold compose. cbv beta. unfold grid_get. rewrite Htile. cbn [default].
  unfold array_get in Htile. destruct (i <? 0); [discriminate|].
  apply list_elem_of_lookup_2 in Htile.
  pose proof (proj1 (Forall_forall _ _) Htiles tile Htile) as [->|(c & -> & Hc & _)].
  - by_computation.
  - cbn. constructor; [exact Hc|constructor].
Qed.

(** ** Coordinates and offsets *)

(** X9: for an index from 0 up, [indexToCoord] gives a column from 0 to 3
    and a row from 0 up, and 4 * row + col is the index again; on the
    positions 0..15 the row is below 4, and two positions with the same
    coordinates are the same position. *)
Theorem indexToCoord_round_trip (i : Z) :
  0 ≤ i →
  0 ≤ row (indexToCoord i)
  ∧ 0 ≤ col (indexToCoord i) < 4
  ∧ 4 * row (indexToCoord i) + col (indexToCoord i) = i
  ∧ (position i → row (indexToCoord i) < 4)
  ∧ (∀ j, 0 ≤ j → indexToCoord i = indexToCoord j → i = j).
Proof.
  intros Hi.
  assert (Hcoord : ∀ k, 0 ≤ k →
            0 ≤ row (indexToCoord k) ∧ 0 ≤ col (indexToCoord k) < 4
            ∧ 4 * row (indexToCoord k) + col (indexToCoord k) = k).
  { intros k Hk. unfold indexToCoord. cbn [row col].
    rewrite Z.rem_mod_nonneg by lia.
    pose proof (Z.div_mod k 4 ltac:(lia)).
    pose proof (Z.mod_pos_bound k 4 ltac:(lia)).
    assert (0 ≤ k / 4) by (apply Z.div_pos; lia). lia. }
  destruct (Hcoord i Hi) as (Hr & Hc & Hback).
  repeat split; try lia.
  - unfold position. intros Hp. lia.
  - intros j Hj E. destruct (Hcoord j Hj) as (_ & _ & Hback').
    rewrite <- E in Hback'. lia.
Qed.

Lemma indexToCoord_round_trip_witness :
  0 ≤ 14
  ∧ 0 ≤ row (indexToCoord 14)
  ∧ 0 ≤ col (indexToCoord 14) < 4
  ∧ 4 * row (indexToCoord 14) + col (indexToCoord 14) = 14
  ∧ (position 14 → row (indexToCoord 14) < 4)
  ∧ (∀ j, 0 ≤ j → indexToCoord 14 = indexToCoord j → 14 = j).
Proof.
  split; [lia|]. apply (indexToCoord_round_trip 14). lia.
Defined.

Lemma adjacency_offsets_table :
  Forall (λ a, Forall (λ b,
    isAdjacent a b = true ↔
    (b - a ∈ dirs
     ∧ Z.abs (col (indexToCoord a) - col (indexToCoord b)) ≤ 1)) positions)
    positions.
Proof. by_computation. Qed.

(** X10: on the positions 0..15, two positions are adjacent exactly when
    their difference is one of the eight offsets of [dirs] and their columns
    differ by at most one; the offset alone is not enough, since it also
    joins the end of a row to the start of the next. *)
Theorem isAdjacent_offsets (a b : Z) :
  position a → position b →
  isAdjacent a b = true ↔
  (b - a ∈ dirs ∧ Z.abs (col (indexToCoord a) - col (indexToCoord b)) ≤ 1).
Proof.
  intros Ha Hb. apply position_cases in Ha, Hb.
  pose proof (proj1 (Forall_forall _ _) adjacency_offsets_table a Ha) as Hrow.
  exact (proj1 (Forall_forall _ _) Hrow b Hb).
Qed.

Lemma isAdjacent_offsets_witness :
  (position 3 ∧ position 4)
  ∧ (isAdjacent 3 4 = true ↔
     (4 - 3 ∈ dirs ∧ Z.abs (col (indexToCoord 3) - col (indexToCoord 4)) ≤ 1)).
Proof.
  assert (H3 : position 3) by (unfold position; lia).
  assert (H4 : position 4) by (unfold position; lia).
  split; [auto|]. exact (isAdjacent_offsets 3 4 H3 H4).
Defined.

(** The end of a row and the start of the next are one apart and not
    adjacent. *)
Example isAdjacent_row_end : 4 - 3 ∈ dirs ∧ isAdjacent 3 4 = false.
Proof. split; [by_computation|reflexivity]. Qed.

(** ** The selection *)

Lemma setSelected_same (g : Game) : setSelected (selected g) g = g.
Proof. destruct g. reflexivity. Qed.

Lemma setSelected_twice (a b : list Z) (g : Game) :
  setSelected a (setSelected b g) = setSelected a g.
Proof. reflexivity. Qed.

Lemma indexOf_from_absent (l : list Z) (x : Z) :
  ∀ i, x ∉ l → indexOf_from l x i = -1.
Proof.
  induction l as [|y l IH]; intros i Hx; [reflexivity|].
  apply not_elem_of_cons in Hx as [Hxy Hx]. cbn.
  destruct (y =? x) eqn:E; [apply Z.eqb_eq in E; congruence|]. apply IH, Hx.
Qed.

Lemma indexOf_from_first (pre post : list Z) (x : Z) :
  ∀ i, x ∉ pre →
       indexOf_from (pre ++ x :: post) x i = i + Z.of_nat (length pre).
Proof.
  induction pre as [|y pre IH]; intros i Hx; cbn.
  - rewrite Z.eqb_refl. lia.
  - apply not_elem_of_cons in Hx as [Hxy Hx].
    destruct (y =? x) eqn:E; [apply Z.eqb_eq in E; congruence|].
    rewrite IH by exact Hx. lia.
Qed.

Section TileClick.
Context (p : Page) (g : Game) (index : Z).
Hypothesis Hrunning : running g = true.
Hypothesis Hfinished : finished g = false.
Hypothesis Hgrid : is_Some (grid (puzzle p)).

Lemma handleTileClick_active :
  handleTileClick p index g =
  let sel := selected g in
  let existingIndex := indexOf sel index in
  if negb (existingIndex =? -1) then
    if existingIndex =? Z.of_nat (length sel) - 1
    then setSelected (take (length sel - 1) sel) g
    else setSelected (take (Z.to_nat (existingIndex + 1)) sel) g
  else if Z.of_nat (length sel) =? 0 then setSelected [index] g
  else
    match last sel with
    | Some l =>
        if negb (isAdjacent l index) then g
        else setSelected (sel ++ [index]) g
    | None => g
    end.
Proof.
  unfold handleTileClick. rewrite Hrunning, Hfinished.
  rewrite (bool_decide_eq_true_2 _ Hgrid). reflexivity.
Qed.

(** A click on a tile of the selection. *)
Lemma handleTileClick_selected (pre post : list Z) :
  selected g = pre ++ index :: post → index ∉ pre →
  handleTileClick p index g
  = setSelected (match post with [] => pre | _ => pre ++ [index] end) g.
Proof.
  intros Hsel Hpre. rewrite handleTileClick_active. cbv zeta.
  unfold indexOf. rewrite Hsel, (indexOf_from_first pre post index 0 Hpre).
  rewrite length_app. cbn [length].
  destruct (negb (0 + Z.of_nat (length pre) =? -1)) eqn:E;
    [|apply negb_false_iff, Z.eqb_eq in E; lia].
  destruct post as [|y post]; cbn [length];
    match goal with |- (if ?c then _ else _) = _ => destruct c eqn:E2 end;
    try (apply Z.eqb_eq in E2; lia); try (apply Z.eqb_neq in E2; lia); f_equal.
  - replace (length pre + 1 - 1)%nat with (length pre) by lia.
    apply take_app_length.
  - replace (Z.to_nat (0 + Z.of_nat (length pre) + 1)) with (length (pre ++ [index]))
      by (rewrite length_app; cbn; lia).
    change (pre ++ index :: y :: post) with (pre ++ [index] ++ y :: post).
    rewrite app_assoc. apply take_app_length.
Qed.

(** A click on a tile outside the selection. *)
Lemma handleTileClick_fresh :
  index ∉ selected g →
  handleTileClick p index g =
  match last (selected g) with
  | None => setSelected [index] g
  | Some l => if isAdjacent l index then setSelected (selected g ++ [index]) g
              else g
  end.
Proof.
  intros Hfresh. rewrite handleTileClick_active. cbv zeta.
  unfold indexOf. rewrite (indexOf_from_absent _ _ 0 Hfresh). cbn [negb Z.eqb].
  destruct (selected g) as [|y sel] eqn:Hsel; [reflexivity|].
  replace (Z.of_nat (length (y :: sel)) =? 0) with false
    by (apply eq_sym, Z.eqb_neq; cbn [length]; lia).
  destruct (last (y :: sel)) as [l|] eqn:Hlast.
  - destruct (isAdjacent l index); reflexivity.
  - apply last_None in Hlast. discriminate.
Qed.
End TileClick.

Lemma handleTileClick_idle (p : Page) (index : Z) (g : Game) :
  running g = false ∨ finished g = true ∨ grid (puzzle p) = None →
  handleTileClick p index g = g.
Proof.
  intros Hidle. unfold handleTileClick.
  destruct (running g), (finished g); try reflexivity.
  destruct Hidle as [?|[?|Hg]]; try discriminate. rewrite Hg. reflexivity.
Qed.

Lemma adjacent_chain_last (sel : list Z) (l n : Z) :
  adjacent_chain sel → last sel = Some l → isAdjacent l n = true →
  adjacent_chain (sel ++ [n]).
Proof.
  intros Hc Hlast Hadj. apply last_Some in Hlast as [sel' ->].
  apply adjacent_chain_snoc; assumption.
Qed.

(** What a click leaves selected: the selection, a part of it from the
    start, or the selection and the clicked tile, new and adjacent to the
    last one. *)
Lemma handleTileClick_selection (p : Page) (index : Z) (g : Game) :
  ∃ sel',
    handleTileClick p index g = setSelected sel' g
    ∧ ((∃ k, sel' = take k (selected g))
       ∨ (sel' = (selected g ++ [index]) ∧ (index ∉ selected g)
          ∧ (selected g = []
             ∨ ∃ l, last (selected g) = Some l ∧ isAdjacent l index = true))).
Proof.
  assert (Hsame : ∃ sel', g = setSelected sel' g
                          ∧ ∃ k, sel' = take k (selected g)).
  { exists (selected g). split; [apply eq_sym, setSelected_same|].
    exists (length (selected g)). rewrite firstn_all. reflexivity. }
  assert (Hidle : handleTileClick p index g = g →
            ∃ sel',
              handleTileClick p index g = setSelected sel' g
              ∧ ((∃ k, sel' = take k (selected g))
                 ∨ (sel' = (selected g ++ [index]) ∧ (index ∉ selected g)
                    ∧ (selected g = []
                       ∨ ∃ l, last (selected g) = Some l
                              ∧ isAdjacent l index = true)))).
  { intros E. destruct Hsame as (s & Hs & Hk). exists s. rewrite E. auto. }
  destruct (running g) eqn:Hrun;
    [|apply Hidle, handleTileClick_idle; auto].
  destruct (finished g) eqn:Hfin;
    [apply Hidle, handleTileClick_idle; auto|].
  destruct (grid (puzzle p)) as [gr|] eqn:Hgrid;
    [|apply Hidle, handleTileClick_idle; auto].
  assert (Hg : is_Some (grid (puzzle p))) by (rewrite Hgrid; eauto).
  destruct (decide (index ∈ selected g)) as [Hin|Hout].
  - apply list_elem_of_split_l in Hin as (pre & post & Hsel & Hpre).
    rewrite (handleTileClick_selected p g index Hrun Hfin Hg pre post Hsel Hpre).
    eexists. split; [reflexivity|]. left. rewrite Hsel.
    destruct post as [|z post].
    + exists (length pre). rewrite take_app_length. reflexivity.
    + exists (length (pre ++ [index])).
      change (pre ++ index :: z :: post) with (pre ++ [index] ++ z :: post).
      rewrite app_assoc, take_app_length. reflexivity.
  - pose proof (handleTileClick_fresh p g index Hrun Hfin Hg Hout) as Hclick.
    destruct (last (selected g)) as [l|] eqn:Hlast.
    + destruct (isAdjacent l index) eqn:Hadj.
      * rewrite Hclick. eexists. split; [reflexivity|]. right. eauto 10.
      * apply Hidle, Hclick.
    + apply last_None in Hlast. rewrite Hclick. eexists.
      split; [reflexivity|]. right. rewrite Hlast.
      split; [reflexivity|]. split; [apply not_elem_of_nil|]. left. reflexivity.
Qed.

Lemma is_path_take (k : nat) (sel : list Z) : is_path sel → is_path (take k sel).
Proof.
  intros Hp. rewrite <- (take_drop k sel) in Hp. apply (is_path_app_l _ _ Hp).
Qed.

Lemma handle_selection `{Runtime} (p : Page) (e : Event) (g : Game) :
  (∃ k, selected (handle p e g) = take k (selected g))
  ∨ ∃ index, e = TileClick index
             ∧ selected (handle p e g) = selected g ++ [index]
             ∧ (index ∉ selected g)
             ∧ (selected g = []
                ∨ ∃ l, last (selected g) = Some l ∧ isAdjacent l index = true).
Proof.
  assert (Hsame : ∃ k, selected g = take k (selected g)).
  { exists (length (selected g)). rewrite firstn_all. reflexivity. }
  assert (Hnone : ∃ k, [] = take k (selected g)) by (exists 0%nat; reflexivity).
  destruct e as [index| | | |]; cbn [handle].
  - destruct (handleTileClick_selection p index g) as (sel' & -> & [Hk|Hnew]).
    + left. exact Hk.
    + right. exists index. cbn [setSelected selected]. tauto.
  - left. exact Hnone.
  - left. unfold handleSubmit.
    destruct (negb (running g) || finished g); [exact Hsame|].
    destruct (solver (puzzle p)); [|exact Hsame].
    destruct (validWordSet (puzzle p)); [|exact Hsame].
    destruct (Z.of_nat _ <? 3); [exact Hnone|].
    destruct (JSSet.has (foundWords g) _); [exact Hnone|].
    destruct (JSSet.has _ _); exact Hnone.
  - left. unfold handleStart.
    repeat match goal with
           | |- context [if ?b then _ else _] => destruct b
           end; assumption.
  - left. unfold tick.
    repeat match goal with
           | |- context [if ?b then _ else _] => destruct b
           end; assumption.
Qed.

Lemma handle_selection_path `{Runtime} (p : Page) (e : Event) (g : Game) :
  grid_event e → is_path (selected g) → is_path (selected (handle p e g)).
Proof.
  intros He Hp.
  destruct (handle_selection p e g) as [[k ->]|(index & -> & -> & Hfresh & Hadj)].
  - apply is_path_take, Hp.
  - cbn in He. destruct Hadj as [Hnil|(l & Hlast & Hadj)].
    + rewrite Hnil. apply is_path_single, He.
    + apply last_Some in Hlast as [sel' Hsel]. rewrite Hsel in *.
      apply is_path_snoc; assumption.
Qed.

Lemma run_selection_path `{Runtime} (p : Page) (events : list Event) :
  ∀ g, Forall grid_event events → is_path (selected g) →
       is_path (selected (run p events g)).
Proof.
  induction events as [|e events IH]; intros g Hev Hp; [exact Hp|].
  inversion Hev; subst. cbn [run fold_left].
  apply IH; [assumption|]. apply handle_selection_path; assumption.
Qed.

(** X11: whatever the player does, the selection is a path: after any
    events of the page, with the clicks on tiles of the grid, the selected
    positions are distinct and each is adjacent to the one before it. *)
Theorem selection_is_path `{Runtime} (p : Page) (events : list Event) :
  Forall grid_event events →
  Forall position (selected (run p events initialGame))
  ∧ NoDup (selected (run p events initialGame))
  ∧ adjacent_chain (selected (run p events initialGame)).
Proof.
  intros Hev.
  destruct (run_selection_path p events initialGame Hev) as [H1 H2 H3]; [|auto].
  split; cbn; [constructor|constructor|exact I].
Qed.

Lemma selection_is_path_witness :
  Forall grid_event [Start; TileClick 2; TileClick 6; TileClick 5]
  ∧ Forall position (selected playSelected)
  ∧ NoDup (selected playSelected)
  ∧ adjacent_chain (selected playSelected).
Proof.
  assert (Hev : Forall grid_event [Start; TileClick 2; TileClick 6; TileClick 5]).
  { repeat constructor; unfold position; lia. }
  split; [exact Hev|].
  exact (@selection_is_path ascii_runtime playPage _ Hev).
Defined.

(** X12: a click on a tile outside the selection is undone by a second
    click on the same tile: the game is again as it was, whether the first
    click selected the tile or was ignored. *)
Theorem tile_click_undo (p : Page) (index : Z) (g : Game) :
  index ∉ selected g →
  handleTileClick p index (handleTileClick p index g) = g.
Proof.
  intros Hfresh.
  assert (Hidle : handleTileClick p index g = g →
            handleTileClick p index (handleTileClick p index g) = g).
  { intros E. rewrite E. exact E. }
  destruct (running g) eqn:Hrun; [|apply Hidle, handleTileClick_idle; auto].
  destruct (finished g) eqn:Hfin; [apply Hidle, handleTileClick_idle; auto|].
  destruct (grid (puzzle p)) as [gr|] eqn:Hgrid;
    [|apply Hidle, handleTileClick_idle; auto].
  assert (Hg : is_Some (grid (puzzle p))) by (rewrite Hgrid; eauto).
  rewrite (handleTileClick_fresh p g index Hrun Hfin Hg Hfresh).
  assert (Hback : ∀ sel, index ∉ sel → selected g = sel →
            handleTileClick p index (setSelected (sel ++ [index]) g) = g).
  { intros sel Hsel Esel.
    rewrite (handleTileClick_selected p (setSelected (sel ++ [index]) g) index
               Hrun Hfin Hg sel [] eq_refl Hsel).
    rewrite setSelected_twice, <- Esel. apply setSelected_same. }
  destruct (last (selected g)) as [l|] eqn:Hlast.
  - destruct (isAdjacent l index) eqn:Hadj.
    + apply Hback; auto.
    + rewrite (handleTileClick_fresh p g index Hrun Hfin Hg Hfresh), Hlast, Hadj.
      reflexivity.
  - apply last_None in Hlast. apply (Hback []); [apply not_elem_of_nil|exact Hlast].
Qed.

Lemma tile_click_undo_witness :
  (1 ∉ selected playSelected)
  ∧ handleTileClick playPage 1 (handleTileClick playPage 1 playSelected)
    = playSelected.
Proof.
  assert (Hfresh : 1 ∉ selected playSelected) by by_computation.
  split; [exact Hfresh|]. exact (tile_click_undo playPage 1 playSelected Hfresh).
Defined.

(** X13: in a running game, a click on a tile of the selection goes back
    to it: the tiles selected after it are dropped, and when it is the last
    tile it is dropped itself. *)
Theorem tile_click_backtrack (p : Page) (index : Z) (g : Game)
    (pre post : list Z) :
  running g = true → finished g = false → is_Some (grid (puzzle p)) →
  selected g = pre ++ index :: post → index ∉ pre →
  handleTileClick p index g
  = setSelected (match post with [] => pre | _ => pre ++ [index] end) g.
Proof.
  intros Hrun Hfin Hg Hsel Hpre.
  apply (handleTileClick_selected p g index Hrun Hfin Hg pre post Hsel Hpre).
Qed.

Lemma tile_click_backtrack_witness :
  (running playSelected = true ∧ finished playSelected = false
   ∧ is_Some (grid (puzzle playPage))
   ∧ selected playSelected = [] ++ 2 :: [6; 5] ∧ (2 ∉ @nil Z))
  ∧ handleTileClick playPage 2 playSelected = setSelected ([] ++ [2]) playSelected.
Proof.
  assert (H1 : running playSelected = true) by (vm_compute; reflexivity).
  assert (H2 : finished playSelected = false) by (vm_compute; reflexivity).
  assert (H3 : is_Some (grid (puzzle playPage))) by (vm_compute; eauto).
  assert (H4 : selected playSelected = [] ++ 2 :: [6; 5]) by (vm_compute; reflexivity).
  assert (H5 : 2 ∉ @nil Z) by apply not_elem_of_nil.
  split; [auto 10|].
  exact (tile_click_backtrack playPage 2 playSelected [] [6; 5] H1 H2 H3 H4 H5).
Defined.

(** ** The score, the found words and the submissions *)

Lemma handleTileClick_setSelected (p : Page) (index : Z) (g : Game) :
  ∃ sel, handleTileClick p index g = setSelected sel g.
Proof.
  assert (Hsame : ∃ sel, g = setSelected sel g).
  { exists (selected g). symmetry. apply setSelected_same. }
  unfold handleTileClick.
  repeat match goal with
         | |- context [if ?b then _ else _] => destruct b
         | |- context [match ?o with Some _ => _ | None => _ end] => destruct o
         end; first [exact Hsame | eexists; reflexivity].
Qed.

Lemma consistent_setSelected (sel : list Z) (g : Game) :
  consistent g → consistent (setSelected sel g).
Proof. intros [Hs Hf Hd Hw]. split; assumption. Qed.

Lemma tick_consistent (g : Game) : consistent g → consistent (tick g).
Proof.
  intros [Hs Hf Hd Hw]. unfold tick.
  repeat match goal with
         | |- context [if ?b then _ else _] => destruct b
         end; split; assumption.
Qed.

Lemma handleStart_consistent (p : Page) (g : Game) :
  consistent g → consistent (handleStart p g).
Proof.
  intros Hg. unfold handleStart.
  repeat match goal with
         | |- context [if ?b then _ else _] => destruct b
         end; try exact Hg.
  split; cbn; [reflexivity|reflexivity|constructor|constructor].
Qed.

Lemma new_words_cons (sub : Submission) (subs : list Submission) :
  new_words (sub :: subs)
  = if decide (status sub = new) then new_words subs ++ [word sub]
    else new_words subs.
Proof.
  unfold new_words. destruct (decide (status sub = new)) as [E|E].
  - rewrite filter_cons_True by exact E. reflexivity.
  - rewrite filter_cons_False by exact E. reflexivity.
Qed.

Lemma handleSubmit_consistent `{Runtime} (p : Page) (g : Game) :
  consistent g → consistent (handleSubmit p g).
Proof.
  intros Hg. pose proof Hg as [Hs Hf Hd Hw]. unfold handleSubmit.
  destruct (negb (running g) || finished g); [exact Hg|].
  destruct (solver (puzzle p)) as [s|]; [|exact Hg].
  destruct (validWordSet (puzzle p)) as [valid|]; [|exact Hg].
  set (w := normalizeWord (currentWord p g)).
  destruct (Z.of_nat (length w) <? 3) eqn:Hlen.
  { split; cbn [score foundWords submissions].
    - cbn. rewrite Hs. reflexivity.
    - rewrite new_words_cons. exact Hf.
    - exact Hd.
    - constructor; [reflexivity|exact Hw]. }
  apply Z.ltb_ge in Hlen.
  destruct (JSSet.has (foundWords g) w) eqn:Hfound.
  { split; cbn [score foundWords submissions].
    - cbn. rewrite Hs. reflexivity.
    - rewrite new_words_cons. exact Hf.
    - exact Hd.
    - constructor; [reflexivity|exact Hw]. }
  destruct (JSSet.has valid w) eqn:Hvalid.
  - split; cbn [score foundWords submissions].
    + cbn. rewrite Hs. reflexivity.
    + rewrite new_words_cons. cbn [status word decide].
      unfold JSSet.add. rewrite Hfound, Hf.
      destruct (decide (new = new)); [reflexivity|contradiction].
    + apply add_NoDup, Hd.
    + constructor; [|exact Hw]. split; cbn; [lia|reflexivity].
  - split; cbn [score foundWords submissions].
    + cbn. rewrite Hs. reflexivity.
    + rewrite new_words_cons. exact Hf.
    + exact Hd.
    + constructor; [reflexivity|exact Hw].
Qed.

(** The handlers and the timer keep the score, the found words and the
    submissions consistent. *)
Lemma handle_consistent `{Runtime} (p : Page) (e : Event) (g : Game) :
  consistent g → consistent (handle p e g).
Proof.
  intros Hg. destruct e as [index| | | |]; cbn [handle].
  - destruct (handleTileClick_setSelected p index g) as [sel ->].
    apply consistent_setSelected, Hg.
  - apply consistent_setSelected, Hg.
  - apply handleSubmit_consistent, Hg.
  - apply handleStart_consistent, Hg.
  - apply tick_consistent, Hg.
Qed.

Lemma reachable_consistent `{Runtime} (p : Page) (g : Game) :
  reachable p g → consistent g.
Proof.
  induction 1 as [|g e Hg IH].
  - split; cbn; [reflexivity|reflexivity|constructor|constructor].
  - apply handle_consistent, IH.
Qed.

Lemma playSubmitted_reachable : @reachable ascii_runtime playPage playSubmitted.
Proof.
  unfold playSubmitted, playSelected. do 2 apply reachable_run. constructor.
Qed.

(** A visit that restores nothing passes through the states of a fresh
    game, and a fresh game is such a visit. *)
Lemma visited_fresh `{Runtime} (p : Page) (stored : Stored) (g : Game) :
  restored stored = false → visited p stored g → reachable p g.
Proof.
  intros Hfresh. induction 1 as [Hp|g e Hg IH].
  - destruct stored as [| |r]; [constructor|constructor|discriminate].
  - constructor. exact IH.
Qed.

Lemma reachable_visited `{Runtime} (p : Page) (g : Game) :
  restoredResult p = false → reachable p g → visited p no_item g.
Proof.
  intros Hp. induction 1 as [|g e Hg IH].
  - exact (visited_restore p no_item Hp).
  - constructor. exact IH.
Qed.

Lemma playSubmitted_visited :
  @visited ascii_runtime playPage no_item playSubmitted.
Proof. apply reachable_visited; [reflexivity|exact playSubmitted_reachable]. Qed.

(** X14: on a visit of the page that restores no stored result, in every
    state the score is the replay of the recorded submissions, oldest first,
    each delta added and the sum kept at 0 or above; and each recorded
    submission is either new, of three letters or more, with delta its
    length less 2, or not new with delta -1. *)
Theorem score_replays_submissions `{Runtime} (p : Page) (stored : Stored)
    (g : Game) :
  visited p stored g → restored stored = false →
  score g = replay (submissions g) ∧ Forall well_scored (submissions g).
Proof.
  intros Hg Hfresh. apply (visited_fresh p stored g Hfresh) in Hg.
  destruct (reachable_consistent p g Hg) as [Hs _ _ Hw]. auto.
Qed.

Lemma score_replays_submissions_witness :
  (@visited ascii_runtime playPage no_item playSubmitted
   ∧ restored no_item = false)
  ∧ score playSubmitted = replay (submissions playSubmitted)
  ∧ Forall well_scored (submissions playSubmitted).
Proof.
  split; [split; [exact playSubmitted_visited|reflexivity]|].
  exact (@score_replays_submissions ascii_runtime playPage no_item
           playSubmitted playSubmitted_visited eq_refl).
Defined.

(** X15: on a visit of the page that restores no stored result, in every
    state the found words are the words of the submissions recorded as new,
    in the order they were made, and no word is found twice. *)
Theorem foundWords_new_submissions `{Runtime} (p : Page) (stored : Stored)
    (g : Game) :
  visited p stored g → restored stored = false →
  JSSet.to_array (foundWords g) = new_words (submissions g)
  ∧ NoDup (foundWords g).
Proof.
  intros Hg Hfresh. apply (visited_fresh p stored g Hfresh) in Hg.
  destruct (reachable_consistent p g Hg) as [_ Hf Hd _]. auto.
Qed.

Lemma foundWords_new_submissions_witness :
  (@visited ascii_runtime playPage no_item playSubmitted
   ∧ restored no_item = false)
  ∧ JSSet.to_array (foundWords playSubmitted)
    = new_words (submissions playSubmitted)
  ∧ NoDup (foundWords playSubmitted).
Proof.
  split; [split; [exact playSubmitted_visited|reflexivity]|].
  exact (@foundWords_new_submissions ascii_runtime playPage no_item
           playSubmitted playSubmitted_visited eq_refl).
Defined.

Lemma replay_nonneg (subs : list Submission) : 0 ≤ replay subs.
Proof. destruct subs; cbn; lia. Qed.

Lemma found_points_snoc (found : list jsstring) (w : jsstring) :
  found_points (found ++ [w]) = found_points found + (Z.of_nat (length w) - 2).
Proof.
  unfold found_points. induction found as [|a found IH]; cbn; [lia|].
  cbn in IH. rewrite IH. lia.
Qed.

Lemma replay_found_points (subs : list Submission) :
  Forall well_scored subs → replay subs ≤ found_points (new_words subs).
Proof.
  induction 1 as [|sub subs Hsub Hsubs IH]; [cbn; lia|].
  pose proof (replay_nonneg subs) as Hr.
  rewrite new_words_cons. cbn [replay foldr]. fold (replay subs).
  unfold well_scored in Hsub.
  destruct (decide (status sub = new)) as [E|E].
  - rewrite E in Hsub. destruct Hsub as [Hlen ->].
    rewrite found_points_snoc. lia.
  - assert (Hd : delta sub = -1) by (destruct (status sub); congruence).
    rewrite Hd. lia.
Qed.

(** X16: on a visit of the page that restores no stored result, in every
    state the score is at least 0 and at most the points of the found words,
    each worth its length less 2: penalties only ever take points away. *)
Theorem score_bounds `{Runtime} (p : Page) (stored : Stored) (g : Game) :
  visited p stored g → restored stored = false →
  0 ≤ score g ≤ found_points (foundWords g).
Proof.
  intros Hg Hfresh. apply (visited_fresh p stored g Hfresh) in Hg.
  destruct (reachable_consistent p g Hg) as [Hs Hf _ Hw].
  rewrite Hs, Hf. split; [apply replay_nonneg|apply replay_found_points, Hw].
Qed.

Lemma score_bounds_witness :
  (@visited ascii_runtime playPage no_item playSubmitted
   ∧ restored no_item = false)
  ∧ 0 ≤ score playSubmitted ≤ found_points (foundWords playSubmitted).
Proof.
  split; [split; [exact playSubmitted_visited|reflexivity]|].
  exact (@score_bounds ascii_runtime playPage no_item playSubmitted
           playSubmitted_visited eq_refl).
Defined.

(** ** The clock *)

Lemma handleSubmit_idle `{Runtime} (p : Page) (g : Game) :
  running g = false ∨ finished g = true → handleSubmit p g = g.
Proof.
  intros Hidle. unfold handleSubmit.
  destruct (running g), (finished g); try reflexivity.
  destruct Hidle; discriminate.
Qed.

Lemma handleStart_begun (p : Page) (g : Game) :
  running g = true ∨ finished g = true → handleStart p g = g.
Proof.
  intros Hbegun. unfold handleStart.
  repeat match goal with
         | |- context [if ?b then _ else _] => destruct b eqn:?
         end; try reflexivity.
  destruct (running g), (finished g); try discriminate.
  destruct Hbegun; discriminate.
Qed.

Lemma tick_idle (g : Game) :
  running g = false ∨ finished g = true → tick g = g.
Proof.
  intros Hidle. unfold tick.
  destruct (running g), (finished g); try reflexivity.
  destruct Hidle; discriminate.
Qed.

(** Once a game is over, only clearing the selection has an effect. *)
Lemma handle_finished `{Runtime} (p : Page) (e : Event) (g : Game) :
  finished g = true →
  handle p e g = if decide (e = Clear) then handleClear g else g.
Proof.
  intros Hfin. destruct e as [index| | | |]; cbn [handle].
  - destruct (decide _) as [E|_]; [discriminate|].
    apply handleTileClick_idle. auto.
  - destruct (decide _) as [_|E]; [reflexivity|contradiction].
  - destruct (decide _) as [E|_]; [discriminate|].
    apply handleSubmit_idle. auto.
  - destruct (decide _) as [E|_]; [discriminate|].
    apply handleStart_begun. auto.
  - destruct (decide _) as [E|_]; [discriminate|].
    apply tick_idle. auto.
Qed.

Lemma handle_finished_clock `{Runtime} (p : Page) (e : Event) (g : Game) :
  finished g = true → clock (handle p e g) = clock g.
Proof.
  intros Hfin. rewrite handle_finished by exact Hfin.
  destruct (decide _); reflexivity.
Qed.

Lemma run_finished_clock `{Runtime} (p : Page) (events : list Event) :
  ∀ g, finished g = true → clock (run p events g) = clock g.
Proof.
  induction events as [|e events IH]; intros g Hfin; [reflexivity|].
  cbn [run fold_left]. fold (run p events (handle p e g)).
  pose proof (handle_finished_clock p e g Hfin) as Hc.
  rewrite IH; [exact Hc|].
  unfold clock in Hc. injection Hc as _ Hf _. rewrite Hf. exact Hfin.
Qed.

(** X17: once a game is over, no click, submission, start or timer period
    changes anything: after any events the state is the one the game ended
    in, with the selection emptied if the selection was cleared among them.
    The score, the found words, the submissions and the clock stay as they
    were when the time ran out. *)
Theorem finished_is_final `{Runtime} (p : Page) (events : list Event)
    (g : Game) :
  finished g = true →
  run p events g
  = if bool_decide (Clear ∈ events) then handleClear g else g.
Proof.
  revert g. induction events as [|e events IH]; intros g Hfin.
  - rewrite bool_decide_eq_false_2; [reflexivity|apply not_elem_of_nil].
  - cbn [run fold_left]. fold (run p events (handle p e g)).
    rewrite (handle_finished p e g Hfin).
    destruct (decide (e = Clear)) as [->|He].
    + rewrite IH by exact Hfin.
      rewrite (bool_decide_eq_true_2 (Clear ∈ Clear :: events))
        by apply list_elem_of_here.
      destruct (bool_decide (Clear ∈ events)); [|reflexivity].
      unfold handleClear. apply setSelected_twice.
    + rewrite IH by exact Hfin.
      destruct (bool_decide (Clear ∈ events)) eqn:E.
      * apply bool_decide_eq_true_1 in E.
        rewrite bool_decide_eq_true_2; [reflexivity|].
        apply list_elem_of_further, E.
      * apply bool_decide_eq_false_1 in E.
        rewrite bool_decide_eq_false_2; [reflexivity|].
        intros Hin. apply elem_of_cons in Hin as [Hin|Hin]; [|auto].
        apply He. symmetry. exact Hin.
Qed.

Lemma finished_is_final_witness :
  finished playFinished = true
  ∧ @run ascii_runtime playPage [TileClick 3; Submit; Clear; Start; Tick]
      playFinished
    = if bool_decide (Clear ∈ [TileClick 3; Submit; Clear; Start; Tick])
      then handleClear playFinished else playFinished.
Proof.
  assert (Hfin : finished playFinished = true) by (vm_compute; reflexivity).
  split; [exact Hfin|].
  exact (@finished_is_final ascii_runtime playPage
           [TileClick 3; Submit; Clear; Start; Tick] playFinished Hfin).
Defined.

Lemma handleSubmit_clock `{Runtime} (p : Page) (g : Game) :
  clock (handleSubmit p g) = clock g.
Proof.
  unfold handleSubmit.
  repeat match goal with
         | |- context [if ?b then _ else _] => destruct b
         | |- context [match ?o with Some _ => _ | None => _ end] => destruct o
         end; reflexivity.
Qed.

(** While a game runs, only the timer moves the clock. *)
Lemma handle_running_clock `{Runtime} (p : Page) (e : Event) (g : Game) :
  running g = true → e ≠ Tick → clock (handle p e g) = clock g.
Proof.
  intros Hrun He. destruct e as [index| | | |]; cbn [handle].
  - destruct (handleTileClick_setSelected p index g) as [sel ->]. reflexivity.
  - reflexivity.
  - apply handleSubmit_clock.
  - rewrite handleStart_begun; auto.
  - contradiction.
Qed.

Lemma ticks_cons (e : Event) (events : list Event) :
  ticks (e :: events) = (if decide (e = Tick) then 1 else 0) + ticks events.
Proof.
  unfold ticks. destruct (decide (e = Tick)) as [E|E].
  - rewrite filter_cons_True by exact E. cbn [length]. lia.
  - rewrite filter_cons_False by exact E. lia.
Qed.

Lemma ticks_nonneg (events : list Event) : 0 ≤ ticks events.
Proof. unfold ticks. lia. Qed.

(** X18: a running game with [t] seconds left, [t] at least 1, still runs
    with [t - k] seconds left after events that hold [k] periods of the
    timer when [k < t], and is over with 0 seconds left when [k] is [t] or
    more; clicks, submissions, clearing and the start button do not move the
    clock. *)
Theorem clock_runs_down `{Runtime} (p : Page) (events : list Event)
    (g : Game) :
  running g = true → finished g = false → 1 ≤ timeLeft g →
  clock (run p events g)
  = if ticks events <? timeLeft g
    then (true, false, timeLeft g - ticks events)
    else (false, true, 0).
Proof.
  revert g. induction events as [|e events IH]; intros g Hrun Hfin Ht.
  - cbn [run fold_left]. unfold clock. rewrite Hrun, Hfin.
    change (ticks []) with 0.
    destruct (0 <? timeLeft g) eqn:E; [|apply Z.ltb_ge in E; lia].
    f_equal. lia.
  - cbn [run fold_left]. fold (run p events (handle p e g)).
    pose proof (ticks_nonneg events) as Hk. rewrite ticks_cons.
    destruct (decide (e = Tick)) as [->|He].
    + cbn [handle]. unfold tick at 1. rewrite Hrun, Hfin. cbn [negb orb].
      destruct (timeLeft g <=? 1) eqn:E.
      * apply Z.leb_le in E. rewrite run_finished_clock by reflexivity.
        destruct (1 + ticks events <? timeLeft g) eqn:E2;
          [apply Z.ltb_lt in E2; lia|reflexivity].
      * apply Z.leb_gt in E. rewrite IH; cbn [running finished timeLeft];
          [|reflexivity|reflexivity|lia].
        destruct (ticks events <? timeLeft g - 1) eqn:E1,
                 (1 + ticks events <? timeLeft g) eqn:E2;
          try (apply Z.ltb_lt in E1); try (apply Z.ltb_ge in E1);
          try (apply Z.ltb_lt in E2); try (apply Z.ltb_ge in E2);
          try lia; [f_equal; lia|reflexivity].
    + pose proof (handle_running_clock p e g Hrun He) as Hc.
      unfold clock in Hc. injection Hc as Hr Hf Hl.
      rewrite IH; [|congruence|congruence|lia].
      rewrite Hl. reflexivity.
Qed.

Lemma clock_runs_down_witness :
  (running playSubmitted = true ∧ finished playSubmitted = false
   ∧ 1 ≤ timeLeft playSubmitted)
  ∧ clock (@run ascii_runtime playPage [Tick; TileClick 2; Tick; Submit]
             playSubmitted)
    = if ticks [Tick; TileClick 2; Tick; Submit] <? timeLeft playSubmitted
      then (true, false,
            timeLeft playSubmitted - ticks [Tick; TileClick 2; Tick; Submit])
      else (false, true, 0).
Proof.
  assert (H1 : running playSubmitted = true) by (vm_compute; reflexivity).
  assert (H2 : finished playSubmitted = false) by (vm_compute; reflexivity).
  assert (H3 : 1 ≤ timeLeft playSubmitted) by by_computation.
  split; [auto|].
  exact (@clock_runs_down ascii_runtime playPage
           [Tick; TileClick 2; Tick; Submit] playSubmitted H1 H2 H3).
Defined.

(** What the restore effect makes of the first state when it takes a
    stored result. *)
Lemma restore_usable (r : GameResult.t) :
  restore (usable r) initialGame
  = {| selected := [];
       score := GameResult.score r;
       foundWords := JSSet.from_array (GameResult.foundWords r);
       submissions := default [] (GameResult.submissions r);
       timeLeft := GAME_SECONDS;
       running := false; finished := true |}.
Proof. reflexivity. Qed.

Lemma visited_restored `{Runtime} (p : Page) (r : GameResult.t) (g : Game) :
  visited p (usable r) g → g = restore (usable r) initialGame.
Proof.
  induction 1 as [Hp|g e Hg IH]; [reflexivity|].
  rewrite IH. rewrite handle_finished by reflexivity.
  destruct (decide (e = Clear)); reflexivity.
Qed.

Lemma reachable_phases `{Runtime} (p : Page) (g : Game) :
  reachable p g →
  g = initialGame
  ∨ (running g = true ∧ finished g = false ∧ 1 ≤ timeLeft g ≤ GAME_SECONDS)
  ∨ (running g = false ∧ finished g = true ∧ timeLeft g = 0).
Proof.
  induction 1 as [|g e Hg IH]; [left; reflexivity|].
  destruct IH as [->|[(Hrun & Hfin & Ht)|(Hrun & Hfin & Ht)]].
  - destruct e as [index| | | |]; cbn [handle].
    + left. apply handleTileClick_idle. auto.
    + left. reflexivity.
    + left. apply handleSubmit_idle. auto.
    + unfold handleStart.
      repeat match goal with
             | |- context [if ?b then _ else _] => destruct b
             end; try (left; reflexivity).
      right. left. cbn. unfold GAME_SECONDS. lia.
    + left. apply tick_idle. auto.
  - right. destruct (decide (e = Tick)) as [->|He].
    + cbn [handle]. unfold tick. rewrite Hrun, Hfin. cbn [negb orb].
      destruct (timeLeft g <=? 1) eqn:E.
      * right. auto.
      * apply Z.leb_gt in E. left. cbn [running finished timeLeft].
        split; [reflexivity|]. split; [reflexivity|]. lia.
    + pose proof (handle_running_clock p e g Hrun He) as Hc.
      unfold clock in Hc. injection Hc as Hr Hf Hl.
      left. rewrite Hr, Hf, Hl. auto.
  - right. right. pose proof (handle_finished_clock p e g Hfin) as Hc.
    unfold clock in Hc. injection Hc as Hr Hf Hl.
    rewrite Hr, Hf, Hl. auto.
Qed.

(** X19: on a visit of the page, a game is in one of four phases: not
    started, and then in its first state whatever was clicked; running with
    1 to 60 seconds left; over, not running, with no time left; or, when the
    restore effect took a stored result, in the state that effect made:
    finished, not running, with the stored score, found words and
    submissions, and the clock still at 60 seconds. *)
Theorem game_phases `{Runtime} (p : Page) (stored : Stored) (g : Game) :
  visited p stored g →
  g = initialGame
  ∨ (running g = true ∧ finished g = false ∧ 1 ≤ timeLeft g ≤ GAME_SECONDS)
  ∨ (running g = false ∧ finished g = true ∧ timeLeft g = 0)
  ∨ (∃ r, stored = usable r
          ∧ g = {| selected := [];
                   score := GameResult.score r;
                   foundWords := JSSet.from_array (GameResult.foundWords r);
                   submissions := default [] (GameResult.submissions r);
                   timeLeft := GAME_SECONDS;
                   running := false; finished := true |}).
Proof.
  intros Hg. destruct (restored stored) eqn:Hfresh.
  - destruct stored as [| |r]; try discriminate.
    right. right. right. exists r. split; [reflexivity|].
    rewrite (visited_restored p r g Hg). apply restore_usable.
  - apply (visited_fresh p stored g Hfresh) in Hg.
    destruct (reachable_phases p g Hg) as [Hi|[Hr|Hf]]; auto.
Qed.

Lemma playFinished_reachable : @reachable ascii_runtime playPage playFinished.
Proof.
  unfold playFinished. apply reachable_run, playSubmitted_reachable.
Qed.

Lemma playFinished_visited :
  @visited ascii_runtime playPage no_item playFinished.
Proof. apply reachable_visited; [reflexivity|exact playFinished_reachable]. Qed.

Lemma game_phases_witness :
  @visited ascii_runtime playPage no_item playFinished
  ∧ (playFinished = initialGame
     ∨ (running playFinished = true ∧ finished playFinished = false
        ∧ 1 ≤ timeLeft playFinished ≤ GAME_SECONDS)
     ∨ (running playFinished = false ∧ finished playFinished = true
        ∧ timeLeft playFinished = 0)
     ∨ (∃ r, no_item = usable r
             ∧ playFinished
               = {| selected := [];
                    score := GameResult.score r;
                    foundWords := JSSet.from_array (GameResult.foundWords r);
                    submissions := default [] (GameResult.submissions r);
                    timeLeft := GAME_SECONDS;
                    running := false; finished := true |})).
Proof.
  split; [exact playFinished_visited|].
  exact (@game_phases ascii_runtime playPage no_item playFinished
           playFinished_visited).
Defined.



(** A restored state need not keep what a played game keeps: the stored
    score stands with no submission behind it. *)
Example restored_not_consistent :
  score (restore (usable playStored) initialGame) = 3
  ∧ replay (submissions (restore (usable playStored) initialGame)) = 0.
Proof. split; reflexivity. Qed.

(** ** The found words against the solver's list *)

(** What the memo holds: nothing, or the grid of the identifier, the
    solver's result on it and the set of its words. *)
Lemma playMemo_cases `{Runtime} (id : option jsstring)
    (dict prefixes : option JSSet.t) (σ σ' : Store) (pz : Puzzle) :
  playMemo id dict prefixes σ = Some (pz, σ') →
  pz = noPuzzle
  ∨ ∃ i d pf s,
      id = Some i ∧ dict = Some d ∧ prefixes = Some pf
      ∧ solveGrid (fst (puzzleGrid i σ)) d pf = Some s
      ∧ pz = {| grid := Some (fst (puzzleGrid i σ)); solver := Some s;
                validWordSet := Some (JSSet.from_array (allWords s)) |}.
Proof.
  unfold playMemo. intros Hmemo.
  destruct id as [i|], dict as [d|], prefixes as [pf|];
    try (injection Hmemo as <- _; left; reflexivity).
  destruct (bool_decide (i = []));
    [injection Hmemo as <- _; left; reflexivity|].
  destruct (puzzleGrid i σ) as [gr σ1] eqn:Eg.
  destruct (solveGrid gr d pf) as [s|] eqn:Es; [|discriminate].
  cbn in Hmemo. injection Hmemo as <- _. right.
  exists i, d, pf, s. rewrite Eg. cbn [fst].
  split; [reflexivity|]. split; [reflexivity|]. split; [reflexivity|].
  split; [exact Es|reflexivity].
Qed.

Lemma found_points_app (a b : list jsstring) :
  found_points (a ++ b) = found_points a + found_points b.
Proof.
  unfold found_points. induction a as [|w a IH]; cbn; [lia|].
  cbn in IH. rewrite IH. lia.
Qed.

Lemma found_points_Permutation (a b : list jsstring) :
  a ≡ₚ b → found_points a = found_points b.
Proof.
  unfold found_points.
  induction 1 as [|w a b Hab IH|v w a|a b c Hab IH1 Hbc IH2]; cbn in *; lia.
Qed.

Lemma found_points_nonneg (a : list jsstring) :
  Forall (λ w, (3 ≤ length w)%nat) a → 0 ≤ found_points a.
Proof.
  unfold found_points. induction 1 as [|w a Hw Ha IH]; cbn in *; lia.
Qed.

(** X20: under the puzzle of the memo, on a visit of the page that
    restores no stored result, in every state the number of found words is
    at most the number of words the solver lists, and the score is at most
    the points of all the listed words together: the result shared as
    found/total never passes the total. *)
Theorem found_count_bounded `{Runtime} (id : option jsstring)
    (dict prefixes : option JSSet.t) (σ σ' : Store) (p : Page)
    (stored : Stored) (g : Game) (s : SolverData) :
  playMemo id dict prefixes σ = Some (puzzle p, σ') →
  solver (puzzle p) = Some s →
  visited p stored g → restored stored = false →
  JSSet.size (foundWords g) ≤ Z.of_nat (length (allWords s))
  ∧ score g ≤ found_points (allWords s).
Proof.
  intros Hmemo Hsolver Hg Hfresh. apply (visited_fresh p stored g Hfresh) in Hg.
  destruct (playMemo_cases id dict prefixes σ σ' (puzzle p) Hmemo)
    as [Hno|(i & d & pf & s' & -> & -> & -> & Hsolve & Hpz)].
  { rewrite Hno in Hsolver. discriminate. }
  rewrite Hpz in Hsolver. cbn in Hsolver. injection Hsolver as ->.
  assert (Hsub : foundWords g ⊆+ allWords s).
  { apply NoDup_submseteq.
    - apply (reachable_consistent p g Hg).
    - intros w Hw.
      destruct (reachable_foundWords p g Hg w Hw) as (valid & Hvalid & Hin).
      rewrite Hpz in Hvalid. cbn in Hvalid. injection Hvalid as <-.
      apply elem_of_from_array, Hin. }
  split.
  - unfold JSSet.size. apply inj_le, submseteq_length, Hsub.
  - destruct (reachable_consistent p g Hg) as [Hs Hf _ Hw].
    apply submseteq_Permutation in Hsub as [rest Hrest].
    rewrite (found_points_Permutation _ _ Hrest), found_points_app.
    assert (Hpts : 0 ≤ found_points rest).
    { apply found_points_nonneg, Forall_forall. intros w Hw'.
      destruct (solveGrid_findable (fst (puzzleGrid i σ)) d pf)
        as (s2 & Hs2 & Hfind).
      rewrite Hsolve in Hs2. injection Hs2 as <-.
      apply (Hfind w). rewrite Hrest. apply elem_of_app. auto. }
    rewrite Hs, Hf. pose proof (replay_found_points _ Hw). lia.
Qed.

Lemma found_count_bounded_witness :
  (@playMemo ascii_runtime (Some playId) (Some (words playDictionary))
     (Some (prefixes playDictionary)) [] = Some (puzzle playPage, playStore)
   ∧ solver (puzzle playPage) = Some playSolver
   ∧ @visited ascii_runtime playPage no_item playSubmitted
   ∧ restored no_item = false)
  ∧ JSSet.size (foundWords playSubmitted)
    ≤ Z.of_nat (length (allWords playSolver))
  ∧ score playSubmitted ≤ found_points (allWords playSolver).
Proof.
  assert (Hm : @playMemo ascii_runtime (Some playId) (Some (words playDictionary))
                 (Some (prefixes playDictionary)) []
               = Some (puzzle playPage, playStore)) by (vm_compute; reflexivity).
  assert (Hs : solver (puzzle playPage) = Some playSolver)
    by (vm_compute; reflexivity).
  split.
  { exact (conj Hm (conj Hs (conj playSubmitted_visited eq_refl))). }
  exact (@found_count_bounded ascii_runtime _ _ _ _ _ playPage no_item
           playSubmitted playSolver Hm Hs playSubmitted_visited eq_refl).
Defined.

(** ** A word traced on the grid is accepted *)

Lemma puzzleGrid_length (id : jsstring) (σ : Store) :
  length (fst (puzzleGrid id σ)) = 16%nat.
Proof.
  rewrite puzzleGrid_pure. unfold generateGrid.
  rewrite generateGrid_loop_length. reflexivity.
Qed.

(** Every position of the grid of a puzzle identifier holds a string. *)
Lemma puzzleGrid_tile (id : jsstring) (σ : Store) (i : Z) :
  position i → ∃ s, grid_get (fst (puzzleGrid id σ)) i = Str s.
Proof.
  intros Hi.
  destruct (grid_get_position _ i (puzzleGrid_length id σ) Hi) as [tile Htile].
  unfold grid_get. rewrite Htile. cbn [default].
  unfold array_get in Htile. destruct (i <? 0); [discriminate|].
  apply list_elem_of_lookup_2 in Htile.
  pose proof (proj1 (Forall_forall _ _) (puzzleGrid_letter_tiles id σ) tile Htile)
    as [->|(c & -> & _)]; eexists; reflexivity.
Qed.

(** On tiles that hold strings the candidate word is the word the selection
    spells. *)
Lemma currentWord_spell (p : Page) (g : Game) (gr : Grid) :
  grid (puzzle p) = Some gr →
  Forall (λ i, ∃ s, grid_get gr i = Str s) (selected g) →
  currentWord p g = spell gr (selected g).
Proof.
  intros Hgrid Htiles. unfold currentWord, spell. rewrite Hgrid.
  destruct (bool_decide (selected g = [])) eqn:E.
  - apply bool_decide_eq_true_1 in E. rewrite E. reflexivity.
  - f_equal. apply Forall_fmap_ext_1.
    eapply Forall_impl; [exact Htiles|]. intros i [s Hs]. cbv beta.
    rewrite Hs. reflexivity.
Qed.

(** X21: with the index built from any text, on a host whose lower-casing
    leaves lower-case letters alone, and under the puzzle of the memo: when
    a running game's selection is a path whose tiles spell a word of the
    word set that was not found before, submitting records that word as new
    with delta its length less 2, adds the delta to the score, appends the
    word to the found words and empties the selection. *)
Theorem path_word_accepted `{Runtime} (rawText : jsstring)
    (id : option jsstring) (σ σ' : Store) (p : Page) (g : Game) (gr : Grid) :
  fixes_lowercase →
  playMemo id (Some (words (buildDictionary rawText)))
    (Some (prefixes (buildDictionary rawText))) σ = Some (puzzle p, σ') →
  grid (puzzle p) = Some gr →
  running g = true → finished g = false → 0 ≤ score g →
  is_path (selected g) →
  spell gr (selected g) ∈ words (buildDictionary rawText) →
  spell gr (selected g) ∉ foundWords g →
  handleSubmit p g
  = {| selected := [];
       score := score g + (Z.of_nat (length (spell gr (selected g))) - 2);
       foundWords := foundWords g ++ [spell gr (selected g)];
       submissions :=
         {| word := spell gr (selected g);
            delta := Z.of_nat (length (spell gr (selected g))) - 2;
            status := new |} :: submissions g;
       timeLeft := timeLeft g; running := running g; finished := finished g |}.
Proof.
  intros Hfix Hmemo Hgrid Hrun Hfin Hscore Hpath Hword Hfresh.
  destruct (playMemo_cases _ _ _ σ σ' (puzzle p) Hmemo)
    as [Hno|(i & d & pf & s & _ & Ed & Epf & Hsolve & Hpz)].
  { rewrite Hno in Hgrid. discriminate. }
  injection Ed as <-. injection Epf as <-.
  rewrite Hpz in Hgrid. cbn in Hgrid. injection Hgrid as <-.
  set (gr := fst (puzzleGrid i σ)) in *. set (w := spell gr (selected g)) in *.
  destruct (buildDictionary_ok rawText) as [Hacc _].
  destruct (Hacc w Hword) as [Hlen Hletters Hpre].
  assert (Hlisted : w ∈ allWords s).
  { destruct (solveGrid_finds gr _ _ w Hlen Hpre Hword) as (s' & Hs' & Hin).
    - exists (selected g). split; [exact Hpath|reflexivity].
    - rewrite Hsolve in Hs'. injection Hs' as <-. exact Hin. }
  assert (Hcur : currentWord p g = w).
  { apply currentWord_spell; [rewrite Hpz; reflexivity|].
    eapply Forall_impl; [exact (path_positions _ Hpath)|].
    intros k Hk. apply puzzleGrid_tile, Hk. }
  unfold handleSubmit. rewrite Hrun, Hfin, Hpz. cbn [negb orb solver validWordSet].
  rewrite Hcur, (normalizeWord_letters_id w Hfix Hletters).
  destruct (Z.of_nat (length w) <? 3) eqn:E; [apply Z.ltb_lt in E; lia|].
  rewrite (proj2 (has_false (foundWords g) w) Hfresh).
  rewrite (proj2 (has_true _ w) (proj2 (elem_of_from_array _ w) Hlisted)).
  unfold JSSet.add. rewrite (proj2 (has_false (foundWords g) w) Hfresh).
  rewrite Z.max_r by lia. reflexivity.
Qed.

Lemma path_word_accepted_witness :
  (@fixes_lowercase ascii_runtime
   ∧ @playMemo ascii_runtime (Some playId)
       (Some (words (@buildDictionary ascii_runtime playText)))
       (Some (prefixes (@buildDictionary ascii_runtime playText))) []
     = Some (puzzle playPage, playStore)
   ∧ grid (puzzle playPage) = Some playGrid
   ∧ running playSelected = true ∧ finished playSelected = false
   ∧ 0 ≤ score playSelected
   ∧ is_path (selected playSelected)
   ∧ spell playGrid (selected playSelected)
     ∈ words (@buildDictionary ascii_runtime playText)
   ∧ (spell playGrid (selected playSelected) ∉ foundWords playSelected))
  ∧ @handleSubmit ascii_runtime playPage playSelected
    = {| selected := [];
         score := score playSelected
                  + (Z.of_nat (length (spell playGrid (selected playSelected)))
                     - 2);
         foundWords :=
           foundWords playSelected ++ [spell playGrid (selected playSelected)];
         submissions :=
           {| word := spell playGrid (selected playSelected);
              delta :=
                Z.of_nat (length (spell playGrid (selected playSelected))) - 2;
              status := new |} :: submissions playSelected;
         timeLeft := timeLeft playSelected; running := running playSelected;
         finished := finished playSelected |}.
Proof.
  assert (Hm : @playMemo ascii_runtime (Some playId)
                 (Some (words (@buildDictionary ascii_runtime playText)))
                 (Some (prefixes (@buildDictionary ascii_runtime playText))) []
               = Some (puzzle playPage, playStore)) by (vm_compute; reflexivity).
  assert (Hg : grid (puzzle playPage) = Some playGrid)
    by (vm_compute; reflexivity).
  assert (H1 : running playSelected = true) by (vm_compute; reflexivity).
  assert (H2 : finished playSelected = false) by (vm_compute; reflexivity).
  assert (H3 : 0 ≤ score playSelected) by by_computation.
  assert (Hsel : selected playSelected = [2; 6; 5]) by (vm_compute; reflexivity).
  assert (H4 : is_path (selected playSelected)).
  { rewrite Hsel. split.
    - repeat constructor; unfold position; lia.
    - by_computation.
    - cbn. auto. }
  assert (H5 : spell playGrid (selected playSelected)
               ∈ words (@buildDictionary ascii_runtime playText))
    by by_computation.
  assert (H6 : spell playGrid (selected playSelected) ∉ foundWords playSelected)
    by by_computation.
  split.
  { exact (conj ascii_runtime_fixes_lowercase
             (conj Hm (conj Hg (conj H1 (conj H2 (conj H3 (conj H4
               (conj H5 H6)))))))). }
  exact (@path_word_accepted ascii_runtime playText (Some playId) [] playStore
           playPage playSelected playGrid ascii_runtime_fixes_lowercase
           Hm Hg H1 H2 H3 H4 H5 H6).
Defined.
